(** * Reference-counted and exclusive ownership handles

    A shallow embedding of [src/shared_ptr/main.cpp] (class [SharedPtr]) and
    [src/unique_ptr/main.cpp] (class [UniquePtr]).

    Handle objects live in a store indexed by their identity (the address of
    the C++ object, the value of [this]); counter cells live in a heap indexed
    by their address.  Every member function is a function on that state.  A
    result of [None] stands for undefined behaviour: a member function called
    on an object that is not alive, a constructor run on top of a live
    object, or an access to a counter cell that has been deallocated.

    The counter is a [std::atomic<int>]: a 32-bit two's complement integer
    whose [fetch_add] and [fetch_sub] wrap around.  The operations are run one
    after the other; interleavings of threads are not part of this model.
    Calls of a cleanup routine, and allocations and deallocations of counter
    cells, are recorded in a trace in the order in which they happen.  The
    body of a cleanup routine is opaque, and [new] always succeeds.

    A call of a cleanup routine is an event and nothing more: it does not
    change a handle or a counter cell, and neither does the copy, the
    assignment or the destruction of a stored cleanup routine.  That is what
    the code does when the resource holds no handle of its own.  A resource whose destruction
    destroys handles (a list node with a [SharedPtr] to the next node) makes
    the call [deleter_(ptr_)] run destructors in the middle of [release];
    such resources are outside this state, and the sections on [int] and
    [TestClass] objects below give the cleanup routine its body. *)

From stdpp Require Import gmap list fin_maps.
From Stdlib Require Import ZArith Lia.

Local Open Scope Z_scope.

(** ** Machine integers *)

Definition INT_MAX : Z := 2147483647.
Definition INT_MIN : Z := -2147483648.

(** The value of a 32-bit two's complement [int] after an arithmetic
    operation whose mathematical result is [z]. *)
Definition wrap (z : Z) : Z := (z + 2 ^ 31) mod 2 ^ 32 - 2 ^ 31.

(** ** Pointers, cleanup routines, events *)

(** A raw pointer [T *]: [None] is [nullptr]. *)
Abbreviation rawptr := (option positive) (only parsing).

(** The address of a counter cell. *)
Abbreviation loc := positive (only parsing).

(** The identity of a handle object. *)
Abbreviation hid := nat (only parsing).

(** A stored cleanup routine.  Its body is opaque to the handle: calling it
    is an event of the trace. *)
Inductive deleter : Type :=
  | defaultDeleter
  | customDeleter (id : nat).

Global Instance deleter_eq_dec : EqDecision deleter.
Proof. solve_decision. Defined.

Inductive event : Type :=
  | EvNew (c : loc)                        (* new std::atomic<int>(1) *)
  | EvDelete (c : loc)                     (* delete count_ *)
  | EvCleanup (d : deleter) (p : rawptr).  (* deleter_(ptr_) *)

Global Instance event_eq_dec : EqDecision event.
Proof. solve_decision. Defined.

(** ** The shared handle *)

Module Shared.

Record SharedPtr : Type := mkSharedPtr {
  ptr_ : rawptr;
  count_ : option loc;
  deleter_ : deleter
}.

Global Instance SharedPtr_eq_dec : EqDecision SharedPtr.
Proof. solve_decision. Defined.

Record state : Type := mkState {
  handles : gmap nat SharedPtr;
  cells : gmap positive Z;
  trace : list event
}.

Definition init : state := mkState ∅ ∅ [].

(** The address returned by [new std::atomic<int>]: one that is not in use. *)
Definition new_cell (st : state) : loc := fresh (dom (cells st)).

(** [acquire], lines 68-75. *)
Definition acquire (this other : hid) (st : state) : option state :=
  o ← handles st !! other;
  let hs := <[this := mkSharedPtr (ptr_ o) (count_ o) (deleter_ o)]> (handles st) in
  match count_ o with
  | None => Some (mkState hs (cells st) (trace st))
  | Some c =>
      v ← cells st !! c;
      Some (mkState hs (<[c := wrap (v + 1)]> (cells st)) (trace st))
  end.

(** [release], lines 77-82.  [fetch_sub] stores the decremented value and
    returns the previous one; when that is 1 the cleanup routine is called,
    which is recorded in the trace, and the cell is deallocated.  The fields
    of the handle are left as they are. *)
Definition release (this : hid) (st : state) : option state :=
  h ← handles st !! this;
  match count_ h with
  | None => Some st
  | Some c =>
      v ← cells st !! c;
      let cs := <[c := wrap (v - 1)]> (cells st) in
      if decide (v = 1)
      then Some (mkState (handles st) (delete c cs)
                   (trace st ++ [EvCleanup (deleter_ h) (ptr_ h); EvDelete c]))
      else Some (mkState (handles st) cs (trace st))
  end.

(** A constructor runs on storage that holds no live handle. *)
Definition fresh_object (this : hid) (st : state) : option unit :=
  match handles st !! this with
  | None => Some ()
  | Some _ => None
  end.

(** [SharedPtr()], line 9. *)
Definition ctor_empty (this : hid) (st : state) : option state :=
  _ ← fresh_object this st;
  Some (mkState (<[this := mkSharedPtr None None defaultDeleter]> (handles st))
          (cells st) (trace st)).

(** [SharedPtr(T *ptr, deleter)], lines 11-12. *)
Definition ctor_bound (this : hid) (ptr : rawptr) (d : deleter) (st : state)
  : option state :=
  _ ← fresh_object this st;
  let c := new_cell st in
  Some (mkState (<[this := mkSharedPtr ptr (Some c) d]> (handles st))
          (<[c := 1]> (cells st)) (trace st ++ [EvNew c])).

(** [SharedPtr(const SharedPtr &other)], lines 18-20. *)
Definition ctor_copy (this other : hid) (st : state) : option state :=
  _ ← fresh_object this st;
  acquire this other st.

(** [~SharedPtr()], lines 14-16; the object is gone afterwards. *)
Definition dtor (this : hid) (st : state) : option state :=
  st1 ← release this st;
  Some (mkState (delete this (handles st1)) (cells st1) (trace st1)).

(** [operator=(const SharedPtr &other)], lines 22-28. *)
Definition assign (this other : hid) (st : state) : option state :=
  _ ← handles st !! this;
  _ ← handles st !! other;
  if decide (this ≠ other)
  then st1 ← release this st; acquire this other st1
  else Some st.

(** [reset(T *ptr, deleter)], lines 46-51. *)
Definition reset (this : hid) (ptr : rawptr) (d : deleter) (st : state)
  : option state :=
  st1 ← release this st;
  let c := new_cell st1 in
  Some (mkState (<[this := mkSharedPtr ptr (Some c) d]> (handles st1))
          (<[c := 1]> (cells st1)) (trace st1 ++ [EvNew c])).

(** [reset()]: both parameters take their defaults. *)
Definition reset0 (this : hid) (st : state) : option state :=
  reset this None defaultDeleter st.

(** [swap(SharedPtr &other)], lines 57-61: three [std::swap]s of fields. *)
Definition swap (this other : hid) (st : state) : option state :=
  a ← handles st !! this;
  b ← handles st !! other;
  let hs1 := <[this := mkSharedPtr (ptr_ b) (count_ b) (deleter_ b)]> (handles st) in
  let hs2 := <[other := mkSharedPtr (ptr_ a) (count_ a) (deleter_ a)]> hs1 in
  Some (mkState hs2 (cells st) (trace st)).

(** [use_count()], lines 53-55. *)
Definition use_count (this : hid) (st : state) : option Z :=
  h ← handles st !! this;
  match count_ h with
  | Some c => cells st !! c
  | None => Some 0
  end.

(** [operator bool()], lines 30-32. *)
Definition to_bool (this : hid) (st : state) : option bool :=
  h ← handles st !! this;
  Some (bool_decide (ptr_ h ≠ None)).

(** [get()], lines 34-36. *)
Definition get (this : hid) (st : state) : option rawptr :=
  h ← handles st !! this;
  Some (ptr_ h).

(** *** Sequences of operations *)

Inductive op : Type :=
  | OpEmpty (this : hid)
  | OpBound (this : hid) (ptr : rawptr) (d : deleter)
  | OpCopy (this other : hid)
  | OpAssign (this other : hid)
  | OpReset (this : hid) (ptr : rawptr) (d : deleter)
  | OpSwap (this other : hid)
  | OpDestroy (this : hid).

Definition step (o : op) (st : state) : option state :=
  match o with
  | OpEmpty this => ctor_empty this st
  | OpBound this ptr d => ctor_bound this ptr d st
  | OpCopy this other => ctor_copy this other st
  | OpAssign this other => assign this other st
  | OpReset this ptr d => reset this ptr d st
  | OpSwap this other => swap this other st
  | OpDestroy this => dtor this st
  end.

Fixpoint run (os : list op) (st : state) : option state :=
  match os with
  | [] => Some st
  | o :: os' => st1 ← step o st; run os' st1
  end.

(** Copy-construct the handles [ids], one after the other, from [src]. *)
Definition copies (src : hid) (ids : list hid) : state → option state :=
  run ((λ this, OpCopy this src) <$> ids).

(** Destroy the handles [ids], one after the other. *)
Definition dtors (ids : list hid) : state → option state :=
  run (OpDestroy <$> ids).

(** *** Counting owners *)

(** The number of live handles whose [count_] is the cell [c]. *)
Definition refs (c : loc) (hs : gmap nat SharedPtr) : nat :=
  size (filter (λ kh, count_ kh.2 = Some c) hs).

(** What [h] adds to the number of owners of [c]. *)
Definition owns (c : loc) (h : SharedPtr) : nat :=
  if decide (count_ h = Some c) then 1%nat else 0%nat.

(** The content of a cell with [n] owners: not allocated when there is none. *)
Definition cell_of (n : nat) : option Z :=
  if decide (n = 0%nat) then None else Some (Z.of_nat n).

(** Each allocated cell holds the number of its owners, and only cells with
    an owner are allocated. *)
Definition counts_ok (st : state) : Prop :=
  ∀ c, cells st !! c = cell_of (refs c (handles st)).

(** The same, at a point inside a member function where [this] has given up
    its share and has not yet taken another. *)
Definition counts_without (this : hid) (st : state) : Prop :=
  ∀ c, cells st !! c = cell_of (refs c (delete this (handles st))).

(** No cell has more owners than an [int] can count. *)
Definition within_int (st : state) : Prop :=
  ∀ c, Z.of_nat (refs c (handles st)) ≤ INT_MAX.

(** A live handle whose counter cell, if it has one, is allocated. *)
Definition usable (this : hid) (st : state) : Prop :=
  ∃ h, handles st !! this = Some h ∧
       ∀ c, count_ h = Some c → is_Some (cells st !! c).

(** The two readings of "the cell reference goes with the pointer". *)
Definition cell_iff_ptr (h : SharedPtr) : Prop :=
  count_ h = None ↔ ptr_ h = None.

Definition ptr_has_cell (h : SharedPtr) : Prop :=
  ptr_ h ≠ None → count_ h ≠ None.

Definition all_handles (P : SharedPtr → Prop) (st : state) : Prop :=
  ∀ this h, handles st !! this = Some h → P h.

(** The operations that store a null pointer beside a new cell. *)
Definition binds_null (o : op) : bool :=
  match o with
  | OpBound _ None _ | OpReset _ None _ => true
  | _ => false
  end.

(** What the caller owes an operation: a constructor is given storage that
    holds no live handle, every other operation live handles. *)
Definition ready (o : op) (st : state) : Prop :=
  match o with
  | OpEmpty this | OpBound this _ _ => handles st !! this = None
  | OpCopy this other =>
      handles st !! this = None ∧ is_Some (handles st !! other)
  | OpAssign this other | OpSwap this other =>
      is_Some (handles st !! this) ∧ is_Some (handles st !! other)
  | OpReset this _ _ | OpDestroy this => is_Some (handles st !! this)
  end.

(** A short run: bind, copy, destroy the original. *)
Definition bind_copy_destroy : list op :=
  [OpBound 0 (Some 5%positive) defaultDeleter; OpCopy 1 0; OpDestroy 0].

(** The scenario of one ownership group with [N] copies.  A handle [this]
    is bound to [ptr] with cleanup routine [d] in any state [st0], the
    handles [ids] are copy-constructed from it, and the [N + 1] handles are
    destroyed in the order [order].  The scenario runs to its end.  The
    construction adds the allocation of the counter cell to the trace of
    [st0]; the copies, however many of them have been made, add nothing; the
    first [N] destructions, whichever they are, add nothing; the last one
    adds one call of [d] on [ptr] and the deallocation of the cell.  So the
    whole scenario adds exactly one cleanup call to the trace, made by the
    last destruction. *)
Definition cleanup_by_last_only (N : nat) : Prop :=
  ∀ (st0 : state) (this : hid) (ids : list hid) (ptr : rawptr) (d : deleter)
    (order : list hid),
    length ids = N →
    NoDup (this :: ids) →
    (∀ i, i ∈ this :: ids → handles st0 !! i = None) →
    order ≡ₚ this :: ids →
    ∃ st1 st,
      ctor_bound this ptr d st0 = Some st1 ∧
      trace st1 = trace st0 ++ [EvNew (new_cell st0)] ∧
      copies this ids st1 = Some st ∧
      (∀ k, (k ≤ N)%nat →
            ∃ s, copies this (take k ids) st1 = Some s ∧
                 trace s = trace st0 ++ [EvNew (new_cell st0)]) ∧
      trace st = trace st0 ++ [EvNew (new_cell st0)] ∧
      (∀ k, (k ≤ N)%nat →
            ∃ s, dtors (take k order) st = Some s ∧
                 trace s = trace st0 ++ [EvNew (new_cell st0)]) ∧
      (∃ s, dtors order st = Some s ∧
            trace s = trace st0 ++ [EvNew (new_cell st0); EvCleanup d ptr;
                                    EvDelete (new_cell st0)] ∧
            cells s !! new_cell st0 = None).


(** *** Small states used as test inputs *)

(** One handle, object 0, sole owner of resource 5 through cell 1. *)
Definition one_owner : state :=
  mkState {[0%nat := mkSharedPtr (Some 5%positive) (Some 1%positive) defaultDeleter]}
    {[1%positive := 1]} [EvNew 1].

(** As [one_owner], with an empty handle, object 1, beside it. *)
Definition owner_and_empty : state :=
  mkState {[0%nat := mkSharedPtr (Some 5%positive) (Some 1%positive) defaultDeleter;
            1%nat := mkSharedPtr None None (customDeleter 7)]}
    {[1%positive := 1]} [EvNew 1].

End Shared.

(** ** The exclusive handle *)

Module Unique.

Record UniquePtr : Type := mkUniquePtr {
  ptr_ : rawptr;
  deleter_ : deleter
}.

Record state : Type := mkState {
  handles : gmap nat UniquePtr;
  trace : list event
}.

Definition init : state := mkState ∅ [].

Definition fresh_object (this : hid) (st : state) : option unit :=
  match handles st !! this with
  | None => Some ()
  | Some _ => None
  end.

(** [UniquePtr(T *ptr, const Deleter &d)], line 9. *)
Definition ctor (this : hid) (ptr : rawptr) (d : deleter) (st : state)
  : option state :=
  _ ← fresh_object this st;
  Some (mkState (<[this := mkUniquePtr ptr d]> (handles st)) (trace st)).

(** [reset(T *p)], lines 46-51. *)
Definition reset (this : hid) (p : rawptr) (st : state) : option state :=
  h ← handles st !! this;
  let tr := match ptr_ h with
            | Some _ => trace st ++ [EvCleanup (deleter_ h) (ptr_ h)]
            | None => trace st
            end in
  Some (mkState (<[this := mkUniquePtr p (deleter_ h)]> (handles st)) tr).

(** [~UniquePtr()], lines 11-13: [reset()], then the object is gone. *)
Definition dtor (this : hid) (st : state) : option state :=
  st1 ← reset this None st;
  Some (mkState (delete this (handles st1)) (trace st1)).

Section move_of_deleter.

(** The class is a template over the type [Deleter] of the cleanup routine,
    and the move constructor passes [std::move(other.deleter_)] to the move
    constructor of that type.  What this leaves in [other.deleter_] is up to
    the type: [std::default_delete], a function pointer and a closure that
    captures by reference are left as they were, a [std::function] is left
    without a target.  [moved_from d] is the value left behind by a move
    from [d]. *)
Variable moved_from : deleter → deleter.

(** [UniquePtr(UniquePtr &&other)], lines 15-17. *)
Definition ctor_move (this other : hid) (st : state) : option state :=
  _ ← fresh_object this st;
  o ← handles st !! other;
  let hs1 := <[this := mkUniquePtr (ptr_ o) (deleter_ o)]> (handles st) in
  let hs2 := <[other := mkUniquePtr None (moved_from (deleter_ o))]> hs1 in
  Some (mkState hs2 (trace st)).

End move_of_deleter.

(** [swap(UniquePtr &other)], lines 53-56. *)
Definition swap (this other : hid) (st : state) : option state :=
  a ← handles st !! this;
  b ← handles st !! other;
  let hs1 := <[this := mkUniquePtr (ptr_ b) (deleter_ b)]> (handles st) in
  let hs2 := <[other := mkUniquePtr (ptr_ a) (deleter_ a)]> hs1 in
  Some (mkState hs2 (trace st)).

(** [operator=(UniquePtr &&other)], lines 19-22. *)
Definition assign_move (this other : hid) (st : state) : option state :=
  swap this other st.

(** [release()], lines 40-44: the result is the pointer given up. *)
Definition release (this : hid) (st : state) : option (rawptr * state) :=
  h ← handles st !! this;
  let tmp := ptr_ h in
  Some (tmp, mkState (<[this := mkUniquePtr None (deleter_ h)]> (handles st))
               (trace st)).

(** [operator bool()], lines 36-38. *)
Definition to_bool (this : hid) (st : state) : option bool :=
  h ← handles st !! this;
  Some (bool_decide (ptr_ h ≠ None)).

(** [get()], lines 32-34. *)
Definition get (this : hid) (st : state) : option rawptr :=
  h ← handles st !! this;
  Some (ptr_ h).

(** *** Small states used as test inputs *)

(** Two handles, objects 0 and 1, owning the resources 5 and 6. *)
Definition two_owners : state :=
  mkState {[0%nat := mkUniquePtr (Some 5%positive) defaultDeleter;
            1%nat := mkUniquePtr (Some 6%positive) (customDeleter 3)]} [].

End Unique.

(** ** More of the shared handle *)

Module SharedExt.
Import Shared.

(** [make_shared], lines 94-97: [r] is the address that [new T(args...)]
    returned. *)
Definition make_shared (this : hid) (r : positive) (st : state) : option state :=
  ctor_bound this (Some r) defaultDeleter st.

(** The free function [swap(a, b)], lines 89-92. *)
Definition swap_free (a b : hid) (st : state) : option state :=
  swap a b st.

(** The cleanup calls of a trace, in the order in which they were made:
    the routine called and the pointer it was called on. *)
Definition cleanups (tr : list event) : list (deleter * rawptr) :=
  omap (λ e, match e with EvCleanup d p => Some (d, p) | _ => None end) tr.

(** What a sequence of operations hands to handles: for each bound
    construction and each [reset], in their order, the cleanup routine and
    the pointer given. *)
Definition bound (os : list op) : list (deleter * rawptr) :=
  omap (λ o, match o with
             | OpBound _ p d | OpReset _ p d => Some (d, p)
             | _ => None
             end) os.

(** What a handle is responsible for: its cleanup routine and its
    pointer. *)
Definition charge (h : SharedPtr) : deleter * rawptr := (deleter_ h, ptr_ h).

(** The handle that an operation releases, if it releases one. *)
Definition releases (o : op) : option hid :=
  match o with
  | OpAssign this other => if decide (this = other) then None else Some this
  | OpReset this _ _ | OpDestroy this => Some this
  | _ => None
  end.

(** The handle [this] is the only owner of its counter cell: its release
    calls the cleanup routine. *)
Definition last_owner (this : hid) (st : state) : Prop :=
  ∃ h c, handles st !! this = Some h ∧ count_ h = Some c ∧
         refs c (handles st) = 1%nat.

(** An operation that does not release the last owner of a cell. *)
Definition calm (o : op) (st : state) : Prop :=
  ∀ this, releases o = Some this → ¬ last_owner this st.

(** The handles that share a counter cell are copies of one another: same
    resource pointer, same cleanup routine. *)
Definition coherent (st : state) : Prop :=
  ∀ i j hi hj c,
    handles st !! i = Some hi → handles st !! j = Some hj →
    count_ hi = Some c → count_ hj = Some c → hi = hj.

(** The resources handed to handles so far, [bs], are accounted for: each
    has been cleaned up, or is the charge of the group of a counter cell that
    is allocated now.  [grp] gives each allocated cell the charge of its
    group. *)
Definition tracked_on (hs : gmap nat SharedPtr) (cs : gmap positive Z)
    (tr : list event) (bs : list (deleter * rawptr)) : Prop :=
  ∃ grp : gmap positive (deleter * rawptr),
    (∀ c, grp !! c = None ↔ cs !! c = None) ∧
    (∀ k h c, hs !! k = Some h → count_ h = Some c → grp !! c = Some (charge h)) ∧
    bs ≡ₚ cleanups tr ++ (map_to_list grp).*2.

Definition tracked (st : state) (bs : list (deleter * rawptr)) : Prop :=
  tracked_on (handles st) (cells st) (trace st) bs.

(** No cell is one short of the largest number of owners an [int] holds. *)
Definition below_int_max (st : state) : Prop :=
  ∀ c, Z.of_nat (refs c (handles st)) < INT_MAX.

(** Two owners of resource 5 through cell 1, objects 0 and 1, and a sole
    owner of resource 6 through cell 2, object 2. *)
Definition two_groups : state :=
  mkState {[0%nat := mkSharedPtr (Some 5%positive) (Some 1%positive) defaultDeleter;
            1%nat := mkSharedPtr (Some 5%positive) (Some 1%positive) defaultDeleter;
            2%nat := mkSharedPtr (Some 6%positive) (Some 2%positive) (customDeleter 4)]}
    {[1%positive := 2; 2%positive := 1]} [EvNew 1; EvNew 2].

(** Two resources handed to handles, the second one by a [reset], and all
    handles destroyed in the end. *)
Definition two_binds : list op :=
  [OpBound 0 (Some 5%positive) defaultDeleter; OpCopy 1 0;
   OpReset 0 (Some 6%positive) (customDeleter 4); OpDestroy 1; OpDestroy 0].

End SharedExt.

(** ** More of the exclusive handle *)

Module UniqueExt.
Import Unique.

(** [make_unique], lines 67-70: [r] is the address that [new T(args...)]
    returned. *)
Definition make_unique (this : hid) (r : positive) (st : state) : option state :=
  ctor this (Some r) defaultDeleter st.

(** The free function [swap(a, b)], lines 72-75. *)
Definition swap_free (a b : hid) (st : state) : option state :=
  swap a b st.

Inductive op : Type :=
  | OpCtor (this : hid) (ptr : rawptr) (d : deleter)
  | OpMove (this other : hid)
  | OpAssign (this other : hid)
  | OpSwap (this other : hid)
  | OpRelease (this : hid)
  | OpReset (this : hid) (p : rawptr)
  | OpDestroy (this : hid).

Section move_of_deleter.

(** What a move leaves in a cleanup routine, as for [ctor_move]. *)
Variable moved_from : deleter → deleter.

(** One operation; the pointer that [release()] returns goes to the caller. *)
Definition step (o : op) (st : state) : option state :=
  match o with
  | OpCtor this ptr d => ctor this ptr d st
  | OpMove this other => ctor_move moved_from this other st
  | OpAssign this other => assign_move this other st
  | OpSwap this other => swap this other st
  | OpRelease this => snd <$> release this st
  | OpReset this p => reset this p st
  | OpDestroy this => dtor this st
  end.

(** Move-construct [i1] from [src], [i2] from [i1], and so on. *)
Fixpoint move_chain (src : hid) (ids : list hid) (st : state) : option state :=
  match ids with
  | [] => Some st
  | i :: ids' => st1 ← ctor_move moved_from i src st; move_chain i ids' st1
  end.

End move_of_deleter.

(** Destroy the handles [ids], one after the other. *)
Fixpoint dtors (ids : list hid) (st : state) : option state :=
  match ids with
  | [] => Some st
  | i :: ids' => st1 ← dtor i st; dtors ids' st1
  end.

(** The cleanup call that the destruction of [h] makes, if any. *)
Definition cleanup_of (h : UniquePtr) : option event :=
  match ptr_ h with
  | Some r => Some (EvCleanup (deleter_ h) (Some r))
  | None => None
  end.

(** Some live handle holds [r]. *)
Definition held (r : positive) (st : state) : Prop :=
  ∃ i h, handles st !! i = Some h ∧ ptr_ h = Some r.

(** No resource is held by two handles. *)
Definition exclusive (st : state) : Prop :=
  ∀ i j hi hj r,
    handles st !! i = Some hi → handles st !! j = Some hj →
    ptr_ hi = Some r → ptr_ hj = Some r → i = j.

(** The resources on which a cleanup routine has been called. *)
Definition cleaned (tr : list event) : list positive :=
  omap (λ e, match e with EvCleanup _ (Some r) => Some r | _ => None end) tr.

(** Ownership is sound: one owner at most for each resource, no resource
    cleaned up twice, and none that has been cleaned up is still held. *)
Definition sound (st : state) : Prop :=
  exclusive st ∧
  NoDup (cleaned (trace st)) ∧
  ∀ r, held r st → r ∉ cleaned (trace st).

(** What the caller owes when handing a pointer to a handle: it is not
    held by a handle already and has not been cleaned up. *)
Definition binds_new (o : op) (st : state) : Prop :=
  match o with
  | OpCtor _ (Some r) _ | OpReset _ (Some r) =>
      ¬ held r st ∧ r ∉ cleaned (trace st)
  | _ => True
  end.

End UniqueExt.

(** ** The exclusive handle on [TestClass] objects *)

Module UniqueTest.
Import Unique UniqueExt.

(** [struct TestClass], lines 115-125: a static counter, incremented by the
    constructor and decremented by the destructor.  The handles are
    [UniquePtr<TestClass>], whose cleanup routine is
    [std::default_delete<TestClass>]. *)
Record world : Type := mkWorld {
  uniq : state;             (* the handles *)
  objs : gset positive;     (* the TestClass objects that are alive *)
  count : Z                 (* TestClass::count *)
}.

Definition winit : world := mkWorld init ∅ 0.

(** [std::default_delete<TestClass>] has no state: a move leaves it as it
    was. *)
Definition default_delete_moved (d : deleter) : deleter := d.

(** [new TestClass]: a new object, and [++count].  Overflow of a plain [int]
    is undefined. *)
Definition new_TestClass (w : world) : option (positive * world) :=
  if decide (count w = INT_MAX) then None
  else let r := fresh (objs w) in
       Some (r, mkWorld (uniq w) ({[r]} ∪ objs w) (count w + 1)).

(** [delete p] on a [TestClass *]: the destructor, [--count], then the
    object is gone.  Deleting what is not a live object is undefined. *)
Definition delete_TestClass (r : positive) (ob : gset positive) (n : Z)
  : option (gset positive * Z) :=
  if decide (r ∈ ob)
  then if decide (n = INT_MIN) then None else Some (ob ∖ {[r]}, n - 1)
  else None.

(** The cleanup calls [evs], carried out on the objects: each is a
    [delete]. *)
Fixpoint run_deleters (evs : list event) (ob : gset positive) (n : Z)
  : option (gset positive * Z) :=
  match evs with
  | [] => Some (ob, n)
  | EvCleanup _ (Some r) :: evs' =>
      x ← delete_TestClass r ob n; run_deleters evs' x.1 x.2
  | _ :: evs' => run_deleters evs' ob n
  end.

(** The state after a handle operation that led from [uniq w] to [st']:
    the cleanup calls it added to the trace are carried out. *)
Definition settle (w : world) (st' : state) : option world :=
  x ← run_deleters (drop (length (trace (uniq w))) (trace st')) (objs w) (count w);
  Some (mkWorld st' x.1 x.2).

Inductive wop : Type :=
  | WNew (this : hid)       (* UniquePtr<TestClass> p(new TestClass), make_unique<TestClass>() *)
  | WEmpty (this : hid)     (* UniquePtr<TestClass> p *)
  | WMove (this other : hid)
  | WAssign (this other : hid)
  | WSwap (this other : hid)
  | WReset (this : hid)     (* p.reset() *)
  | WDestroy (this : hid).

Definition wstep (o : wop) (w : world) : option world :=
  match o with
  | WNew this =>
      x ← new_TestClass w;
      st' ← make_unique this x.1 (uniq x.2);
      settle x.2 st'
  | WEmpty this => st' ← ctor this None defaultDeleter (uniq w); settle w st'
  | WMove this other =>
      st' ← ctor_move default_delete_moved this other (uniq w); settle w st'
  | WAssign this other => st' ← assign_move this other (uniq w); settle w st'
  | WSwap this other => st' ← swap_free this other (uniq w); settle w st'
  | WReset this => st' ← reset this None (uniq w); settle w st'
  | WDestroy this => st' ← dtor this (uniq w); settle w st'
  end.

Fixpoint wrun (os : list wop) (w : world) : option world :=
  match os with
  | [] => Some w
  | o :: os' => w1 ← wstep o w; wrun os' w1
  end.

(** What the caller owes an operation. *)
Definition wready (o : wop) (w : world) : Prop :=
  match o with
  | WNew this => handles (uniq w) !! this = None ∧ count w ≠ INT_MAX
  | WEmpty this => handles (uniq w) !! this = None
  | WMove this other =>
      handles (uniq w) !! this = None ∧ is_Some (handles (uniq w) !! other)
  | WAssign this other | WSwap this other =>
      is_Some (handles (uniq w) !! this) ∧ is_Some (handles (uniq w) !! other)
  | WReset this | WDestroy this => is_Some (handles (uniq w) !! this)
  end.

(** The counter is the number of live objects, the live objects are the
    ones that a handle holds, and none is held twice. *)
Definition consistent (w : world) : Prop :=
  exclusive (uniq w) ∧
  (∀ r, r ∈ objs w ↔ held r (uniq w)) ∧
  count w = Z.of_nat (size (objs w)).

(** The handle that is at [k] after [a] and [b] have been swapped. *)
Definition transp (a b k : hid) : hid :=
  if decide (k = a) then b else if decide (k = b) then a else k.

(** The first block of [main], lines 129-144, and the destruction of its
    three handles at the end of the block. *)
Definition main_block : list wop :=
  [WNew 1; WMove 2 1; WEmpty 3; WAssign 3 2; WReset 3;
   WDestroy 3; WDestroy 2; WDestroy 1].

End UniqueTest.

(** ** The exclusive handle on arrays *)

Module UniqueArray.

(** [UniquePtr<T[], Deleter>], lines 77-113, with [T = int].  This class has
    no move operations, no [get] and no [release]. *)
Record ArrayPtr : Type := mkArrayPtr {
  ptr_ : rawptr;
  deleter_ : deleter
}.

(** The arrays made by [new int[n]] are blocks of cells; a cell holds [None]
    until a value is stored in it. *)
Record state : Type := mkState {
  handles : gmap nat ArrayPtr;
  blocks : gmap positive (list (option Z));
  trace : list event
}.

Definition init : state := mkState ∅ ∅ [].

(** [new int[n]]: a block of [n] cells without values, at an address that
    is not in use. *)
Definition new_array (n : nat) (st : state) : positive * state :=
  let r := fresh (dom (blocks st)) in
  (r, mkState (handles st) (<[r := replicate n None]> (blocks st)) (trace st)).

Definition fresh_object (this : hid) (st : state) : option unit :=
  match handles st !! this with
  | None => Some ()
  | Some _ => None
  end.

(** [UniquePtr(T *p, const Deleter &d)], line 80. *)
Definition ctor (this : hid) (p : rawptr) (d : deleter) (st : state)
  : option state :=
  _ ← fresh_object this st;
  Some (mkState (<[this := mkArrayPtr p d]> (handles st)) (blocks st) (trace st)).

(** The call [deleter_(ptr_)].  [std::default_delete<int[]>] is
    [delete[] p], which is undefined on what is not an allocated block; the
    body of any other cleanup routine is opaque. *)
Definition call_deleter (d : deleter) (r : positive) (st : state)
  : option state :=
  let tr := trace st ++ [EvCleanup d (Some r)] in
  match d with
  | defaultDeleter =>
      _ ← blocks st !! r;
      Some (mkState (handles st) (delete r (blocks st)) tr)
  | customDeleter _ => Some (mkState (handles st) (blocks st) tr)
  end.

(** [reset(T *p)], lines 86-91. *)
Definition reset (this : hid) (p : rawptr) (st : state) : option state :=
  h ← handles st !! this;
  st1 ← match ptr_ h with
        | Some r => call_deleter (deleter_ h) r st
        | None => Some st
        end;
  Some (mkState (<[this := mkArrayPtr p (deleter_ h)]> (handles st1))
          (blocks st1) (trace st1)).

(** [~UniquePtr()], lines 82-84. *)
Definition dtor (this : hid) (st : state) : option state :=
  st1 ← reset this None st;
  Some (mkState (delete this (handles st1)) (blocks st1) (trace st1)).

(** [operator[](index)], lines 93-95, read: the value of [ptr_[index]].
    There is no bounds check: an empty handle, an index outside the block
    and a cell without a value are undefined. *)
Definition index_get (this : hid) (i : nat) (st : state) : option Z :=
  h ← handles st !! this;
  r ← ptr_ h;
  b ← blocks st !! r;
  v ← b !! i;
  v.

(** [operator[](index)], written through: [p[index] = v]. *)
Definition index_set (this : hid) (i : nat) (v : Z) (st : state)
  : option state :=
  h ← handles st !! this;
  r ← ptr_ h;
  b ← blocks st !! r;
  if decide (i < length b)%nat
  then Some (mkState (handles st) (<[r := <[i := Some v]> b]> (blocks st))
               (trace st))
  else None.

(** [operator bool()], lines 97-99. *)
Definition to_bool (this : hid) (st : state) : option bool :=
  h ← handles st !! this;
  Some (bool_decide (ptr_ h ≠ None)).

(** [swap(UniquePtr &other)], lines 105-108. *)
Definition swap (this other : hid) (st : state) : option state :=
  a ← handles st !! this;
  b ← handles st !! other;
  let hs1 := <[this := mkArrayPtr (ptr_ b) (deleter_ b)]> (handles st) in
  let hs2 := <[other := mkArrayPtr (ptr_ a) (deleter_ a)]> hs1 in
  Some (mkState hs2 (blocks st) (trace st)).

(** The loop [for (int i = 0; i < n; ++i) p[i] = i;] of [main], lines
    149-151, from index [i] on, with [k] iterations left. *)
Fixpoint fill_from (this : hid) (i k : nat) (st : state) : option state :=
  match k with
  | O => Some st
  | S k' => st1 ← index_set this i (Z.of_nat i) st; fill_from this (S i) k' st1
  end.

Definition fill (this : hid) (n : nat) (st : state) : option state :=
  fill_from this 0 n st.

(** The loop [for (int i = 0; i < n; ++i) assert(p[i] == i);], lines
    153-155 and 160-162: whether every assertion holds. *)
Fixpoint check_from (this : hid) (i k : nat) (st : state) : bool :=
  match k with
  | O => true
  | S k' => bool_decide (index_get this i st = Some (Z.of_nat i))
            && check_from this (S i) k' st
  end.

Definition check (this : hid) (n : nat) (st : state) : bool :=
  check_from this 0 n st.

(** The second block of [main], lines 147-165, for arrays of [n] cells, with
    the destruction of [p2] and [p1] at its end.  The result says whether
    the assertions of both loops held. *)
Definition array_block (p1 p2 : hid) (n : nat) (st : state)
  : option (bool * state) :=
  let (r1, st) := new_array n st in
  st ← ctor p1 (Some r1) defaultDeleter st;
  st ← fill p1 n st;
  let ok1 := check p1 n st in
  let (r2, st) := new_array n st in
  st ← ctor p2 (Some r2) defaultDeleter st;
  st ← swap p2 p1 st;
  let ok2 := check p2 n st in
  st ← reset p2 None st;
  st ← dtor p2 st;
  st ← dtor p1 st;
  Some (ok1 && ok2, st).

(** A handle, object 0, on a block of three cells at address 4, and an
    empty handle, object 1. *)
Definition one_array : state :=
  mkState {[0%nat := mkArrayPtr (Some 4%positive) defaultDeleter;
            1%nat := mkArrayPtr None defaultDeleter]}
    {[4%positive := [Some 10; None; Some 30]]} [].

End UniqueArray.

(** ** The shared handle on [int] objects *)

Module SharedInt.
Import Shared SharedExt.

(** The handles of [main]: [SharedPtr<int>] with the default cleanup
    routine, which is [delete ptr].  The objects are the [int]s made by
    [new int(v)]. *)
Record world : Type := mkWorld {
  sh : state;                 (* the handles and their counter cells *)
  objs : gmap positive Z      (* the int objects that are alive *)
}.

Definition winit : world := mkWorld init ∅.

(** [new int(v)]: an object at an address that is not in use. *)
Definition new_int (v : Z) (w : world) : positive * world :=
  let r := fresh (dom (objs w)) in
  (r, mkWorld (sh w) (<[r := v]> (objs w))).

(** The cleanup calls [evs], carried out on the objects.  [delete] of what
    is not a live object is undefined; [delete nullptr] does nothing. *)
Fixpoint run_deleters (evs : list event) (ob : gmap positive Z)
  : option (gmap positive Z) :=
  match evs with
  | [] => Some ob
  | EvCleanup _ (Some r) :: evs' => _ ← ob !! r; run_deleters evs' (delete r ob)
  | _ :: evs' => run_deleters evs' ob
  end.

(** The state after a handle operation that led from [sh w] to [st']: the
    cleanup calls it added to the trace are carried out. *)
Definition settle (w : world) (st' : state) : option world :=
  ob ← run_deleters (drop (length (trace (sh w))) (trace st')) (objs w);
  Some (mkWorld st' ob).

Inductive wop : Type :=
  | WMake (this : hid) (v : Z)      (* make_shared<int>(v), SharedPtr<int> p(new int(v)) *)
  | WEmpty (this : hid)             (* SharedPtr<int> p *)
  | WCopy (this other : hid)
  | WAssign (this other : hid)
  | WResetNew (this : hid) (v : Z)  (* p.reset(new int(v)) *)
  | WReset (this : hid)             (* p.reset() *)
  | WSwap (this other : hid)
  | WDestroy (this : hid).

Definition wstep (o : wop) (w : world) : option world :=
  match o with
  | WMake this v =>
      let (r, w1) := new_int v w in
      st' ← make_shared this r (sh w1); settle w1 st'
  | WEmpty this => st' ← ctor_empty this (sh w); settle w st'
  | WCopy this other => st' ← ctor_copy this other (sh w); settle w st'
  | WAssign this other => st' ← assign this other (sh w); settle w st'
  | WResetNew this v =>
      let (r, w1) := new_int v w in
      st' ← reset this (Some r) defaultDeleter (sh w1); settle w1 st'
  | WReset this => st' ← reset0 this (sh w); settle w st'
  | WSwap this other => st' ← swap_free this other (sh w); settle w st'
  | WDestroy this => st' ← dtor this (sh w); settle w st'
  end.

Fixpoint wrun (os : list wop) (w : world) : option world :=
  match os with
  | [] => Some w
  | o :: os' => w1 ← wstep o w; wrun os' w1
  end.

(** [operator*], lines 38-40, read: the value of [*ptr_].  Undefined on an
    empty handle and on a pointer to an object that is gone. *)
Definition deref (this : hid) (w : world) : option Z :=
  h ← handles (sh w) !! this;
  r ← ptr_ h;
  objs w !! r.

(** What the caller owes an operation. *)
Definition wready (o : wop) (w : world) : Prop :=
  match o with
  | WMake this _ | WEmpty this => handles (sh w) !! this = None
  | WCopy this other =>
      handles (sh w) !! this = None ∧ is_Some (handles (sh w) !! other)
  | WAssign this other | WSwap this other =>
      is_Some (handles (sh w) !! this) ∧ is_Some (handles (sh w) !! other)
  | WResetNew this _ | WReset this | WDestroy this =>
      is_Some (handles (sh w) !! this)
  end.

(** The resource that the release of the handle [t] cleans up, if any: the
    one it points to, when it is the only owner of its cell. *)
Definition freed_by (t : SharedPtr) (hs : gmap nat SharedPtr) : option positive :=
  match count_ t with
  | Some c => if decide (refs c hs = 1%nat) then ptr_ t else None
  | None => None
  end.

(** The events that the release of the handle [t] adds to the trace. *)
Definition release_events (t : SharedPtr) (hs : gmap nat SharedPtr) : list event :=
  match count_ t with
  | Some c => if decide (refs c hs = 1%nat)
              then [EvCleanup (deleter_ t) (ptr_ t); EvDelete c] else []
  | None => []
  end.

(** The objects that are left when the handle [t] has been released. *)
Definition objs_after_release (t : SharedPtr) (hs : gmap nat SharedPtr)
    (ob : gmap positive Z) : gmap positive Z :=
  match freed_by t hs with
  | Some r0 => delete r0 ob
  | None => ob
  end.

(** Handles [hs], counter cells [cs] and objects [ob] fit together: the
    counters are right, the handles of a cell are copies of one another, a
    handle without a cell has no pointer, every non-null pointer is to a
    live object, every live object is pointed to by a handle, and handles
    that point to the same object share a cell. *)
Definition safe_on (hs : gmap nat SharedPtr) (cs : gmap positive Z)
    (ob : gmap positive Z) : Prop :=
  (∀ c, cs !! c = cell_of (refs c hs)) ∧
  (∀ i j hi hj c, hs !! i = Some hi → hs !! j = Some hj →
                  count_ hi = Some c → count_ hj = Some c → hi = hj) ∧
  (∀ k h, hs !! k = Some h → count_ h = None → ptr_ h = None) ∧
  (∀ k h r, hs !! k = Some h → ptr_ h = Some r → is_Some (ob !! r)) ∧
  (∀ r, is_Some (ob !! r) → ∃ k h, hs !! k = Some h ∧ ptr_ h = Some r) ∧
  (∀ i j hi hj r, hs !! i = Some hi → hs !! j = Some hj →
                  ptr_ hi = Some r → ptr_ hj = Some r → count_ hi = count_ hj).

Definition safe (w : world) : Prop :=
  safe_on (handles (sh w)) (cells (sh w)) (objs w).

(** [main], lines 99-136, without its assertions, and the destruction of
    its four handles at the end. *)
Definition main_ops : list wop :=
  [WMake 1 5; WCopy 2 1; WEmpty 3; WAssign 3 1; WMake 4 42; WResetNew 1 10;
   WSwap 1 4; WDestroy 4; WDestroy 3; WDestroy 2; WDestroy 1].

(** Two objects, the first with one owner, the second with two. *)
Definition assign_ops : list wop :=
  [WMake 1 5; WMake 2 6; WCopy 3 2].

End SharedInt.

(** * Properties of the shared handle *)

Module SharedSpec.
Import Shared.

(** ** Arithmetic of the counter *)

Lemma wrap_small z : INT_MIN ≤ z ≤ INT_MAX → wrap z = z.
Proof.
  unfold wrap, INT_MIN, INT_MAX. intros Hz.
  rewrite Z.mod_small; lia.
Qed.

Lemma wrap_succ z : wrap (wrap z + 1) = wrap (z + 1).
Proof.
  unfold wrap.
  replace ((z + 2 ^ 31) mod 2 ^ 32 - 2 ^ 31 + 1 + 2 ^ 31)
    with ((z + 2 ^ 31) mod 2 ^ 32 + 1) by lia.
  replace (z + 1 + 2 ^ 31) with (z + 2 ^ 31 + 1) by lia.
  by rewrite Zplus_mod_idemp_l.
Qed.

Lemma wrap_pred z : wrap (wrap z - 1) = wrap (z - 1).
Proof.
  unfold wrap.
  replace ((z + 2 ^ 31) mod 2 ^ 32 - 2 ^ 31 - 1 + 2 ^ 31)
    with ((z + 2 ^ 31) mod 2 ^ 32 + (-1)) by lia.
  replace (z - 1 + 2 ^ 31) with (z + 2 ^ 31 + (-1)) by lia.
  by rewrite Zplus_mod_idemp_l.
Qed.

(** Among the counts from 1 to 2^32, only 1 is stored as 1. *)
Lemma wrap_eq_1 z : 1 ≤ z ≤ 2 ^ 32 → wrap z = 1 → z = 1.
Proof.
  unfold wrap. intros Hz H.
  assert (Hm : (z + 2 ^ 31) mod 2 ^ 32 = 2 ^ 31 + 1) by lia.
  destruct (Z_lt_le_dec z (2 ^ 31)) as [Hlt|Hge].
  - rewrite Z.mod_small in Hm; lia.
  - replace (z + 2 ^ 31) with (z - 2 ^ 31 + 1 * 2 ^ 32) in Hm by lia.
    rewrite Z_mod_plus_full in Hm.
    destruct (Z.eq_dec z (2 ^ 32)) as [->|Hne]; [vm_compute in Hm; discriminate|].
    rewrite Z.mod_small in Hm; lia.
Qed.

(** ** Single operations *)


Lemma release_handles this st st1 :
  release this st = Some st1 → handles st1 = handles st.
Proof.
  unfold release. intros H.
  destruct (handles st !! this) as [h|]; simplify_eq/=.
  destruct (count_ h) as [c|]; simplify_eq/=; [|done].
  destruct (cells st !! c); simplify_eq/=.
  case_decide; by simplify_eq/=.
Qed.

Lemma new_cell_fresh st : cells st !! new_cell st = None.
Proof.
  apply not_elem_of_dom. unfold new_cell. apply is_fresh.
Qed.

(** C3, as amended.  [reset()] on a usable handle [h] releases what the
    handle owned and then stores the null pointer beside a newly allocated
    counter cell [c] holding 1: afterwards the boolean conversion is false,
    but [use_count()] is 1 and the handle refers to that cell.

    The release: a handle without a cell releases nothing.  For a handle
    whose cell [c0] holds [v], the cell is decremented when [v] is not 1, and
    nothing is added to the trace; when [v] is 1 the cleanup routine of [h]
    is called on the pointer of [h] and [c0] is deallocated.  The allocation:
    [c] is allocated after the release, at an address that is not in use
    then (one that was not allocated before, or the address of the cell that
    the release has just deallocated), and the allocation is the last event
    of the trace.  Nothing else changes: the other handles and the other
    cells are as before. *)
Theorem reset0_holds_new_cell this st :
  usable this st →
  ∃ st' c,
    reset0 this st = Some st' ∧
    handles st' !! this = Some (mkSharedPtr None (Some c) defaultDeleter) ∧
    cells st' !! c = Some 1 ∧
    to_bool this st' = Some false ∧
    use_count this st' = Some 1 ∧
    ∃ h,
      handles st !! this = Some h ∧
      (∀ k, k ≠ this → handles st' !! k = handles st !! k) ∧
      (∀ c', c' ≠ c → count_ h ≠ Some c' → cells st' !! c' = cells st !! c') ∧
      match count_ h with
      | None =>
          trace st' = trace st ++ [EvNew c] ∧
          cells st !! c = None
      | Some c0 =>
          ∃ v, cells st !! c0 = Some v ∧
               if decide (v = 1)
               then trace st' = trace st ++ [EvCleanup (deleter_ h) (ptr_ h);
                                             EvDelete c0; EvNew c] ∧
                    (c = c0 ∨ cells st !! c = None) ∧
                    (c ≠ c0 → cells st' !! c0 = None)
               else trace st' = trace st ++ [EvNew c] ∧
                    cells st !! c = None ∧
                    c ≠ c0 ∧
                    cells st' !! c0 = Some (wrap (v - 1))
      end.
Proof.
  intros (h & Hh & Hc). unfold reset0, reset, release. rewrite Hh. simpl.
  destruct (count_ h) as [c0|] eqn:Ec.
  - destruct (Hc c0 eq_refl) as [v Hv]. rewrite Hv. simpl.
    destruct (decide (v = 1)) as [->|Hv1]; simpl.
    + rewrite delete_insert_eq.
      set (st1 := mkState (handles st) (delete c0 (cells st))
                    (trace st ++ [EvCleanup (deleter_ h) (ptr_ h); EvDelete c0])).
      pose proof (new_cell_fresh st1) as Hf. simpl in Hf.
      eexists _, (new_cell st1). split; [done|].
      unfold to_bool, use_count. simpl.
      rewrite !lookup_insert_eq. simpl. rewrite lookup_insert_eq.
      do 4 (split; [done|]). exists h. rewrite Ec. split; [done|].
      split; [by intros k Hk; rewrite lookup_insert_ne|].
      split.
      { intros c' Hc' Hc0. rewrite lookup_insert_ne by done.
        rewrite lookup_delete_ne; [done|congruence]. }
      exists 1. split; [done|]. rewrite decide_True by done.
      split; [by rewrite <-app_assoc|]. split.
      * destruct (decide (new_cell st1 = c0)) as [?|Hne]; [by left|right].
        by rewrite lookup_delete_ne in Hf.
      * intros Hne. rewrite lookup_insert_ne by done. apply lookup_delete_eq.
    + set (st1 := mkState (handles st) (<[c0 := wrap (v - 1)]> (cells st)) (trace st)).
      pose proof (new_cell_fresh st1) as Hf. simpl in Hf.
      assert (Hne : new_cell st1 ≠ c0).
      { intros E. rewrite E, lookup_insert_eq in Hf. done. }
      rewrite lookup_insert_ne in Hf by done.
      eexists _, (new_cell st1). split; [done|].
      unfold to_bool, use_count. simpl.
      rewrite !lookup_insert_eq. simpl. rewrite lookup_insert_eq.
      do 4 (split; [done|]). exists h. rewrite Ec. split; [done|].
      split; [by intros k Hk; rewrite lookup_insert_ne|].
      split.
      { intros c' Hc' Hc0. rewrite !lookup_insert_ne; [done|congruence|done]. }
      exists v. split; [done|]. rewrite decide_False by done.
      split; [done|]. split; [done|]. split; [done|].
      by rewrite lookup_insert_ne, lookup_insert_eq.
  - pose proof (new_cell_fresh st) as Hf.
    eexists _, (new_cell st). split; [done|].
    unfold to_bool, use_count. simpl.
    rewrite !lookup_insert_eq. simpl. rewrite lookup_insert_eq.
    do 4 (split; [done|]). exists h. rewrite Ec. split; [done|].
    split; [by intros k Hk; rewrite lookup_insert_ne|].
    split; [by intros c' Hc' _; rewrite lookup_insert_ne|].
    by split.
Qed.

(** C3 fails as stated: a handle bound to a resource and then [reset()]
    reports [use_count() = 1] and keeps a counter-cell reference. *)
Lemma reset0_not_empty :
  (st ← ctor_bound 0 (Some 5%positive) defaultDeleter init;
   st' ← reset0 0 st;
   Some (to_bool 0 st', use_count 0 st', count_ <$> handles st' !! 0%nat))
  = Some (Some false, Some 1, Some (Some 1%positive)).
Proof. vm_compute. reflexivity. Qed.

Lemma reset0_holds_new_cell_witness :
  ∃ st' c,
    reset0 0 one_owner = Some st' ∧
    handles st' !! 0%nat = Some (mkSharedPtr None (Some c) defaultDeleter) ∧
    cells st' !! c = Some 1 ∧
    to_bool 0 st' = Some false ∧
    use_count 0 st' = Some 1 ∧
    ∃ h,
      handles one_owner !! 0%nat = Some h ∧
      (∀ k, k ≠ 0%nat → handles st' !! k = handles one_owner !! k) ∧
      (∀ c', c' ≠ c → count_ h ≠ Some c' →
             cells st' !! c' = cells one_owner !! c') ∧
      match count_ h with
      | None =>
          trace st' = trace one_owner ++ [EvNew c] ∧
          cells one_owner !! c = None
      | Some c0 =>
          ∃ v, cells one_owner !! c0 = Some v ∧
               if decide (v = 1)
               then trace st' = trace one_owner ++ [EvCleanup (deleter_ h) (ptr_ h);
                                                    EvDelete c0; EvNew c] ∧
                    (c = c0 ∨ cells one_owner !! c = None) ∧
                    (c ≠ c0 → cells st' !! c0 = None)
               else trace st' = trace one_owner ++ [EvNew c] ∧
                    cells one_owner !! c = None ∧
                    c ≠ c0 ∧
                    cells st' !! c0 = Some (wrap (v - 1))
      end.
Proof.
  apply reset0_holds_new_cell.
  eexists. split; [reflexivity|].
  intros c Hc. injection Hc as <-. eexists. reflexivity.
Defined.

(** C6.  [swap] on two live handles (the same one twice included, either one
    possibly empty) exchanges the three fields of the two handles and leaves
    every other handle, every counter cell and the trace as they were: no
    counter changes, no cleanup routine runs, nothing is allocated or
    deallocated. *)
Theorem swap_exchanges a b st ha hb :
  handles st !! a = Some ha →
  handles st !! b = Some hb →
  ∃ st',
    swap a b st = Some st' ∧
    handles st' !! a = Some hb ∧
    handles st' !! b = Some ha ∧
    (∀ k, k ≠ a → k ≠ b → handles st' !! k = handles st !! k) ∧
    cells st' = cells st ∧
    trace st' = trace st.
Proof.
  intros Ha Hb. unfold swap. rewrite Ha, Hb. simpl.
  eexists. split; [done|]. simpl.
  destruct ha as [pa ca da], hb as [pb cb db]. simpl.
  repeat split.
  - destruct (decide (b = a)) as [->|Hne].
    + rewrite lookup_insert_eq. congruence.
    + by rewrite lookup_insert_ne, lookup_insert_eq.
  - by rewrite lookup_insert_eq.
  - intros k Hka Hkb. by rewrite !lookup_insert_ne.
Qed.

Lemma swap_exchanges_witness :
  ∃ st',
    swap 0 1 owner_and_empty = Some st' ∧
    handles st' !! 0%nat = Some (mkSharedPtr None None (customDeleter 7)) ∧
    handles st' !! 1%nat
      = Some (mkSharedPtr (Some 5%positive) (Some 1%positive) defaultDeleter) ∧
    (∀ k, k ≠ 0%nat → k ≠ 1%nat →
          handles st' !! k = handles owner_and_empty !! k) ∧
    cells st' = cells owner_and_empty ∧
    trace st' = trace owner_and_empty.
Proof.
  apply (swap_exchanges 0 1 owner_and_empty); reflexivity.
Defined.

(** C7.  Assigning a live handle to itself returns the state as it was: the
    fields of the handle, every counter and the trace are unchanged. *)
Theorem self_assign_noop h st :
  is_Some (handles st !! h) → assign h h st = Some st.
Proof.
  intros [x Hx]. unfold assign. rewrite Hx. simpl.
  case_decide; [congruence|done].
Qed.

Lemma self_assign_noop_witness : assign 0 0 one_owner = Some one_owner.
Proof.
  apply self_assign_noop. eexists. reflexivity.
Defined.




(** C10.  Bound construction from the null pointer allocates a counter cell
    holding 1 all the same: [use_count()] is 1 while the boolean conversion
    is false, and destroying the handle calls the stored cleanup routine
    once, on the null pointer, before the cell is deallocated. *)
Theorem bound_null_has_cell this d st :
  handles st !! this = None →
  ∃ st' st'',
    ctor_bound this None d st = Some st' ∧
    handles st' !! this = Some (mkSharedPtr None (Some (new_cell st)) d) ∧
    cells st' !! new_cell st = Some 1 ∧
    trace st' = trace st ++ [EvNew (new_cell st)] ∧
    use_count this st' = Some 1 ∧
    to_bool this st' = Some false ∧
    dtor this st' = Some st'' ∧
    trace st'' = trace st' ++ [EvCleanup d None; EvDelete (new_cell st)].
Proof.
  intros Hfresh. unfold ctor_bound, fresh_object. rewrite Hfresh. simpl.
  eexists _, _. split; [done|].
  unfold use_count, to_bool, dtor, release. simpl.
  rewrite !lookup_insert_eq. simpl. rewrite !lookup_insert_eq. simpl.
  by repeat split.
Qed.

Lemma bound_null_has_cell_witness :
  ∃ st' st'',
    ctor_bound 3 None (customDeleter 2) one_owner = Some st' ∧
    handles st' !! 3%nat
      = Some (mkSharedPtr None (Some (new_cell one_owner)) (customDeleter 2)) ∧
    cells st' !! new_cell one_owner = Some 1 ∧
    trace st' = trace one_owner ++ [EvNew (new_cell one_owner)] ∧
    use_count 3 st' = Some 1 ∧
    to_bool 3 st' = Some false ∧
    dtor 3 st' = Some st'' ∧
    trace st'' = trace st' ++ [EvCleanup (customDeleter 2) None;
                               EvDelete (new_cell one_owner)].
Proof.
  apply (bound_null_has_cell 3 (customDeleter 2) one_owner). reflexivity.
Defined.

(** ** A property of every stored handle *)

Lemma SharedPtr_eta h : mkSharedPtr (ptr_ h) (count_ h) (deleter_ h) = h.
Proof. by destruct h. Qed.

Section all_handles.
Variable P : SharedPtr → Prop.

Lemma all_handles_insert hs cs tr cs' tr' this h :
  all_handles P (mkState hs cs tr) → P h →
  all_handles P (mkState (<[this := h]> hs) cs' tr').
Proof.
  intros Hall Hh k x. simpl. destruct (decide (this = k)) as [->|Hne].
  - rewrite lookup_insert_eq. by intros [= <-].
  - rewrite lookup_insert_ne by done. apply (Hall k x).
Qed.

Lemma all_handles_delete hs cs tr cs' tr' this :
  all_handles P (mkState hs cs tr) →
  all_handles P (mkState (delete this hs) cs' tr').
Proof.
  intros Hall k x. simpl. intros [_ Hk]%lookup_delete_Some. apply (Hall k x Hk).
Qed.

Lemma all_handles_same st st' :
  handles st' = handles st → all_handles P st → all_handles P st'.
Proof. intros E Hall k x. rewrite E. apply Hall. Qed.

Lemma all_handles_acquire this other st st' :
  acquire this other st = Some st' → all_handles P st → all_handles P st'.
Proof.
  unfold acquire. intros H Hall.
  destruct (handles st !! other) as [o|] eqn:Eo; simplify_eq/=.
  rewrite SharedPtr_eta in H.
  assert (P o) by exact (Hall other o Eo).
  destruct st as [hs cs tr]. simpl in *.
  destruct (count_ o) as [c|]; simplify_eq/=.
  - destruct (cs !! c); simplify_eq/=. by eapply all_handles_insert.
  - by eapply all_handles_insert.
Qed.

(** Every operation keeps a property of handles that holds of the empty
    handle and of the handles that the operation itself binds. *)
Lemma all_handles_step o st st' :
  P (mkSharedPtr None None defaultDeleter) →
  (∀ this ptr d c,
     o = OpBound this ptr d ∨ o = OpReset this ptr d →
     P (mkSharedPtr ptr (Some c) d)) →
  step o st = Some st' →
  all_handles P st → all_handles P st'.
Proof.
  intros Hempty Hbind Hstep Hall.
  destruct o as [this|this ptr d|this other|this other|this ptr d|this other|this];
    simpl in Hstep.
  - unfold ctor_empty in Hstep.
    destruct (fresh_object this st); simplify_eq/=.
    destruct st. by eapply all_handles_insert.
  - unfold ctor_bound in Hstep.
    destruct (fresh_object this st); simplify_eq/=.
    destruct st. eapply all_handles_insert; eauto.
  - unfold ctor_copy in Hstep.
    destruct (fresh_object this st); simplify_eq/=.
    by eapply all_handles_acquire.
  - unfold assign in Hstep.
    destruct (handles st !! this); simplify_eq/=.
    destruct (handles st !! other); simplify_eq/=.
    case_decide; simplify_eq/=; [|done].
    destruct (release this st) as [st1|] eqn:E1; simplify_eq/=.
    eapply all_handles_acquire; [done|].
    eapply all_handles_same; [|done]. by eapply release_handles.
  - unfold reset in Hstep.
    destruct (release this st) as [st1|] eqn:E1; simplify_eq/=.
    apply release_handles in E1. destruct st1 as [hs1 cs1 tr1], st as [hs cs tr].
    simpl in *. subst hs1. eapply all_handles_insert; eauto.
  - unfold swap in Hstep.
    destruct (handles st !! this) as [a|] eqn:Ea; simplify_eq/=.
    destruct (handles st !! other) as [b|] eqn:Eb; simplify_eq/=.
    rewrite !SharedPtr_eta. destruct st as [hs cs tr]. simpl in *.
    eapply all_handles_insert; [|by apply (Hall this a)].
    eapply (all_handles_insert hs cs tr cs tr); [done|by apply (Hall other b)].
  - unfold dtor in Hstep.
    destruct (release this st) as [st1|] eqn:E1; simplify_eq/=.
    apply release_handles in E1. destruct st1 as [hs1 cs1 tr1], st as [hs cs tr].
    simpl in *. subst hs1. by eapply all_handles_delete.
Qed.
End all_handles.

(** C4, as amended.  Every operation preserves: a handle whose resource
    pointer is non-null has a non-null counter-cell reference.  The converse,
    and with it the "if and only if", is preserved by every operation other
    than a bound construction or a [reset] that is given the null pointer. *)
Theorem ops_keep_cell_of_ptr o st st' :
  step o st = Some st' →
  (all_handles ptr_has_cell st → all_handles ptr_has_cell st') ∧
  (binds_null o = false →
   all_handles cell_iff_ptr st → all_handles cell_iff_ptr st').
Proof.
  intros Hstep. split.
  - apply (all_handles_step ptr_has_cell o st st'); [| |done].
    + by intros ?.
    + by intros this ptr d c _ _.
  - intros Hnb. apply (all_handles_step cell_iff_ptr o st st'); [| |done].
    + by split.
    + intros this ptr d c [-> | ->]; simpl in Hnb;
        (destruct ptr; [by split|discriminate]).
Qed.

(** C4 fails as stated: bound construction from the null pointer, and
    [reset()], leave a handle with a null pointer and a counter cell. *)
Lemma null_bind_breaks_iff :
  all_handles cell_iff_ptr init ∧
  (∃ st', step (OpBound 0 None defaultDeleter) init = Some st' ∧
          ¬ all_handles cell_iff_ptr st') ∧
  all_handles cell_iff_ptr one_owner ∧
  (∃ st', step (OpReset 0 None defaultDeleter) one_owner = Some st' ∧
          ¬ all_handles cell_iff_ptr st').
Proof.
  split; [by intros k h Hk|]. split.
  - eexists. split; [reflexivity|]. intros Hall.
    destruct (Hall 0%nat _ eq_refl) as [_ H]. by specialize (H eq_refl).
  - split.
    + intros k h Hk. simpl in Hk.
      apply lookup_singleton_Some in Hk as [<- <-]. by split.
    + eexists. split; [reflexivity|]. intros Hall.
      destruct (Hall 0%nat _ eq_refl) as [_ H]. by specialize (H eq_refl).
Qed.

Lemma ops_keep_cell_of_ptr_witness :
  ∃ st', step (OpCopy 1 0) one_owner = Some st' ∧
         all_handles ptr_has_cell st' ∧ all_handles cell_iff_ptr st'.
Proof.
  eexists. split; [reflexivity|].
  assert (Hall : all_handles cell_iff_ptr one_owner).
  { intros k h Hk. simpl in Hk.
      apply lookup_singleton_Some in Hk as [<- <-]. by split. }
  assert (Hall' : all_handles ptr_has_cell one_owner).
  { intros k h Hk. simpl in Hk.
      apply lookup_singleton_Some in Hk as [<- <-]. by intros _. }
  destruct (ops_keep_cell_of_ptr (OpCopy 1 0) one_owner _ eq_refl) as [H1 H2].
  split; [exact (H1 Hall')|exact (H2 eq_refl Hall)].
Defined.

(** ** Counting the owners of a cell *)

Lemma refs_empty c : refs c ∅ = 0%nat.
Proof. unfold refs. by rewrite map_filter_empty, map_size_empty. Qed.

Lemma refs_insert_fresh c hs k h :
  hs !! k = None → refs c (<[k := h]> hs) = (owns c h + refs c hs)%nat.
Proof.
  intros Hk. unfold refs, owns. case_decide as Hc.
  - rewrite map_filter_insert_True by done.
    rewrite map_size_insert_None; [done|].
    apply map_lookup_filter_None. by left.
  - rewrite map_filter_insert_not'; [done|done|].
    intros y Hy. congruence.
Qed.

Lemma refs_delete c hs k h :
  hs !! k = Some h → refs c hs = (owns c h + refs c (delete k hs))%nat.
Proof.
  intros Hk. rewrite <-(insert_delete_id hs k h) at 1 by done.
  apply refs_insert_fresh, lookup_delete_eq.
Qed.

Lemma refs_insert c hs k h0 h :
  hs !! k = Some h0 →
  (refs c (<[k := h]> hs) + owns c h0 = owns c h + refs c hs)%nat.
Proof.
  intros Hk. rewrite <-insert_delete_eq.
  rewrite refs_insert_fresh by apply lookup_delete_eq.
  rewrite (refs_delete c hs k h0 Hk). lia.
Qed.

Lemma refs_owner c hs k h :
  hs !! k = Some h → count_ h = Some c → (1 ≤ refs c hs)%nat.
Proof.
  intros Hk Hc. rewrite (refs_delete c hs k h Hk).
  unfold owns. rewrite decide_True by done. lia.
Qed.

Lemma cell_of_Some n v : cell_of n = Some v → v = Z.of_nat n ∧ 0 < v.
Proof. unfold cell_of. case_decide; intros [= <-]. lia. Qed.

Lemma cell_of_None n : cell_of n = None → n = 0%nat.
Proof. unfold cell_of. by case_decide. Qed.

Lemma cell_of_pos n : (1 ≤ n)%nat → cell_of n = Some (Z.of_nat n).
Proof. unfold cell_of. intros Hn. case_decide; [lia|done]. Qed.

(** ** The counter invariant, operation by operation *)

Lemma refs_insert_delete c hs k h :
  refs c (<[k := h]> hs) = (owns c h + refs c (delete k hs))%nat.
Proof.
  rewrite <-insert_delete_eq. apply refs_insert_fresh, lookup_delete_eq.
Qed.

Lemma counts_without_fresh this st :
  counts_ok st → handles st !! this = None → counts_without this st.
Proof. intros Hok Hf c. rewrite delete_id by done. apply Hok. Qed.

Lemma release_counts this st h :
  counts_ok st → within_int st → handles st !! this = Some h →
  ∃ st1, release this st = Some st1 ∧ handles st1 = handles st ∧
         counts_without this st1.
Proof.
  intros Hok Hint Hh. unfold release. rewrite Hh. simpl.
  destruct (count_ h) as [c0|] eqn:Ec.
  - pose proof (refs_owner c0 _ _ _ Hh Ec) as Hpos.
    pose proof (refs_delete c0 _ _ _ Hh) as Hdel.
    unfold owns in Hdel. rewrite decide_True in Hdel by done.
    pose proof (Hint c0) as Hmax. unfold INT_MAX in Hmax.
    rewrite (Hok c0), (cell_of_pos _ Hpos). simpl.
    case_decide as H1; (eexists; split; [done|]; split; [done|]); intros c; simpl.
    + destruct (decide (c = c0)) as [->|Hne].
      * rewrite lookup_delete_eq. unfold cell_of. rewrite decide_True; [done|lia].
      * rewrite lookup_delete_ne, lookup_insert_ne by done.
        rewrite (Hok c), (refs_delete c _ _ _ Hh). unfold owns.
        rewrite decide_False; [done|congruence].
    + destruct (decide (c = c0)) as [->|Hne].
      * rewrite lookup_insert_eq, wrap_small by (unfold INT_MIN, INT_MAX; lia).
        rewrite cell_of_pos by lia. f_equal. lia.
      * rewrite lookup_insert_ne by done.
        rewrite (Hok c), (refs_delete c _ _ _ Hh). unfold owns.
        rewrite decide_False; [done|congruence].
  - eexists. split; [done|]. split; [done|]. intros c.
    rewrite (Hok c), (refs_delete c _ _ _ Hh). unfold owns.
    rewrite decide_False; [done|congruence].
Qed.

Lemma acquire_counts this other st1 o :
  counts_without this st1 → this ≠ other → handles st1 !! other = Some o →
  ∃ st', acquire this other st1 = Some st' ∧
         handles st' = <[this := o]> (handles st1) ∧
         trace st' = trace st1 ∧
         (within_int st' → counts_ok st').
Proof.
  intros Hcw Hne Ho. unfold acquire. rewrite Ho. simpl. rewrite SharedPtr_eta.
  destruct (count_ o) as [c0|] eqn:Ec.
  - assert (Ho' : delete this (handles st1) !! other = Some o)
      by by rewrite lookup_delete_ne.
    pose proof (refs_owner c0 _ _ _ Ho' Ec) as Hpos.
    rewrite (Hcw c0), (cell_of_pos _ Hpos). simpl.
    eexists. split; [done|]. split; [done|]. split; [done|].
    intros Hint c. simpl.
    pose proof (Hint c0) as Hmax. simpl in Hmax.
    rewrite refs_insert_delete in Hmax. unfold owns in Hmax.
    rewrite decide_True in Hmax by done. unfold INT_MAX in Hmax.
    rewrite refs_insert_delete. unfold owns.
    destruct (decide (c = c0)) as [->|Hc].
    + rewrite lookup_insert_eq, decide_True by done.
      rewrite wrap_small by (unfold INT_MIN, INT_MAX; lia).
      rewrite cell_of_pos by lia. f_equal. lia.
    + rewrite lookup_insert_ne, decide_False by congruence. apply Hcw.
  - eexists. split; [done|]. split; [done|]. split; [done|].
    intros _ c. simpl. rewrite refs_insert_delete. unfold owns.
    rewrite decide_False by congruence. apply Hcw.
Qed.

Lemma bind_counts this st1 ptr d tr :
  counts_without this st1 →
  counts_ok (mkState (<[this := mkSharedPtr ptr (Some (new_cell st1)) d]> (handles st1))
               (<[new_cell st1 := 1]> (cells st1)) tr).
Proof.
  intros Hcw c. simpl. rewrite refs_insert_delete. unfold owns. simpl.
  destruct (decide (c = new_cell st1)) as [->|Hc].
  - rewrite lookup_insert_eq, decide_True by done.
    pose proof (new_cell_fresh st1) as Hf. rewrite (Hcw _) in Hf.
    apply cell_of_None in Hf. rewrite Hf. done.
  - rewrite lookup_insert_ne, decide_False by congruence. apply Hcw.
Qed.

Lemma refs_swap c hs a b ha hb :
  hs !! a = Some ha → hs !! b = Some hb →
  refs c (<[b := ha]> (<[a := hb]> hs)) = refs c hs.
Proof.
  intros Ha Hb. destruct (decide (a = b)) as [->|Hne].
  - simplify_eq. rewrite insert_insert_eq. by rewrite insert_id.
  - pose proof (refs_insert c hs a ha hb Ha) as H1.
    assert (Hb' : <[a := hb]> hs !! b = Some hb) by by rewrite lookup_insert_ne.
    pose proof (refs_insert c _ b hb ha Hb') as H2. lia.
Qed.

Lemma step_counts_ok o st st' :
  counts_ok st → within_int st → step o st = Some st' → within_int st' →
  counts_ok st'.
Proof.
  intros Hok Hint Hstep Hint'.
  destruct o as [this|this ptr d|this other|this other|this ptr d|this other|this];
    simpl in Hstep.
  - unfold ctor_empty, fresh_object in Hstep.
    destruct (handles st !! this) eqn:Ef; simplify_eq/=.
    intros c. simpl. rewrite refs_insert_fresh by done. apply Hok.
  - unfold ctor_bound, fresh_object in Hstep.
    destruct (handles st !! this) eqn:Ef; simplify_eq/=.
    by apply bind_counts, counts_without_fresh.
  - unfold ctor_copy, fresh_object in Hstep.
    destruct (handles st !! this) eqn:Ef; simplify_eq/=.
    destruct (handles st !! other) as [o|] eqn:Eo;
      [|by unfold acquire in Hstep; rewrite Eo in Hstep].
    destruct (acquire_counts this other st o) as (st2 & E2 & _ & _ & H2);
      [by apply counts_without_fresh|congruence|done|].
    rewrite E2 in Hstep. simplify_eq. by apply H2.
  - unfold assign in Hstep.
    destruct (handles st !! this) as [h|] eqn:Eh; simplify_eq/=.
    destruct (handles st !! other) as [o|] eqn:Eo; simplify_eq/=.
    case_decide as Hne; simplify_eq/=; [|done].
    destruct (release_counts this st h Hok Hint Eh) as (st1 & E1 & Hh1 & Hcw).
    rewrite E1 in Hstep. simpl in Hstep.
    destruct (acquire_counts this other st1 o) as (st2 & E2 & _ & _ & H2);
      [done|done|by rewrite Hh1|].
    rewrite E2 in Hstep. simplify_eq. by apply H2.
  - unfold reset in Hstep.
    destruct (handles st !! this) as [h|] eqn:Eh;
      [|by unfold release in Hstep; rewrite Eh in Hstep].
    destruct (release_counts this st h Hok Hint Eh) as (st1 & E1 & Hh1 & Hcw).
    rewrite E1 in Hstep. simplify_eq/=. by apply bind_counts.
  - unfold swap in Hstep.
    destruct (handles st !! this) as [a|] eqn:Ea; simplify_eq/=.
    destruct (handles st !! other) as [b|] eqn:Eb; simplify_eq/=.
    rewrite !SharedPtr_eta. intros c. simpl.
    rewrite refs_swap by done. apply Hok.
  - unfold dtor in Hstep.
    destruct (handles st !! this) as [h|] eqn:Eh;
      [|by unfold release in Hstep; rewrite Eh in Hstep].
    destruct (release_counts this st h Hok Hint Eh) as (st1 & E1 & Hh1 & Hcw).
    rewrite E1 in Hstep. simplify_eq/=. exact Hcw.
Qed.

Lemma counts_ok_init : counts_ok init.
Proof. intros c. simpl. by rewrite lookup_empty, refs_empty. Qed.

Lemma refs_le_size c hs : (refs c hs ≤ size hs)%nat.
Proof. unfold refs. apply map_subseteq_size, map_filter_subseteq. Qed.

Lemma within_int_size st :
  Z.of_nat (size (handles st)) ≤ INT_MAX → within_int st.
Proof. intros H c. pose proof (refs_le_size c (handles st)). lia. Qed.

(** Under the invariant no operation that is given what it is owed reads or
    writes a counter cell that is not allocated. *)
Lemma step_defined o st :
  counts_ok st → within_int st → ready o st → is_Some (step o st).
Proof.
  intros Hok Hint Hr.
  destruct o as [this|this ptr d|this other|this other|this ptr d|this other|this];
    simpl in *.
  - unfold ctor_empty, fresh_object. by rewrite Hr.
  - unfold ctor_bound, fresh_object. by rewrite Hr.
  - destruct Hr as [Hf [o Ho]]. unfold ctor_copy, fresh_object. rewrite Hf. simpl.
    destruct (acquire_counts this other st o) as (st2 & E2 & _);
      [by apply counts_without_fresh|congruence|done|by eexists].
  - destruct Hr as [[h Hh] [o Ho]]. unfold assign. rewrite Hh, Ho. simpl.
    case_decide; [|by eexists].
    destruct (release_counts this st h Hok Hint Hh) as (st1 & E1 & Hh1 & Hcw).
    rewrite E1. simpl.
    destruct (acquire_counts this other st1 o) as (st2 & E2 & _);
      [done|done|by rewrite Hh1|by eexists].
  - destruct Hr as [h Hh]. unfold reset.
    destruct (release_counts this st h Hok Hint Hh) as (st1 & E1 & _).
    rewrite E1. by eexists.
  - destruct Hr as [[h Hh] [o Ho]]. unfold swap. rewrite Hh, Ho. by eexists.
  - destruct Hr as [h Hh]. unfold dtor.
    destruct (release_counts this st h Hok Hint Hh) as (st1 & E1 & _).
    rewrite E1. by eexists.
Qed.

Lemma run_counts_ok os : ∀ st0 k s,
  counts_ok st0 →
  (∀ j s', run (take j os) st0 = Some s' → within_int s') →
  run (take k os) st0 = Some s →
  counts_ok s.
Proof.
  induction os as [|o os IH]; intros st0 k s Hok Hint Hrun.
  - rewrite take_nil in Hrun. by simplify_eq/=.
  - destruct k as [|k]; [by simplify_eq/=|]. simpl in Hrun.
    destruct (step o st0) as [st1|] eqn:E1; simplify_eq/=.
    assert (H0 : within_int st0) by exact (Hint 0%nat st0 eq_refl).
    assert (H1 : within_int st1).
    { apply (Hint 1%nat). simpl. by rewrite E1. }
    apply (IH st1 k s); [by eapply step_counts_ok| |done].
    intros j s' Hj. apply (Hint (S j)). simpl. by rewrite E1.
Qed.

(** C2, as amended.  Start from a state in which every counter holds the
    number of its owners, run any sequence of constructions, copies,
    assignments, resets, swaps and destructions, and suppose that at no point
    between two operations a cell has more than [INT_MAX] owners.  Then at
    every such point each allocated counter holds the number of live handles
    that refer to it, which is positive, and the cell of every live handle is
    allocated. *)
Theorem counts_track_owners os st0 k s :
  counts_ok st0 →
  (∀ j s', run (take j os) st0 = Some s' → within_int s') →
  run (take k os) st0 = Some s →
  (∀ c v, cells s !! c = Some v →
          v = Z.of_nat (refs c (handles s)) ∧ 0 < v) ∧
  (∀ this h c, handles s !! this = Some h → count_ h = Some c →
               cells s !! c = Some (Z.of_nat (refs c (handles s))) ∧
               (1 ≤ refs c (handles s))%nat).
Proof.
  intros Hok Hint Hrun.
  pose proof (run_counts_ok os st0 k s Hok Hint Hrun) as Hs. split.
  - intros c v Hc. rewrite (Hs c) in Hc. by apply cell_of_Some.
  - intros this h c Hh Hc. pose proof (refs_owner c _ _ _ Hh Hc) as Hpos.
    split; [|done]. by rewrite (Hs c), cell_of_pos.
Qed.

Lemma counts_track_owners_witness :
  ∃ s, run (take 2 bind_copy_destroy) init = Some s ∧
    (∀ c v, cells s !! c = Some v →
            v = Z.of_nat (refs c (handles s)) ∧ 0 < v) ∧
    (∀ this h c, handles s !! this = Some h → count_ h = Some c →
                 cells s !! c = Some (Z.of_nat (refs c (handles s))) ∧
                 (1 ≤ refs c (handles s))%nat).
Proof.
  eexists. split; [reflexivity|].
  apply (counts_track_owners bind_copy_destroy init 2).
  - exact counts_ok_init.
  - intros j s' Hj. apply within_int_size.
    destruct j as [|[|[|j]]]; simpl in Hj; rewrite ?take_nil in Hj;
      vm_compute in Hj; injection Hj as <-; vm_compute; discriminate.
  - reflexivity.
Defined.

(** ** One ownership group *)

Lemma copies_cons src i ids st :
  copies src (i :: ids) st = ctor_copy i src st ≫= copies src ids.
Proof. reflexivity. Qed.

Lemma dtors_cons i ids st :
  dtors (i :: ids) st = dtor i st ≫= dtors ids.
Proof. reflexivity. Qed.

Lemma dtors_app l1 : ∀ l2 st,
  dtors (l1 ++ l2) st = dtors l1 st ≫= dtors l2.
Proof.
  induction l1 as [|i l1 IH]; intros l2 st; [done|].
  rewrite <-app_comm_cons, !dtors_cons.
  destruct (dtor i st) as [st1|]; simpl; [apply IH|done].
Qed.

(** Copies of a handle [h] that owns the cell [c]: the new handles have the
    fields of [h], the counter has been incremented once for each, all other
    cells and the trace are as before. *)
Lemma copies_spec src h c : ∀ ids st n,
  count_ h = Some c →
  NoDup ids →
  (∀ i, i ∈ ids → handles st !! i = None) →
  handles st !! src = Some h →
  cells st !! c = Some (wrap n) →
  ∃ st',
    copies src ids st = Some st' ∧
    (∀ k, handles st' !! k = if decide (k ∈ ids) then Some h else handles st !! k) ∧
    cells st' = <[c := wrap (n + Z.of_nat (length ids))]> (cells st) ∧
    trace st' = trace st ∧
    refs c (handles st') = (length ids + refs c (handles st))%nat.
Proof.
  intros ids. induction ids as [|i ids IH]; intros st n Hc Hnd Hfresh Hsrc Hcell.
  - exists st. split; [done|]. split; [done|]. simpl.
    rewrite Z.add_0_r. by rewrite insert_id.
  - apply NoDup_cons in Hnd as [Hi Hnd].
    assert (Hfi : handles st !! i = None) by (apply Hfresh; left).
    rewrite copies_cons. unfold ctor_copy, fresh_object, acquire.
    rewrite Hfi. simpl. rewrite Hsrc. simpl. rewrite SharedPtr_eta, Hc, Hcell. simpl.
    assert (Hne : i ≠ src) by congruence.
    edestruct (IH (mkState (<[i := h]> (handles st))
                     (<[c := wrap (wrap n + 1)]> (cells st)) (trace st)) (n + 1))
      as (st' & E & Hh & Hcs & Htr & Hrefs); [done|done| | | |].
    + intros j Hj. simpl. rewrite lookup_insert_ne by congruence.
      apply Hfresh. by right.
    + simpl. by rewrite lookup_insert_ne.
    + simpl. by rewrite lookup_insert_eq, wrap_succ.
    + exists st'. split; [done|]. simpl in *. split; [|split; [|split]].
      * intros k. rewrite Hh. destruct (decide (k = i)) as [->|Hk].
        -- rewrite (decide_True (P := i ∈ i :: ids)) by left.
           case_decide; [done|]. by rewrite lookup_insert_eq.
        -- rewrite lookup_insert_ne by done.
           case_decide as H1; case_decide as H2; try done.
           ++ exfalso. apply H2. by right.
           ++ exfalso. apply elem_of_cons in H2 as [?|?]; done.
      * rewrite Hcs, insert_insert_eq. do 2 f_equal. lia.
      * done.
      * rewrite Hrefs, refs_insert_fresh by done. unfold owns.
        rewrite decide_True by done. lia.
Qed.

(** Destructions that leave an owner behind: nothing but the decrements
    happens.  [m], the number of owners of [c], may be as large as 2^32. *)
Lemma dtors_not_last h c : ∀ l st (m : nat),
  count_ h = Some c →
  NoDup l →
  (∀ i, i ∈ l → handles st !! i = Some h) →
  (length l < m)%nat →
  Z.of_nat m ≤ 2 ^ 32 →
  cells st !! c = Some (wrap (Z.of_nat m)) →
  ∃ st',
    dtors l st = Some st' ∧
    (∀ k, handles st' !! k = if decide (k ∈ l) then None else handles st !! k) ∧
    cells st' = <[c := wrap (Z.of_nat (m - length l))]> (cells st) ∧
    trace st' = trace st.
Proof.
  intros l. induction l as [|i l IH]; intros st m Hc Hnd Hall Hlen Hm Hcell.
  - exists st. split; [done|]. split; [done|]. simpl.
    rewrite Nat.sub_0_r. by rewrite insert_id.
  - apply NoDup_cons in Hnd as [Hi Hnd]. simpl in Hlen.
    assert (Hhi : handles st !! i = Some h) by (apply Hall; left).
    rewrite dtors_cons. unfold dtor, release.
    rewrite Hhi. simpl. rewrite Hc, Hcell. simpl.
    rewrite decide_False; [|intros H1; apply wrap_eq_1 in H1; lia]. simpl.
    edestruct (IH (mkState (delete i (handles st))
                     (<[c := wrap (wrap (Z.of_nat m) - 1)]> (cells st)) (trace st))
                 (m - 1)%nat)
      as (st' & E & Hh & Hcs & Htr); [done|done| | | | |].
    + intros j Hj. simpl. rewrite lookup_delete_ne by congruence.
      apply Hall. by right.
    + lia.
    + lia.
    + simpl. rewrite lookup_insert_eq, wrap_pred. do 2 f_equal. lia.
    + exists st'. split; [done|]. simpl in *. split; [|split].
      * intros k. rewrite Hh. destruct (decide (k = i)) as [->|Hk].
        -- rewrite (decide_True (P := i ∈ i :: l)) by left.
           case_decide; [done|]. by rewrite lookup_delete_eq.
        -- rewrite lookup_delete_ne by done.
           case_decide as H1; case_decide as H2; try done.
           ++ exfalso. apply H2. by right.
           ++ exfalso. apply elem_of_cons in H2 as [?|?]; done.
      * rewrite Hcs, insert_insert_eq. do 3 f_equal. lia.
      * done.
Qed.

(** The destruction of the only owner. *)
Lemma dtor_last this st h c :
  handles st !! this = Some h → count_ h = Some c → cells st !! c = Some 1 →
  dtor this st =
  Some (mkState (delete this (handles st)) (delete c (cells st))
          (trace st ++ [EvCleanup (deleter_ h) (ptr_ h); EvDelete c])).
Proof.
  intros Hh Hc Hcell. unfold dtor, release. rewrite Hh. simpl.
  rewrite Hc, Hcell. simpl. by rewrite delete_insert_eq.
Qed.

Lemma wrap_1 : wrap 1 = 1.
Proof. reflexivity. Qed.

(** The state of a group after its construction: [this] bound in [st0] and
    copied to [ids]. *)
Lemma group_built st0 this ids ptr d :
  NoDup (this :: ids) →
  (∀ i, i ∈ this :: ids → handles st0 !! i = None) →
  ∃ st1 st,
    ctor_bound this ptr d st0 = Some st1 ∧
    copies this ids st1 = Some st ∧
    (∀ i, i ∈ this :: ids →
          handles st !! i = Some (mkSharedPtr ptr (Some (new_cell st0)) d)) ∧
    cells st !! new_cell st0 = Some (wrap (Z.of_nat (S (length ids)))) ∧
    refs (new_cell st0) (handles st)
      = (length ids + S (refs (new_cell st0) (handles st0)))%nat ∧
    trace st = trace st0 ++ [EvNew (new_cell st0)].
Proof.
  intros [Hthis Hnd]%NoDup_cons Hfresh.
  set (c := new_cell st0). set (h := mkSharedPtr ptr (Some c) d).
  assert (Hf0 : handles st0 !! this = None) by (apply Hfresh; left).
  unfold ctor_bound, fresh_object. rewrite Hf0. simpl.
  eexists. fold c h.
  edestruct (copies_spec this h c ids
               (mkState (<[this := h]> (handles st0)) (<[c := 1]> (cells st0))
                  (trace st0 ++ [EvNew c])) 1)
    as (st & E & Hh & Hcs & Htr & Hrefs); [done|done| | | |].
  - intros i Hi. simpl. rewrite lookup_insert_ne by congruence.
    apply Hfresh. by right.
  - simpl. by rewrite lookup_insert_eq.
  - simpl. by rewrite lookup_insert_eq.
  - exists st. split; [done|]. split; [done|]. simpl in *. repeat split.
    + intros i Hi. rewrite Hh. case_decide as Hin; [done|].
      apply elem_of_cons in Hi as [->|Hi]; [|done]. by rewrite lookup_insert_eq.
    + rewrite Hcs, lookup_insert_eq. do 2 f_equal. lia.
    + rewrite Hrefs, refs_insert_fresh by done. unfold owns. simpl.
      by rewrite decide_True.
    + done.
Qed.

(** C1, as amended.  With at most 2^32 - 1 copies, so that the owners of the
    cell are at most 2^32: binding a handle, copying it [N] times and
    destroying the [N + 1] handles in any order runs to its end.  Counted
    from the state before the construction, the trace gains the allocation
    of the counter cell and nothing else until the last destruction: no
    cleanup routine is called and nothing is deallocated by the
    construction, by any of the copies, or by any of the first [N]
    destructions.  The last destruction calls the cleanup routine of the
    group once, on the resource, and then deallocates the counter cell; the
    whole scenario adds exactly these three events. *)
Theorem last_owner_cleans_up N :
  Z.of_nat N < 2 ^ 32 → cleanup_by_last_only N.
Proof.
  intros HN st0 this ids ptr d order Hlen Hnd Hfresh Hperm.
  destruct (group_built st0 this ids ptr d Hnd Hfresh)
    as (st1 & st & E1 & E & Hh & Hcell & _ & Htr).
  exists st1, st. split; [done|].
  split.
  { unfold ctor_bound in E1.
    destruct (fresh_object this st0); by simplify_eq/=. }
  split; [done|].
  split.
  { intros k Hk.
    destruct (group_built st0 this (take k ids) ptr d) as (st1' & s & E1' & Es & _ & _ & _ & Hts).
    - apply NoDup_cons in Hnd as [Hthis Hnd]. apply NoDup_cons. split.
      + intros Hin. apply Hthis. by eapply subseteq_take.
      + eapply sublist_NoDup; [done|apply sublist_take].
    - intros i [->|Hi]%elem_of_cons; apply Hfresh; [left|right].
      by eapply subseteq_take.
    - rewrite E1 in E1'. injection E1' as <-. by exists s. }
  split; [done|].
  set (c := new_cell st0) in *. set (h := mkSharedPtr ptr (Some c) d) in *.
  rewrite Hlen in Hcell.
  assert (Hall : ∀ i, i ∈ order → handles st !! i = Some h).
  { intros i Hi. apply Hh. by rewrite <-Hperm. }
  assert (Hndo : NoDup order) by by rewrite Hperm.
  assert (Hlo : length order = S N) by (rewrite Hperm; simpl; lia).
  split.
  - intros k Hk.
    edestruct (dtors_not_last h c (take k order) st (S N))
      as (s & Es & _ & _ & Hts); [done| | | | |done|exists s; by rewrite Hts].
    + eapply sublist_NoDup; [done|apply sublist_take].
    + intros i Hi. apply Hall. by eapply subseteq_take.
    + rewrite length_take. lia.
    + lia.
  - destruct (exists_last (l := order)) as (l & x & ->).
    { intros ->. discriminate Hlo. }
    rewrite length_app in Hlo. simpl in Hlo.
    apply NoDup_app in Hndo as (Hndl & Hx & _).
    edestruct (dtors_not_last h c l st (S N))
      as (s1 & Es & Hh1 & Hcs1 & Hts); [done|done| | | |done|].
    + intros i Hi. apply Hall. apply elem_of_app. by left.
    + lia.
    + lia.
    + rewrite dtors_app, Es. simpl. rewrite dtors_cons.
      rewrite (dtor_last x s1 h c); [| |done|].
      * simpl. eexists. split; [reflexivity|]. simpl.
        rewrite Hts, Htr, <-app_assoc. split; [done|]. by rewrite lookup_delete_eq.
      * rewrite Hh1. rewrite decide_False.
        -- apply Hall. apply elem_of_app. right. by left.
        -- intros Hin. apply (Hx x Hin). by left.
      * rewrite Hcs1, lookup_insert_eq.
        replace (S N - length l)%nat with 1%nat by lia. done.
Qed.

(** When the number of copies reaches 2^32 the counter has wrapped around to
    1, and the first destruction already calls the cleanup routine. *)
Lemma wrapped_count_cleans_up_early N :
  Z.of_nat N = 2 ^ 32 → ¬ cleanup_by_last_only N.
Proof.
  intros HN Hclaim.
  assert (Hnd : NoDup (0%nat :: seq 1 N)).
  { apply NoDup_cons. split; [|apply NoDup_seq].
    intros Hin%elem_of_seq. lia. }
  assert (Hfresh : ∀ i, i ∈ 0%nat :: seq 1 N → handles init !! i = None)
    by (intros i _; apply lookup_empty).
  destruct (Hclaim init 0%nat (seq 1 N) (Some 5%positive) defaultDeleter
              (0%nat :: seq 1 N))
    as (st1 & st & E1 & _ & E & _ & _ & Hpre & _);
    [by rewrite length_seq|done|done|done|].
  destruct (group_built init 0 (seq 1 N) (Some 5%positive) defaultDeleter Hnd Hfresh)
    as (st1' & st' & E1' & E' & Hh & Hcell & _ & Htr).
  rewrite E1 in E1'. injection E1' as <-. rewrite E in E'. injection E' as <-.
  destruct (Hpre 1%nat) as (s & Es & Hts); [lia|].
  change (take 1 (0%nat :: seq 1 N)) with [0%nat] in Es.
  rewrite dtors_cons in Es.
  rewrite (dtor_last 0 st
             (mkSharedPtr (Some 5%positive) (Some (new_cell init)) defaultDeleter)
             (new_cell init)) in Es; [|apply Hh; left|done|].
  - simpl in Es. injection Es as <-. simpl in Hts. rewrite Htr in Hts.
    apply (f_equal length) in Hts. rewrite !length_app in Hts. simpl in Hts. lia.
  - rewrite Hcell, length_seq. f_equal.
    replace (Z.of_nat (S N)) with (1 + 2 ^ 32) by lia. reflexivity.
Qed.

(** C1 fails as stated: [N] ranges over all numbers, and with 2^32 copies
    the cleanup routine is called by the first destruction. *)
Lemma cleanup_early_after_2_32_copies :
  ¬ cleanup_by_last_only (Z.to_nat (2 ^ 32)).
Proof.
  apply wrapped_count_cleans_up_early.
  rewrite Z2Nat.id; [reflexivity|]. by apply Z.pow_nonneg.
Qed.

Lemma last_owner_cleans_up_witness :
  ∃ st1 st,
    ctor_bound 0 (Some 5%positive) defaultDeleter init = Some st1 ∧
    trace st1 = trace init ++ [EvNew (new_cell init)] ∧
    copies 0 [1; 2]%nat st1 = Some st ∧
    (∀ k, (k ≤ 2)%nat →
          ∃ s, copies 0 (take k [1; 2]%nat) st1 = Some s ∧
               trace s = trace init ++ [EvNew (new_cell init)]) ∧
    trace st = trace init ++ [EvNew (new_cell init)] ∧
    (∀ k, (k ≤ 2)%nat →
          ∃ s, dtors (take k [2; 0; 1]%nat) st = Some s ∧
               trace s = trace init ++ [EvNew (new_cell init)]) ∧
    (∃ s, dtors [2; 0; 1]%nat st = Some s ∧
          trace s = trace init ++ [EvNew (new_cell init);
                                   EvCleanup defaultDeleter (Some 5%positive);
                                   EvDelete (new_cell init)] ∧
          cells s !! new_cell init = None).
Proof.
  apply (last_owner_cleans_up 2).
  - reflexivity.
  - reflexivity.
  - apply NoDup_cons. split; [|apply NoDup_cons; split; [|apply NoDup_singleton]].
    + intros [H|H]%elem_of_cons; [discriminate H|].
      apply list_elem_of_singleton in H. discriminate H.
    + intros H%list_elem_of_singleton. discriminate H.
  - intros i _. apply lookup_empty.
  - apply (Permutation_cons_append [0; 1]%nat 2%nat).
Defined.

(** With [INT_MAX] copies the cell has 2^31 owners and holds [INT_MIN]. *)
Lemma counter_wraps_negative N :
  Z.of_nat N = INT_MAX →
  ∃ s v,
    run (OpBound 0 (Some 5%positive) defaultDeleter
           :: ((λ this, OpCopy this 0) <$> seq 1 N)) init = Some s ∧
    handles s !! 0%nat
      = Some (mkSharedPtr (Some 5%positive) (Some 1%positive) defaultDeleter) ∧
    cells s !! 1%positive = Some v ∧
    v < 0 ∧
    v ≠ Z.of_nat (refs 1%positive (handles s)).
Proof.
  intros HN.
  assert (Hnd : NoDup (0%nat :: seq 1 N)).
  { apply NoDup_cons. split; [|apply NoDup_seq].
    intros Hin%elem_of_seq. lia. }
  assert (Hfresh : ∀ i, i ∈ 0%nat :: seq 1 N → handles init !! i = None)
    by (intros i _; apply lookup_empty).
  destruct (group_built init 0 (seq 1 N) (Some 5%positive) defaultDeleter Hnd Hfresh)
    as (st1 & st & E1 & E & Hh & Hcell & Hrefs & _).
  change (new_cell init) with 1%positive in *.
  exists st, INT_MIN. split; [|split; [|split; [|split]]].
  - change (run (?o :: ?os) init) with (step o init ≫= run os).
    simpl step. rewrite E1. exact E.
  - apply Hh. left.
  - rewrite Hcell, length_seq. f_equal.
    replace (Z.of_nat (S N)) with (INT_MAX + 1) by lia. reflexivity.
  - reflexivity.
  - rewrite Hrefs. unfold INT_MIN. lia.
Qed.

(** C2 fails as stated: after one bound construction and [INT_MAX] copy
    constructions a live handle refers to a cell whose value is negative and
    is not the number of its owners. *)
Lemma count_negative_with_2_31_owners :
  ∃ s v,
    run (OpBound 0 (Some 5%positive) defaultDeleter
           :: ((λ this, OpCopy this 0) <$> seq 1 (Z.to_nat INT_MAX))) init = Some s ∧
    handles s !! 0%nat
      = Some (mkSharedPtr (Some 5%positive) (Some 1%positive) defaultDeleter) ∧
    cells s !! 1%positive = Some v ∧
    v < 0 ∧
    v ≠ Z.of_nat (refs 1%positive (handles s)).
Proof.
  apply counter_wraps_negative. by rewrite Z2Nat.id.
Qed.

End SharedSpec.

(** * Properties of the exclusive handle *)

Module UniqueSpec.
Import Unique.

Lemma UniquePtr_eta h : mkUniquePtr (ptr_ h) (deleter_ h) = h.
Proof. by destruct h. Qed.

(** C5, as amended.  Move construction leaves the source empty and gives the
    target the pointer and cleanup routine of the source, whatever a move
    leaves in the cleanup routine of the source.  Move assignment
    exchanges the contents of the two handles: the target owns what the
    source owned, and the source holds what the target held, so that the
    source is empty afterwards exactly when the target was empty before.
    Neither calls a cleanup routine. *)
Theorem move_transfers (moved_from : deleter → deleter) this other st o :
  handles st !! other = Some o →
  (handles st !! this = None →
   ∃ st',
     ctor_move moved_from this other st = Some st' ∧
     handles st' !! this = Some o ∧
     get other st' = Some None ∧
     to_bool other st' = Some false ∧
     trace st' = trace st) ∧
  (∀ t, handles st !! this = Some t →
   ∃ st',
     assign_move this other st = Some st' ∧
     handles st' !! this = Some o ∧
     handles st' !! other = Some t ∧
     to_bool other st' = to_bool this st ∧
     trace st' = trace st).
Proof.
  intros Ho. split.
  - intros Hf. unfold ctor_move, fresh_object. rewrite Hf. simpl. rewrite Ho. simpl.
    assert (Hne : other ≠ this) by congruence.
    eexists. split; [done|]. unfold get, to_bool. simpl.
    rewrite lookup_insert_eq, lookup_insert_ne, lookup_insert_eq by done.
    by rewrite UniquePtr_eta.
  - intros t Ht. unfold assign_move, swap. rewrite Ht. simpl. rewrite Ho. simpl.
    eexists. split; [done|]. unfold to_bool. simpl.
    rewrite !UniquePtr_eta, Ht, lookup_insert_eq. simpl.
    destruct (decide (other = this)) as [->|Hne].
    + rewrite lookup_insert_eq. by simplify_eq.
    + by rewrite lookup_insert_ne, lookup_insert_eq.
Qed.

(** C5 fails as stated: move-assigning into a handle that owns a resource
    leaves the source owning that resource. *)
Lemma move_assign_source_not_empty :
  (st' ← assign_move 1 0 two_owners;
   Some (to_bool 0 st', get 0 st', get 1 st', trace st'))
  = Some (Some true, Some (Some 6%positive), Some (Some 5%positive), []).
Proof. vm_compute. reflexivity. Qed.

Lemma move_transfers_witness :
  (∃ st',
     ctor_move (λ _, customDeleter 0) 2 0 two_owners = Some st' ∧
     handles st' !! 2%nat = Some (mkUniquePtr (Some 5%positive) defaultDeleter) ∧
     get 0 st' = Some None ∧
     to_bool 0 st' = Some false ∧
     trace st' = trace two_owners) ∧
  (∃ st',
     assign_move 1 0 two_owners = Some st' ∧
     handles st' !! 1%nat = Some (mkUniquePtr (Some 5%positive) defaultDeleter) ∧
     handles st' !! 0%nat = Some (mkUniquePtr (Some 6%positive) (customDeleter 3)) ∧
     to_bool 0 st' = to_bool 1 two_owners ∧
     trace st' = trace two_owners).
Proof.
  split.
  - destruct (move_transfers (λ _, customDeleter 0) 2 0 two_owners
                (mkUniquePtr (Some 5%positive) defaultDeleter) eq_refl) as [H _].
    apply H. reflexivity.
  - destruct (move_transfers id 1 0 two_owners
                (mkUniquePtr (Some 5%positive) defaultDeleter) eq_refl) as [_ H].
    apply (H (mkUniquePtr (Some 6%positive) (customDeleter 3))). reflexivity.
Defined.

(** C8.  [release()] on a handle that owns [r] returns [r] and leaves the
    handle empty; no cleanup routine is called by [release()], nor by the
    destruction of the handle afterwards. *)
Theorem release_gives_up this st h r :
  handles st !! this = Some h →
  ptr_ h = Some r →
  ∃ st' st'',
    release this st = Some (Some r, st') ∧
    get this st' = Some None ∧
    to_bool this st' = Some false ∧
    trace st' = trace st ∧
    dtor this st' = Some st'' ∧
    handles st'' !! this = None ∧
    trace st'' = trace st.
Proof.
  intros Hh Hr. unfold release. rewrite Hh. simpl. rewrite Hr.
  eexists _, _. split; [done|].
  unfold get, to_bool, dtor, reset. simpl.
  rewrite !lookup_insert_eq. simpl. repeat split. simpl.
  by rewrite lookup_delete_eq.
Qed.

Lemma release_gives_up_witness :
  ∃ st' st'',
    release 0 two_owners = Some (Some 5%positive, st') ∧
    get 0 st' = Some None ∧
    to_bool 0 st' = Some false ∧
    trace st' = trace two_owners ∧
    dtor 0 st' = Some st'' ∧
    handles st'' !! 0%nat = None ∧
    trace st'' = trace two_owners.
Proof.
  apply (release_gives_up 0 two_owners (mkUniquePtr (Some 5%positive) defaultDeleter));
    reflexivity.
Defined.

End UniqueSpec.

(** * More properties of the shared handle *)

Module SharedExtSpec.
Import Shared SharedExt SharedSpec.

Lemma state_eta st : mkState (handles st) (cells st) (trace st) = st.
Proof. by destruct st. Qed.

(** X1.  Binding a handle to any pointer and destroying it at once calls the
    cleanup routine once on that pointer, between the allocation and the
    deallocation of the counter cell, and leaves the handles and the counter
    cells as they were. *)
Theorem bind_destroy_round_trip this ptr d st :
  handles st !! this = None →
  ∃ st1 st2,
    ctor_bound this ptr d st = Some st1 ∧
    dtor this st1 = Some st2 ∧
    handles st2 = handles st ∧
    cells st2 = cells st ∧
    trace st2 = trace st ++ [EvNew (new_cell st); EvCleanup d ptr;
                             EvDelete (new_cell st)].
Proof.
  intros Hf. unfold ctor_bound, fresh_object. rewrite Hf. simpl.
  eexists _, _. split; [done|]. unfold dtor, release. simpl.
  rewrite lookup_insert_eq. simpl. rewrite lookup_insert_eq. simpl.
  split; [done|]. simpl. split; [by apply delete_insert_id|]. split.
  - rewrite delete_insert_eq. apply delete_insert_id, new_cell_fresh.
  - by rewrite <-app_assoc.
Qed.

Lemma bind_destroy_round_trip_witness :
  ∃ st1 st2,
    ctor_bound 3 (Some 9%positive) (customDeleter 1) two_groups = Some st1 ∧
    dtor 3 st1 = Some st2 ∧
    handles st2 = handles two_groups ∧
    cells st2 = cells two_groups ∧
    trace st2 = trace two_groups ++
                [EvNew (new_cell two_groups); EvCleanup (customDeleter 1) (Some 9%positive);
                 EvDelete (new_cell two_groups)].
Proof.
  apply (bind_destroy_round_trip 3 (Some 9%positive) (customDeleter 1) two_groups).
  reflexivity.
Defined.

(** X2.  Copy construction from a handle whose counter holds [v], below
    [INT_MAX]: the copy and the original have the same fields, every handle
    of the group then reports [use_count() = v + 1], handles and cells
    outside the group and the trace are unchanged. *)
Theorem copy_shares this other st o c v :
  handles st !! this = None →
  handles st !! other = Some o →
  count_ o = Some c →
  cells st !! c = Some v →
  INT_MIN ≤ v < INT_MAX →
  ∃ st',
    ctor_copy this other st = Some st' ∧
    handles st' !! this = Some o ∧
    get this st' = get other st' ∧
    (∀ k, k ≠ this → handles st' !! k = handles st !! k) ∧
    (∀ k hk, handles st' !! k = Some hk → count_ hk = Some c →
             use_count k st' = Some (v + 1)) ∧
    (∀ c', c' ≠ c → cells st' !! c' = cells st !! c') ∧
    trace st' = trace st.
Proof.
  intros Hf Ho Hc Hv Hr. unfold ctor_copy, fresh_object, acquire.
  rewrite Hf. simpl. rewrite Ho. simpl. rewrite SharedPtr_eta, Hc, Hv. simpl.
  assert (Hne : other ≠ this) by congruence.
  eexists. split; [done|]. simpl. unfold get, use_count. simpl.
  rewrite lookup_insert_eq, lookup_insert_ne, Ho by done. simpl.
  repeat split.
  - intros k Hk. by rewrite lookup_insert_ne.
  - intros k hk Hk Hck. rewrite Hk. simpl. rewrite Hck, lookup_insert_eq.
    f_equal. apply wrap_small. unfold INT_MIN, INT_MAX in *. lia.
  - intros c' Hc'. by rewrite lookup_insert_ne.
Qed.

Lemma copy_shares_witness :
  ∃ st',
    ctor_copy 3 0 two_groups = Some st' ∧
    handles st' !! 3%nat
      = Some (mkSharedPtr (Some 5%positive) (Some 1%positive) defaultDeleter) ∧
    get 3 st' = get 0 st' ∧
    (∀ k, k ≠ 3%nat → handles st' !! k = handles two_groups !! k) ∧
    (∀ k hk, handles st' !! k = Some hk → count_ hk = Some 1%positive →
             use_count k st' = Some (2 + 1)) ∧
    (∀ c', c' ≠ 1%positive → cells st' !! c' = cells two_groups !! c') ∧
    trace st' = trace two_groups.
Proof.
  apply (copy_shares 3 0 two_groups
           (mkSharedPtr (Some 5%positive) (Some 1%positive) defaultDeleter)
           1%positive 2); try reflexivity.
  split; [discriminate|reflexivity].
Defined.

(** X3.  Copy assignment between two distinct handles of one group (the
    cell holds a count other than 1): the release and the acquire cancel, no
    counter changes, nothing is cleaned up or deallocated, and the
    destination has the fields of the source. *)
Theorem assign_within_group this other st t o c v :
  this ≠ other →
  handles st !! this = Some t →
  handles st !! other = Some o →
  count_ t = Some c →
  count_ o = Some c →
  cells st !! c = Some v →
  v ≠ 1 →
  INT_MIN ≤ v ≤ INT_MAX →
  assign this other st
  = Some (mkState (<[this := o]> (handles st)) (cells st) (trace st)).
Proof.
  intros Hne Ht Ho Hct Hco Hv Hv1 Hr. unfold assign. rewrite Ht, Ho. simpl.
  rewrite decide_True by done. unfold release. rewrite Ht. simpl.
  rewrite Hct, Hv. simpl. rewrite decide_False by done. simpl.
  unfold acquire. simpl. rewrite Ho. simpl. rewrite SharedPtr_eta, Hco.
  rewrite lookup_insert_eq. simpl. do 2 f_equal.
  rewrite insert_insert_eq. apply insert_id. rewrite Hv. f_equal.
  rewrite wrap_succ. replace (v - 1 + 1) with v by lia. symmetry. by apply wrap_small.
Qed.

Lemma assign_within_group_witness :
  assign 0 1 two_groups
  = Some (mkState (<[0%nat := mkSharedPtr (Some 5%positive) (Some 1%positive)
                                 defaultDeleter]> (handles two_groups))
            (cells two_groups) (trace two_groups)).
Proof.
  apply (assign_within_group 0 1 two_groups
           (mkSharedPtr (Some 5%positive) (Some 1%positive) defaultDeleter)
           (mkSharedPtr (Some 5%positive) (Some 1%positive) defaultDeleter)
           1%positive 2); try reflexivity; try discriminate.
  split; discriminate.
Defined.

(** X4.  [reset] on the sole owner of a cell calls the stored cleanup routine
    at once, deallocates the cell, and then holds the new pointer with a
    newly allocated cell whose count is 1. *)
Theorem reset_sole_owner this ptr d st h c :
  handles st !! this = Some h →
  count_ h = Some c →
  cells st !! c = Some 1 →
  ∃ st' c',
    reset this ptr d st = Some st' ∧
    trace st' = trace st ++ [EvCleanup (deleter_ h) (ptr_ h); EvDelete c; EvNew c'] ∧
    handles st' !! this = Some (mkSharedPtr ptr (Some c') d) ∧
    get this st' = Some ptr ∧
    use_count this st' = Some 1 ∧
    (∀ k, k ≠ this → handles st' !! k = handles st !! k).
Proof.
  intros Hh Hc Hv. unfold reset, release. rewrite Hh. simpl.
  rewrite Hc, Hv. simpl. eexists _, _. split; [done|].
  unfold get, use_count. simpl. rewrite !lookup_insert_eq. simpl.
  rewrite lookup_insert_eq. rewrite <-app_assoc. repeat split.
  intros k Hk. by rewrite lookup_insert_ne.
Qed.

Lemma reset_sole_owner_witness :
  ∃ st' c',
    reset 2 (Some 8%positive) defaultDeleter two_groups = Some st' ∧
    trace st' = trace two_groups ++
                [EvCleanup (customDeleter 4) (Some 6%positive); EvDelete 2; EvNew c'] ∧
    handles st' !! 2%nat = Some (mkSharedPtr (Some 8%positive) (Some c') defaultDeleter) ∧
    get 2 st' = Some (Some 8%positive) ∧
    use_count 2 st' = Some 1 ∧
    (∀ k, k ≠ 2%nat → handles st' !! k = handles two_groups !! k).
Proof.
  apply (reset_sole_owner 2 (Some 8%positive) defaultDeleter two_groups
           (mkSharedPtr (Some 6%positive) (Some 2%positive) (customDeleter 4))
           2%positive); reflexivity.
Defined.

(** X5.  [reset] on one of several owners (the cell holds [v], not 1): no
    cleanup routine is called and nothing is deallocated; the handle gets a
    cell of its own, different from the old one, with count 1; the other
    owners keep their fields and report [use_count() = v - 1]. *)
Theorem reset_leaves_other_owners this ptr d st h c v :
  handles st !! this = Some h →
  count_ h = Some c →
  cells st !! c = Some v →
  v ≠ 1 →
  INT_MIN < v ≤ INT_MAX →
  ∃ st' c',
    reset this ptr d st = Some st' ∧
    c' ≠ c ∧
    handles st' !! this = Some (mkSharedPtr ptr (Some c') d) ∧
    use_count this st' = Some 1 ∧
    trace st' = trace st ++ [EvNew c'] ∧
    (∀ k, k ≠ this → handles st' !! k = handles st !! k) ∧
    (∀ k hk, k ≠ this → handles st !! k = Some hk → count_ hk = Some c →
             use_count k st' = Some (v - 1)).
Proof.
  intros Hh Hc Hv Hv1 Hr. unfold reset, release. rewrite Hh. simpl.
  rewrite Hc, Hv. simpl. rewrite decide_False by done. simpl.
  set (st1 := mkState (handles st) (<[c := wrap (v - 1)]> (cells st)) (trace st)).
  assert (Hne : new_cell st1 ≠ c).
  { intros E. pose proof (new_cell_fresh st1) as Hf. rewrite E in Hf.
    simpl in Hf. by rewrite lookup_insert_eq in Hf. }
  exists (mkState (<[this := mkSharedPtr ptr (Some (new_cell st1)) d]> (handles st))
            (<[new_cell st1 := 1]> (<[c := wrap (v - 1)]> (cells st)))
            (trace st ++ [EvNew (new_cell st1)])), (new_cell st1).
  split; [done|]. split; [done|].
  unfold use_count. simpl. rewrite !lookup_insert_eq. simpl.
  rewrite lookup_insert_eq. repeat split.
  - intros k Hk. by rewrite lookup_insert_ne.
  - intros k hk Hk Hhk Hck. rewrite lookup_insert_ne, Hhk by done. simpl.
    rewrite Hck, lookup_insert_ne, lookup_insert_eq by done.
    f_equal. apply wrap_small. unfold INT_MIN, INT_MAX in *. lia.
Qed.

Lemma reset_leaves_other_owners_witness :
  ∃ st' c',
    reset 0 (Some 8%positive) defaultDeleter two_groups = Some st' ∧
    c' ≠ 1%positive ∧
    handles st' !! 0%nat = Some (mkSharedPtr (Some 8%positive) (Some c') defaultDeleter) ∧
    use_count 0 st' = Some 1 ∧
    trace st' = trace two_groups ++ [EvNew c'] ∧
    (∀ k, k ≠ 0%nat → handles st' !! k = handles two_groups !! k) ∧
    (∀ k hk, k ≠ 0%nat → handles two_groups !! k = Some hk →
             count_ hk = Some 1%positive → use_count k st' = Some (2 - 1)).
Proof.
  apply (reset_leaves_other_owners 0 (Some 8%positive) defaultDeleter two_groups
           (mkSharedPtr (Some 5%positive) (Some 1%positive) defaultDeleter)
           1%positive 2); try reflexivity; try discriminate.
  split; [reflexivity|discriminate].
Defined.

(** X6.  [swap] is symmetric in its two handles, and swapping twice gives
    back the state one started from; the member function and the free
    function [swap(a, b)] agree. *)
Theorem swap_symmetric_involutive a b st :
  is_Some (handles st !! a) →
  is_Some (handles st !! b) →
  swap a b st = swap b a st ∧
  swap a b st ≫= swap a b = Some st ∧
  swap_free a b st ≫= swap_free b a = Some st.
Proof.
  intros [ha Ha] [hb Hb].
  assert (Hsym : ∀ x y hx hy st0,
             handles st0 !! x = Some hx → handles st0 !! y = Some hy →
             swap x y st0 = swap y x st0).
  { intros x y hx hy st0 Hx Hy. unfold swap. rewrite Hx, Hy. simpl.
    rewrite !SharedPtr_eta. do 2 f_equal.
    destruct (decide (x = y)) as [->|Hne]; [by simplify_eq|].
    by apply insert_insert_ne. }
  assert (E : swap a b st
              = Some (mkState (<[b := ha]> (<[a := hb]> (handles st)))
                        (cells st) (trace st))).
  { unfold swap. rewrite Ha, Hb. simpl. by rewrite !SharedPtr_eta. }
  assert (Ea : <[b := ha]> (<[a := hb]> (handles st)) !! a = Some hb).
  { destruct (decide (b = a)) as [->|Hne].
    - simplify_eq. by rewrite lookup_insert_eq.
    - by rewrite lookup_insert_ne, lookup_insert_eq. }
  assert (Htwice : swap a b st ≫= swap a b = Some st).
  { rewrite E. simpl. unfold swap. simpl.
    rewrite Ea, lookup_insert_eq. simpl. rewrite !SharedPtr_eta.
    transitivity (Some (mkState (handles st) (cells st) (trace st)));
      [|by rewrite state_eta].
    do 2 f_equal. apply map_eq. intros k.
    destruct (decide (k = b)) as [->|Hkb]; [by rewrite lookup_insert_eq|].
    rewrite lookup_insert_ne by done.
    destruct (decide (k = a)) as [->|Hka]; [by rewrite lookup_insert_eq|].
    by rewrite !lookup_insert_ne. }
  split; [by eapply Hsym|]. split; [done|].
  unfold swap_free. rewrite <-Htwice, E. simpl.
  eapply eq_sym, Hsym; simpl; [exact Ea|by rewrite lookup_insert_eq].
Qed.

Lemma swap_symmetric_involutive_witness :
  swap 0 2 two_groups = swap 2 0 two_groups ∧
  swap 0 2 two_groups ≫= swap 0 2 = Some two_groups ∧
  swap_free 0 2 two_groups ≫= swap_free 2 0 = Some two_groups.
Proof.
  apply swap_symmetric_involutive; eexists; reflexivity.
Defined.

(** ** Safety of single operations under the counter invariant *)

Lemma refs_delete_le c hs k : (refs c (delete k hs) ≤ refs c hs)%nat.
Proof.
  destruct (hs !! k) as [h|] eqn:E.
  - rewrite (refs_delete c hs k h E). lia.
  - by rewrite delete_id.
Qed.

Lemma refs_insert_le c hs k h : (refs c (<[k := h]> hs) ≤ S (refs c hs))%nat.
Proof.
  rewrite refs_insert_delete. pose proof (refs_delete_le c hs k).
  unfold owns. case_decide; lia.
Qed.

Lemma acquire_handles this other st st' :
  acquire this other st = Some st' →
  ∃ o, handles st !! other = Some o ∧ handles st' = <[this := o]> (handles st) ∧
       trace st' = trace st.
Proof.
  unfold acquire. intros H.
  destruct (handles st !! other) as [o|]; simplify_eq/=.
  rewrite SharedPtr_eta in H. exists o. split; [done|].
  destruct (count_ o) as [c|]; simplify_eq/=; [|done].
  destruct (cells st !! c); by simplify_eq/=.
Qed.

Lemma step_refs_le o st st' c :
  step o st = Some st' → (refs c (handles st') ≤ S (refs c (handles st)))%nat.
Proof.
  intros Hstep.
  destruct o as [this|this ptr d|this other|this other|this ptr d|this other|this];
    simpl in Hstep.
  - unfold ctor_empty in Hstep.
    destruct (fresh_object this st); simplify_eq/=. apply refs_insert_le.
  - unfold ctor_bound in Hstep.
    destruct (fresh_object this st); simplify_eq/=. apply refs_insert_le.
  - unfold ctor_copy in Hstep.
    destruct (fresh_object this st); simplify_eq/=.
    apply acquire_handles in Hstep as (o & _ & -> & _). apply refs_insert_le.
  - unfold assign in Hstep.
    destruct (handles st !! this); simplify_eq/=.
    destruct (handles st !! other); simplify_eq/=.
    case_decide; simplify_eq/=; [|lia].
    destruct (release this st) as [st1|] eqn:E1; simplify_eq/=.
    apply release_handles in E1.
    apply acquire_handles in Hstep as (o & _ & -> & _).
    rewrite E1. apply refs_insert_le.
  - unfold reset in Hstep.
    destruct (release this st) as [st1|] eqn:E1; simplify_eq/=.
    apply release_handles in E1. rewrite E1. apply refs_insert_le.
  - unfold swap in Hstep.
    destruct (handles st !! this) as [a|] eqn:Ea; simplify_eq/=.
    destruct (handles st !! other) as [b|] eqn:Eb; simplify_eq/=.
    rewrite !SharedPtr_eta, refs_swap by done. lia.
  - unfold dtor in Hstep.
    destruct (release this st) as [st1|] eqn:E1; simplify_eq/=.
    apply release_handles in E1. rewrite E1.
    pose proof (refs_delete_le c (handles st) this). lia.
Qed.

Lemma below_within st : below_int_max st → within_int st.
Proof. intros H c. specialize (H c). lia. Qed.

Lemma below_step_within o st st' :
  below_int_max st → step o st = Some st' → within_int st'.
Proof.
  intros Hb Hstep c. pose proof (step_refs_le o st st' c Hstep).
  specialize (Hb c). unfold INT_MAX in *. lia.
Qed.

(** What a release adds to the trace. *)
Lemma release_trace this st t st1 :
  counts_ok st → handles st !! this = Some t → release this st = Some st1 →
  trace st1 = trace st ++
    match count_ t with
    | Some c => if decide (refs c (handles st) = 1%nat)
                then [EvCleanup (deleter_ t) (ptr_ t); EvDelete c] else []
    | None => []
    end.
Proof.
  intros Hok Ht. unfold release. rewrite Ht. simpl.
  destruct (count_ t) as [c|] eqn:Ec.
  - pose proof (refs_owner c _ _ _ Ht Ec) as Hpos.
    rewrite (Hok c), (cell_of_pos _ Hpos). simpl.
    case_decide as H1; case_decide as H2; intros [= <-]; simpl;
      rewrite ?app_nil_r; try done; lia.
  - intros [= <-]. by rewrite app_nil_r.
Qed.

Lemma calm_release this st t st1 :
  counts_ok st → handles st !! this = Some t → ¬ last_owner this st →
  release this st = Some st1 → trace st1 = trace st.
Proof.
  intros Hok Ht Hlast E. rewrite (release_trace this st t st1 Hok Ht E).
  destruct (count_ t) as [c|] eqn:Ec; [|by rewrite app_nil_r].
  case_decide; [|by rewrite app_nil_r].
  exfalso. apply Hlast. by exists t, c.
Qed.

(** X8.  Operations that call no cleanup routine are safe whatever the
    resource is and whatever its cleanup routine would do.  In a state where
    every counter holds the number of its owners, below [INT_MAX], take an
    operation that is given live handles (a constructor: storage without a
    live handle) and that does not release the last owner of a cell.  It
    does not touch a deallocated cell: it is defined, afterwards every
    counter again holds the number of its owners, and all it adds to the
    trace is the allocation of a counter cell by a bound construction or a
    [reset]: no cleanup routine is called and no cell is deallocated. *)
Theorem calm_step_is_safe o st :
  counts_ok st → below_int_max st → ready o st → calm o st →
  ∃ st' evs,
    step o st = Some st' ∧
    counts_ok st' ∧
    trace st' = trace st ++ evs ∧
    ∀ e, e ∈ evs → ∃ c, e = EvNew c.
Proof.
  intros Hok Hb Hr Hcalm.
  destruct (step_defined o st Hok (below_within st Hb) Hr) as [st' E].
  assert (Hok' : counts_ok st').
  { eapply step_counts_ok; [done|by apply below_within|done|].
    by eapply below_step_within. }
  assert (Hnil : ∀ e : event, e ∈ @nil event → ∃ c, e = EvNew c)
    by (intros e He; by apply elem_of_nil in He).
  assert (Hnew : ∀ c0 (e : event), e ∈ [EvNew c0] → ∃ c, e = EvNew c)
    by (intros c0 e ->%list_elem_of_singleton; by exists c0).
  exists st'.
  destruct o as [this|this ptr d|this other|this other|this ptr d|this other|this];
    simpl in E, Hr.
  - exists []. split; [done|]. split; [done|]. split; [|done].
    unfold ctor_empty in E. destruct (fresh_object this st); simplify_eq/=.
    by rewrite app_nil_r.
  - exists [EvNew (new_cell st)]. split; [done|]. split; [done|].
    split; [|by apply Hnew].
    unfold ctor_bound in E. by destruct (fresh_object this st); simplify_eq/=.
  - exists []. split; [done|]. split; [done|]. split; [|done].
    unfold ctor_copy in E. destruct (fresh_object this st); simplify_eq/=.
    apply acquire_handles in E as (o & _ & _ & ->). by rewrite app_nil_r.
  - exists []. split; [done|]. split; [done|]. split; [|done].
    rewrite app_nil_r. destruct Hr as [[t Ht] _].
    unfold assign in E. rewrite Ht in E. simpl in E.
    destruct (handles st !! other); simpl in E; [|done].
    case_decide as Hne; [|by injection E as <-].
    destruct (release this st) as [st1|] eqn:E1; simpl in E; [|done].
    apply acquire_handles in E as (o & _ & _ & ->).
    apply (calm_release this st t st1); [done|done| |done].
    apply Hcalm. simpl. by rewrite decide_False.
  - destruct Hr as [t Ht]. pose proof E as E'. unfold reset in E.
    destruct (release this st) as [st1|] eqn:E1; simplify_eq/=.
    exists [EvNew (new_cell st1)]. split; [exact E'|]. split; [done|].
    split; [|by apply Hnew]. f_equal.
    apply (calm_release this st t st1); [done|done| |done]. by apply Hcalm.
  - exists []. split; [done|]. split; [done|]. split; [|done].
    unfold swap in E.
    destruct (handles st !! this); simplify_eq/=.
    destruct (handles st !! other); simplify_eq/=. by rewrite app_nil_r.
  - exists []. split; [done|]. split; [done|]. split; [|done].
    rewrite app_nil_r. destruct Hr as [t Ht]. unfold dtor in E.
    destruct (release this st) as [st1|] eqn:E1; simplify_eq/=.
    apply (calm_release this st t st1); [done|done| |done]. by apply Hcalm.
Qed.

Lemma refs_zero c hs :
  (∀ k h, hs !! k = Some h → count_ h ≠ Some c) → refs c hs = 0%nat.
Proof.
  intros H. unfold refs. apply map_size_empty_iff, map_empty_filter.
  intros k h Hk. simpl. by apply (H k h).
Qed.

Lemma counts_ok_two_groups : counts_ok two_groups.
Proof.
  intros c. simpl.
  destruct (decide (c = 1%positive)) as [->|H1]; [reflexivity|].
  destruct (decide (c = 2%positive)) as [->|H2]; [reflexivity|].
  rewrite lookup_insert_ne, lookup_singleton_ne by done.
  rewrite refs_zero; [done|]. intros k h Hk.
  apply lookup_insert_Some in Hk as [[_ <-]|[_ Hk]]; [simpl; congruence|].
  apply lookup_insert_Some in Hk as [[_ <-]|[_ Hk]]; [simpl; congruence|].
  apply lookup_singleton_Some in Hk as [_ <-]. simpl. congruence.
Qed.

Lemma below_int_max_size st :
  Z.of_nat (size (handles st)) < INT_MAX → below_int_max st.
Proof. intros H c. pose proof (refs_le_size c (handles st)). lia. Qed.

Lemma calm_step_is_safe_witness :
  ∃ st' evs,
    step (OpReset 1 (Some 9%positive) (customDeleter 2)) two_groups = Some st' ∧
    counts_ok st' ∧
    trace st' = trace two_groups ++ evs ∧
    ∀ e, e ∈ evs → ∃ c, e = EvNew c.
Proof.
  apply calm_step_is_safe.
  - exact counts_ok_two_groups.
  - apply below_int_max_size. reflexivity.
  - eexists. reflexivity.
  - intros this [= <-] (h & c & Hh & Hc & Hone).
    injection Hh as <-. injection Hc as <-. vm_compute in Hone. discriminate Hone.
Defined.

(** ** The handles of a group are copies of one another *)

Lemma refs_none c hs k h :
  refs c hs = 0%nat → hs !! k = Some h → count_ h ≠ Some c.
Proof.
  intros H0 Hk Hc. pose proof (refs_owner c hs k h Hk Hc). lia.
Qed.

Lemma coherent_sub st st' :
  (∀ k h, handles st' !! k = Some h → ∃ k', handles st !! k' = Some h) →
  coherent st → coherent st'.
Proof.
  intros Hsub Hcoh i j hi hj c Hi Hj.
  destruct (Hsub i hi Hi) as [i' Hi'], (Hsub j hj Hj) as [j' Hj'].
  by apply (Hcoh i' j').
Qed.

Lemma coherent_insert_copy st st' this other o :
  handles st !! other = Some o →
  handles st' = <[this := o]> (handles st) →
  coherent st → coherent st'.
Proof.
  intros Ho Hh. apply coherent_sub. intros k h. rewrite Hh.
  destruct (decide (k = this)) as [->|Hk].
  - rewrite lookup_insert_eq. intros [= <-]. by exists other.
  - rewrite lookup_insert_ne by done. by exists k.
Qed.

Lemma coherent_insert_fresh hs cs tr cs' tr' this h :
  (∀ c, count_ h = Some c → refs c (delete this hs) = 0%nat) →
  coherent (mkState hs cs tr) →
  coherent (mkState (<[this := h]> hs) cs' tr').
Proof.
  intros Hfresh Hcoh i j hi hj c. simpl.
  destruct (decide (i = this)) as [->|Hi], (decide (j = this)) as [->|Hj];
    rewrite ?lookup_insert_eq, ?lookup_insert_ne by done;
    intros Hi' Hj' Hci Hcj; simplify_eq; try done.
  - exfalso. eapply (refs_none c (delete this hs) j hj); eauto.
    by rewrite lookup_delete_ne.
  - exfalso. eapply (refs_none c (delete this hs) i hi); eauto.
    by rewrite lookup_delete_ne.
  - by eapply (Hcoh i j).
Qed.

Lemma coherent_step o st st' :
  counts_ok st → within_int st → step o st = Some st' →
  coherent st → coherent st'.
Proof.
  intros Hok Hint Hstep Hcoh.
  destruct o as [this|this ptr d|this other|this other|this ptr d|this other|this];
    simpl in Hstep.
  - unfold ctor_empty in Hstep.
    destruct (fresh_object this st); simplify_eq/=. destruct st.
    by eapply coherent_insert_fresh.
  - unfold ctor_bound, fresh_object in Hstep.
    destruct (handles st !! this) eqn:Ef; simplify_eq/=.
    pose proof (new_cell_fresh st) as Hnew.
    rewrite (counts_without_fresh this st Hok Ef) in Hnew.
    apply cell_of_None in Hnew. destruct st as [hs cs tr].
    eapply coherent_insert_fresh; [|done]. by intros c [= <-].
  - unfold ctor_copy in Hstep.
    destruct (fresh_object this st); simplify_eq/=.
    apply acquire_handles in Hstep as (o & Ho & Hh & _).
    by eapply coherent_insert_copy.
  - unfold assign in Hstep.
    destruct (handles st !! this); simplify_eq/=.
    destruct (handles st !! other); simplify_eq/=.
    case_decide; simplify_eq/=; [|done].
    destruct (release this st) as [st1|] eqn:E1; simplify_eq/=.
    apply release_handles in E1.
    apply acquire_handles in Hstep as (o & Ho & Hh & _).
    rewrite E1 in Ho, Hh. by eapply coherent_insert_copy.
  - unfold reset in Hstep.
    destruct (handles st !! this) as [h|] eqn:Eh;
      [|by unfold release in Hstep; rewrite Eh in Hstep].
    destruct (release_counts this st h Hok Hint Eh) as (st1 & E1 & Hh1 & Hcw).
    rewrite E1 in Hstep. simplify_eq/=.
    pose proof (new_cell_fresh st1) as Hnew. rewrite (Hcw _) in Hnew.
    apply cell_of_None in Hnew.
    destruct st as [hs cs tr], st1 as [hs1 cs1 tr1]. simpl in *. subst hs1.
    eapply coherent_insert_fresh; [|done]. by intros c [= <-].
  - unfold swap in Hstep.
    destruct (handles st !! this) as [a|] eqn:Ea; simplify_eq/=.
    destruct (handles st !! other) as [b|] eqn:Eb; simplify_eq/=.
    rewrite !SharedPtr_eta. revert Hcoh. apply coherent_sub. simpl.
    intros k h. destruct (decide (k = other)) as [->|Hko].
    { rewrite lookup_insert_eq. intros [= <-]. by exists this. }
    rewrite lookup_insert_ne by done.
    destruct (decide (k = this)) as [->|Hkt].
    { rewrite lookup_insert_eq. intros [= <-]. by exists other. }
    rewrite lookup_insert_ne by done. by exists k.
  - unfold dtor in Hstep.
    destruct (release this st) as [st1|] eqn:E1; simplify_eq/=.
    apply release_handles in E1. revert Hcoh. apply coherent_sub. simpl.
    intros k h [_ Hk]%lookup_delete_Some. rewrite E1 in Hk. by exists k.
Qed.

Lemma run_counts_coherent os : ∀ st0 k s,
  counts_ok st0 → coherent st0 →
  (∀ j s', run (take j os) st0 = Some s' → within_int s') →
  run (take k os) st0 = Some s →
  coherent s.
Proof.
  induction os as [|o os IH]; intros st0 k s Hok Hcoh Hint Hrun.
  - rewrite take_nil in Hrun. by simplify_eq/=.
  - destruct k as [|k]; [by simplify_eq/=|]. simpl in Hrun.
    destruct (step o st0) as [st1|] eqn:E1; simplify_eq/=.
    assert (H0 : within_int st0) by exact (Hint 0%nat st0 eq_refl).
    assert (H1 : within_int st1).
    { apply (Hint 1%nat). simpl. by rewrite E1. }
    apply (IH st1 k s); [by eapply step_counts_ok|by eapply coherent_step| |done].
    intros j s' Hj. apply (Hint (S j)). simpl. by rewrite E1.
Qed.

(** X9.  The handles that share a counter cell are copies of one another.
    Start from a state where that is so and every counter holds the number
    of its owners, run any sequence of operations, and suppose that no cell
    ever has more than [INT_MAX] owners: at every point between operations
    two live handles with the same counter cell have the same resource
    pointer and the same cleanup routine, so whichever is destroyed last
    cleans up the same resource in the same way. *)
Theorem group_members_agree os st0 k s i j hi hj c :
  counts_ok st0 → coherent st0 →
  (∀ n s', run (take n os) st0 = Some s' → within_int s') →
  run (take k os) st0 = Some s →
  handles s !! i = Some hi → handles s !! j = Some hj →
  count_ hi = Some c → count_ hj = Some c →
  ptr_ hi = ptr_ hj ∧ deleter_ hi = deleter_ hj.
Proof.
  intros Hok Hcoh Hint Hrun Hi Hj Hci Hcj.
  pose proof (run_counts_coherent os st0 k s Hok Hcoh Hint Hrun) as Hs.
  by rewrite (Hs i j hi hj c Hi Hj Hci Hcj).
Qed.

Lemma coherent_init : coherent init.
Proof. intros i j hi hj c Hi. simpl in Hi. by rewrite lookup_empty in Hi. Qed.

Lemma group_members_agree_witness :
  ∃ s hi hj,
    run (take 2 bind_copy_destroy) init = Some s ∧
    handles s !! 0%nat = Some hi ∧
    handles s !! 1%nat = Some hj ∧
    ptr_ hi = ptr_ hj ∧ deleter_ hi = deleter_ hj.
Proof.
  eexists _, _, _. split; [reflexivity|]. split; [reflexivity|].
  split; [reflexivity|].
  eapply (group_members_agree bind_copy_destroy init 2 _ 0 1 _ _ 1%positive).
  - exact counts_ok_init.
  - exact coherent_init.
  - intros j s' Hj. apply within_int_size.
    destruct j as [|[|[|j]]]; simpl in Hj; rewrite ?take_nil in Hj;
      vm_compute in Hj; injection Hj as <-; vm_compute; discriminate.
  - reflexivity.
  - reflexivity.
  - reflexivity.
  - reflexivity.
  - reflexivity.
Defined.

(** ** Every resource handed to a handle is cleaned up once *)

Lemma refs_pos_exists c hs :
  (1 ≤ refs c hs)%nat → ∃ k h, hs !! k = Some h ∧ count_ h = Some c.
Proof.
  intros Hpos. unfold refs in Hpos.
  destruct (map_choose (filter (λ kh, count_ kh.2 = Some c) hs)) as (k & h & Hk).
  { intros E. rewrite E, map_size_empty in Hpos. lia. }
  apply map_lookup_filter_Some in Hk as [Hk Hc]. by exists k, h.
Qed.

Lemma cleanups_app tr evs : cleanups (tr ++ evs) = cleanups tr ++ cleanups evs.
Proof. apply omap_app. Qed.

Lemma bound_app os1 os2 : bound (os1 ++ os2) = bound os1 ++ bound os2.
Proof. apply omap_app. Qed.

(** The handles may be replaced by handles that are copies of old ones. *)
Lemma tracked_on_sub hs hs' cs tr bs :
  (∀ k h, hs' !! k = Some h → is_Some (count_ h) → ∃ k', hs !! k' = Some h) →
  tracked_on hs cs tr bs → tracked_on hs' cs tr bs.
Proof.
  intros Hsub (grp & Hd & Hg & Hp). exists grp. split; [done|]. split; [|done].
  intros k h c Hk Hc. destruct (Hsub k h Hk) as [k' Hk']; [by rewrite Hc|].
  by apply (Hg k' h c).
Qed.

(** The values of the counters do not matter, only which cells there are. *)
Lemma tracked_on_cells hs cs cs' tr bs :
  (∀ c, cs' !! c = None ↔ cs !! c = None) →
  tracked_on hs cs tr bs → tracked_on hs cs' tr bs.
Proof.
  intros Hcs (grp & Hd & Hg & Hp). exists grp. split; [|done].
  intros c. by rewrite Hd, Hcs.
Qed.

Lemma tracked_on_update hs cs tr bs c v v' :
  cs !! c = Some v →
  tracked_on hs cs tr bs → tracked_on hs (<[c := v']> cs) tr bs.
Proof.
  intros Hv. apply tracked_on_cells. intros c'.
  destruct (decide (c' = c)) as [->|Hne].
  - by rewrite lookup_insert_eq, Hv.
  - by rewrite lookup_insert_ne.
Qed.

(** A handle is given a pointer, a cleanup routine and a new cell. *)
Lemma tracked_on_alloc hs cs tr bs this c d p :
  cs !! c = None →
  tracked_on (delete this hs) cs tr bs →
  tracked_on (<[this := mkSharedPtr p (Some c) d]> hs) (<[c := 1]> cs)
    (tr ++ [EvNew c]) (bs ++ [(d, p)]).
Proof.
  intros Hf (grp & Hd & Hg & Hp).
  assert (Hgc : grp !! c = None) by by apply Hd.
  exists (<[c := (d, p)]> grp). split; [|split].
  - intros c'. destruct (decide (c' = c)) as [->|Hne].
    + by rewrite !lookup_insert_eq.
    + rewrite !lookup_insert_ne by done. apply Hd.
  - intros k h c' Hk Hc'. destruct (decide (k = this)) as [->|Hne].
    + rewrite lookup_insert_eq in Hk. simplify_eq/=. by rewrite lookup_insert_eq.
    + rewrite lookup_insert_ne in Hk by done.
      assert (Hk' : delete this hs !! k = Some h) by by rewrite lookup_delete_ne.
      pose proof (Hg k h c' Hk' Hc') as Hgc'.
      rewrite lookup_insert_ne; [done|]. intros ->. congruence.
  - rewrite cleanups_app. simpl. rewrite app_nil_r.
    rewrite map_to_list_insert by done. rewrite fmap_cons. simpl.
    etrans; [apply Permutation_app_comm|]. simpl.
    rewrite Hp. apply Permutation_middle.
Qed.

(** The release of [this], seen from the other handles. *)
Lemma tracked_release this st h st1 bs :
  counts_ok st → within_int st → handles st !! this = Some h →
  release this st = Some st1 → tracked st bs →
  tracked_on (delete this (handles st)) (cells st1) (trace st1) bs.
Proof.
  intros Hok Hint Hh E Ht.
  destruct (release_counts this st h Hok Hint Hh) as (st1' & E1 & Hh1 & Hcw).
  rewrite E in E1. injection E1 as <-.
  assert (Hdel : tracked_on (delete this (handles st)) (cells st) (trace st) bs).
  { revert Ht. apply tracked_on_sub.
    intros k h' [_ Hk]%lookup_delete_Some _. by exists k. }
  revert E Hcw. unfold release. rewrite Hh. simpl.
  destruct (count_ h) as [c|] eqn:Ec; [|by intros [= <-]].
  destruct (cells st !! c) as [v|] eqn:Ev; [|done]. simpl.
  case_decide as H1; intros [= <-] Hcw; simpl; [|by eapply tracked_on_update].
  destruct Ht as (grp & Hd & Hg & Hp).
  assert (Hgc : grp !! c = Some (charge h)) by by apply (Hg this h c).
  exists (delete c grp). split; [|split].
  - intros c'. rewrite delete_insert_eq. destruct (decide (c' = c)) as [->|Hne].
    + by rewrite !lookup_delete_eq.
    + rewrite !lookup_delete_ne by done. apply Hd.
  - intros k h' c' [Hne Hk]%lookup_delete_Some Hc'.
    rewrite lookup_delete_ne; [by apply (Hg k h' c')|].
    intros <-. pose proof (Hcw c) as Hc0. simpl in Hc0.
    rewrite delete_insert_eq, lookup_delete_eq in Hc0.
    symmetry in Hc0. apply cell_of_None in Hc0.
    apply (refs_none c (delete this (handles st)) k h'); [done| |done].
    by rewrite lookup_delete_ne.
  - rewrite cleanups_app. simpl. rewrite Hp.
    rewrite <-(insert_delete_id grp c (charge h)) at 1 by done.
    rewrite map_to_list_insert by apply lookup_delete_eq.
    rewrite fmap_cons. simpl. unfold charge.
    by rewrite <-app_assoc.
Qed.

(** [this] takes a share of what [other] holds. *)
Lemma tracked_acquire this other st1 st' hs bs :
  acquire this other st1 = Some st' → this ≠ other → handles st1 = hs →
  tracked_on (delete this hs) (cells st1) (trace st1) bs →
  tracked st' bs.
Proof.
  unfold acquire. intros E Hne Hhs Ht.
  destruct (handles st1 !! other) as [o|] eqn:Eo; simplify_eq/=.
  rewrite SharedPtr_eta in E.
  assert (Hall : tracked_on (<[this := o]> (handles st1)) (cells st1) (trace st1) bs).
  { revert Ht. apply tracked_on_sub. intros k h Hk _.
    destruct (decide (k = this)) as [->|Hk'].
    - rewrite lookup_insert_eq in Hk. simplify_eq.
      exists other. by rewrite lookup_delete_ne.
    - rewrite lookup_insert_ne in Hk by done.
      exists k. by rewrite lookup_delete_ne. }
  destruct (count_ o) as [c|]; simplify_eq/=; [|done].
  destruct (cells st1 !! c) as [v|] eqn:Ev; simplify_eq/=.
  by eapply tracked_on_update.
Qed.

Lemma tracked_fresh this st bs :
  tracked st bs →
  tracked_on (delete this (handles st)) (cells st) (trace st) bs.
Proof.
  apply tracked_on_sub. intros k h [_ Hk]%lookup_delete_Some _. by exists k.
Qed.

Lemma tracked_step o st st' bs :
  counts_ok st → within_int st → step o st = Some st' →
  tracked st bs → tracked st' (bs ++ bound [o]).
Proof.
  intros Hok Hint Hstep Ht.
  destruct o as [this|this ptr d|this other|this other|this ptr d|this other|this];
    simpl in Hstep; unfold bound; simpl; rewrite ?app_nil_r.
  - unfold ctor_empty in Hstep.
    destruct (fresh_object this st); simplify_eq/=.
    revert Ht. apply tracked_on_sub. simpl. intros k h Hk Hc.
    destruct (decide (k = this)) as [->|Hne].
    + rewrite lookup_insert_eq in Hk. simplify_eq/=. by destruct Hc.
    + rewrite lookup_insert_ne in Hk by done. by exists k.
  - unfold ctor_bound in Hstep.
    destruct (fresh_object this st); simplify_eq/=.
    apply tracked_on_alloc; [apply new_cell_fresh|by apply tracked_fresh].
  - unfold ctor_copy, fresh_object in Hstep.
    destruct (handles st !! this) eqn:Ef; simplify_eq/=.
    eapply tracked_acquire; [done| |done|by apply tracked_fresh].
    intros ->. unfold acquire in Hstep. by rewrite Ef in Hstep.
  - unfold assign in Hstep.
    destruct (handles st !! this) as [h|] eqn:Eh; simplify_eq/=.
    destruct (handles st !! other); simplify_eq/=.
    case_decide as Hne; simplify_eq/=; [|done].
    destruct (release this st) as [st1|] eqn:E1; simplify_eq/=.
    eapply tracked_acquire; [done|done|by eapply release_handles|].
    by eapply tracked_release.
  - unfold reset in Hstep.
    destruct (handles st !! this) as [h|] eqn:Eh;
      [|by unfold release in Hstep; rewrite Eh in Hstep].
    destruct (release this st) as [st1|] eqn:E1; simplify_eq/=.
    rewrite (release_handles this st st1 E1).
    apply tracked_on_alloc; [apply new_cell_fresh|]. by eapply tracked_release.
  - unfold swap in Hstep.
    destruct (handles st !! this) as [a|] eqn:Ea; simplify_eq/=.
    destruct (handles st !! other) as [b|] eqn:Eb; simplify_eq/=.
    rewrite !SharedPtr_eta. revert Ht. apply tracked_on_sub. simpl.
    intros k h Hk _. destruct (decide (k = other)) as [->|Hko].
    { rewrite lookup_insert_eq in Hk. simplify_eq. by exists this. }
    rewrite lookup_insert_ne in Hk by done.
    destruct (decide (k = this)) as [->|Hkt].
    { rewrite lookup_insert_eq in Hk. simplify_eq. by exists other. }
    rewrite lookup_insert_ne in Hk by done. by exists k.
  - unfold dtor in Hstep.
    destruct (handles st !! this) as [h|] eqn:Eh;
      [|by unfold release in Hstep; rewrite Eh in Hstep].
    destruct (release this st) as [st1|] eqn:E1; simplify_eq/=.
    unfold tracked. simpl. rewrite (release_handles this st st1 E1).
    by eapply tracked_release.
Qed.

Lemma tracked_run os : ∀ st bs s,
  counts_ok st →
  (∀ j s', run (take j os) st = Some s' → within_int s') →
  run os st = Some s →
  tracked st bs →
  tracked s (bs ++ bound os) ∧ counts_ok s.
Proof.
  induction os as [|o os IH]; intros st bs s Hok Hint Hrun Ht.
  - simplify_eq/=. unfold bound. simpl. by rewrite app_nil_r.
  - simpl in Hrun. destruct (step o st) as [st1|] eqn:E1; simpl in Hrun; [|done].
    assert (H0 : within_int st) by exact (Hint 0%nat st eq_refl).
    assert (H1 : within_int st1).
    { apply (Hint 1%nat). simpl. by rewrite E1. }
    rewrite (bound_app [o] os : bound (o :: os) = _), app_assoc.
    apply (IH st1); [by eapply step_counts_ok| |done|by apply (tracked_step o st)].
    intros j s' Hj. apply (Hint (S j)). simpl. by rewrite E1.
Qed.

Lemma tracked_init : tracked init [].
Proof.
  exists ∅. split; [done|]. split.
  - intros k h c Hk. simpl in Hk. by rewrite lookup_empty in Hk.
  - by rewrite map_to_list_empty.
Qed.

(** X7.  Every resource handed to a handle is cleaned up exactly once, by
    its own cleanup routine.  Take a run from the initial state in which no
    cell ever has more than [INT_MAX] owners, and the resources it hands to
    handles: for each bound construction and each [reset], the pointer and
    the cleanup routine given.  At the end of the run the cleanup calls made
    are among them, each at most as often as it was handed over; whatever
    was handed over and has not been cleaned up is held by a live handle,
    with its cleanup routine; and when no handle is left, the cleanup calls
    made are exactly the resources handed over, each routine called once on
    its pointer for each time it was handed over, and no counter cell is
    left allocated. *)
Theorem bound_resources_cleaned_once os s :
  (∀ j s', run (take j os) init = Some s' → within_int s') →
  run os init = Some s →
  cleanups (trace s) ⊆+ bound os ∧
  (∀ x, x ∈ bound os →
        x ∈ cleanups (trace s) ∨
        ∃ k h, handles s !! k = Some h ∧ is_Some (count_ h) ∧ charge h = x) ∧
  (handles s = ∅ → cleanups (trace s) ≡ₚ bound os ∧ cells s = ∅).
Proof.
  intros Hint Hrun.
  destruct (tracked_run os init [] s counts_ok_init Hint Hrun tracked_init)
    as [(grp & Hd & Hg & Hp) Hok].
  simpl in Hp. split; [|split].
  - rewrite Hp. by apply submseteq_inserts_r.
  - intros x Hx. rewrite Hp in Hx. apply elem_of_app in Hx as [Hx|Hx]; [by left|].
    right. apply list_elem_of_fmap in Hx as ([c y] & -> & Hcy).
    apply elem_of_map_to_list in Hcy. simpl.
    assert (Hc : cells s !! c ≠ None).
    { intros Hn. apply Hd in Hn. congruence. }
    rewrite (Hok c) in Hc.
    destruct (refs_pos_exists c (handles s)) as (k & h & Hk & Hkc).
    { destruct (refs c (handles s)); [done|lia]. }
    exists k, h. split; [done|]. split; [by rewrite Hkc|].
    pose proof (Hg k h c Hk Hkc) as Hgk. congruence.
  - intros He.
    assert (Hcs : cells s = ∅).
    { apply map_empty. intros c. by rewrite (Hok c), He, refs_empty. }
    split; [|done].
    assert (Hgrp : grp = ∅).
    { apply map_empty. intros c. apply Hd. by rewrite Hcs, lookup_empty. }
    rewrite Hp, Hgrp, map_to_list_empty. simpl. by rewrite app_nil_r.
Qed.

Lemma bound_resources_cleaned_once_witness :
  ∃ s, run two_binds init = Some s ∧
    cleanups (trace s) ⊆+ bound two_binds ∧
    (∀ x, x ∈ bound two_binds →
          x ∈ cleanups (trace s) ∨
          ∃ k h, handles s !! k = Some h ∧ is_Some (count_ h) ∧ charge h = x) ∧
    (handles s = ∅ → cleanups (trace s) ≡ₚ bound two_binds ∧ cells s = ∅).
Proof.
  eexists. split; [reflexivity|].
  apply (bound_resources_cleaned_once two_binds).
  - intros j s' Hj. apply within_int_size.
    destruct j as [|[|[|[|[|j]]]]]; simpl in Hj; rewrite ?take_nil in Hj;
      vm_compute in Hj; injection Hj as <-; vm_compute; discriminate.
  - reflexivity.
Defined.

End SharedExtSpec.

(** * More properties of the exclusive handle *)

Module UniqueExtSpec.
Import Unique UniqueExt.

Lemma UniquePtr_eta' h : mkUniquePtr (ptr_ h) (deleter_ h) = h.
Proof. by destruct h. Qed.

(** ** Destruction, one handle after the other *)

Lemma dtor_spec this st h :
  handles st !! this = Some h →
  dtor this st
  = Some (mkState (delete this (handles st))
            (trace st ++ option_list (cleanup_of h))).
Proof.
  intros Hh. unfold dtor, reset, cleanup_of. rewrite Hh. simpl.
  rewrite delete_insert_eq. do 2 f_equal.
  destruct (ptr_ h) as [r|] eqn:Er; simpl; [done|by rewrite app_nil_r].
Qed.

Lemma dtors_unfold i ids st :
  dtors (i :: ids) st = dtor i st ≫= dtors ids.
Proof. reflexivity. Qed.

Lemma dtors_spec_gen (hs0 : gmap nat UniquePtr) : ∀ l st,
  NoDup l →
  (∀ i, i ∈ l → is_Some (hs0 !! i) ∧ handles st !! i = hs0 !! i) →
  ∃ st',
    dtors l st = Some st' ∧
    trace st' = trace st ++ omap (λ i, hs0 !! i ≫= cleanup_of) l ∧
    (∀ k, handles st' !! k = if decide (k ∈ l) then None else handles st !! k).
Proof.
  intros l. induction l as [|i l IH]; intros st Hnd Hall.
  - exists st. split; [done|]. simpl. by rewrite app_nil_r.
  - apply NoDup_cons in Hnd as [Hi Hnd].
    destruct (Hall i) as [[h Hh0] Hh]; [left|]. rewrite Hh0 in Hh.
    rewrite dtors_unfold, (dtor_spec i st h Hh). simpl.
    destruct (IH (mkState (delete i (handles st))
                    (trace st ++ option_list (cleanup_of h)))) as (st' & E & Htr & Hhs);
      [done| |].
    { intros j Hj. simpl. rewrite lookup_delete_ne by congruence.
      apply Hall. by right. }
    exists st'. split; [done|]. simpl in *. split.
    + rewrite Htr, Hh0. simpl. rewrite <-app_assoc. f_equal.
      by destruct (cleanup_of h).
    + intros k. rewrite Hhs. destruct (decide (k = i)) as [->|Hk].
      * rewrite (decide_True (P := i ∈ i :: l)) by left.
        case_decide; [done|]. by rewrite lookup_delete_eq.
      * rewrite lookup_delete_ne by done.
        case_decide as H1; case_decide as H2; try done.
        -- exfalso. apply H2. by right.
        -- exfalso. apply elem_of_cons in H2 as [?|?]; done.
Qed.

(** X12.  Destroying distinct live handles, one after the other, calls for
    each handle that holds a non-null pointer its cleanup routine on that
    pointer, once and in the order of destruction; handles that are empty
    add nothing, and the destroyed handles are gone. *)
Theorem dtors_clean_what_is_held l st :
  NoDup l →
  (∀ i, i ∈ l → is_Some (handles st !! i)) →
  ∃ st',
    dtors l st = Some st' ∧
    trace st' = trace st ++ omap (λ i, handles st !! i ≫= cleanup_of) l ∧
    (∀ k, handles st' !! k = if decide (k ∈ l) then None else handles st !! k).
Proof.
  intros Hnd Hall. apply dtors_spec_gen; [done|].
  intros i Hi. split; [by apply Hall|done].
Qed.

Lemma dtors_clean_what_is_held_witness :
  ∃ st',
    dtors [1; 0]%nat two_owners = Some st' ∧
    trace st' = trace two_owners ++
                omap (λ i, handles two_owners !! i ≫= cleanup_of) [1; 0]%nat ∧
    (∀ k, handles st' !! k
          = if decide (k ∈ [1; 0]%nat) then None else handles two_owners !! k).
Proof.
  apply dtors_clean_what_is_held.
  - apply NoDup_cons. split; [|apply NoDup_singleton].
    intros H%list_elem_of_singleton. discriminate H.
  - intros i [->|Hi]%elem_of_cons; [eexists; reflexivity|].
    apply list_elem_of_singleton in Hi as ->. eexists. reflexivity.
Defined.

(** ** A resource moved along a chain of handles *)

Lemma last_cons_default {A} (l : list A) a d : List.last (a :: l) d = List.last l a.
Proof.
  revert a d. induction l as [|b l IH]; intros a d; [done|].
  change (List.last (a :: b :: l) d) with (List.last (b :: l) d).
  rewrite IH. symmetry. apply IH.
Qed.

Lemma last_elem {A} (l : list A) a : List.last l a ∈ a :: l.
Proof.
  revert a. induction l as [|b l IH]; intros a; [left|].
  rewrite last_cons_default. right. apply IH.
Qed.

Lemma move_chain_spec (mv : deleter → deleter) p d : ∀ ids src st,
  NoDup (src :: ids) →
  handles st !! src = Some (mkUniquePtr p d) →
  (∀ i, i ∈ ids → handles st !! i = None) →
  ∃ st',
    move_chain mv src ids st = Some st' ∧
    trace st' = trace st ∧
    (∀ k, handles st' !! k =
          if decide (k = List.last ids src) then Some (mkUniquePtr p d)
          else if decide (k ∈ src :: ids) then Some (mkUniquePtr None (mv d))
          else handles st !! k).
Proof.
  intros ids. induction ids as [|i ids IH]; intros src st Hnd Hsrc Hfresh.
  - exists st. split; [done|]. split; [done|]. intros k. simpl.
    case_decide as H1; [by subst|].
    case_decide as H2; [|done].
    apply list_elem_of_singleton in H2. done.
  - apply NoDup_cons in Hnd as [Hs Hnd].
    assert (Hi : handles st !! i = None) by (apply Hfresh; left).
    assert (Hne : i ≠ src) by congruence.
    rewrite (last_cons_default ids i src).
    cbn [move_chain]. unfold ctor_move, fresh_object. rewrite Hi.
    cbn [mbind option_bind]. rewrite Hsrc. cbn [mbind option_bind ptr_ deleter_].
    destruct (IH i (mkState (<[src := mkUniquePtr None (mv d)]>
                               (<[i := mkUniquePtr p d]> (handles st))) (trace st)))
      as (st' & E & Htr & Hhs); [done| | |].
    { simpl. by rewrite lookup_insert_ne, lookup_insert_eq. }
    { intros j Hj. simpl. apply NoDup_cons in Hnd as [Hij _].
      rewrite !lookup_insert_ne; [apply Hfresh; by right| |]; intros ->.
      - apply Hij, Hj.
      - apply Hs. by right. }
    exists st'. split; [done|]. split; [done|]. intros k. rewrite Hhs. simpl.
    case_decide as H1; [done|].
    pose proof (last_elem ids i) as Hlast.
    destruct (decide (k = src)) as [->|Hks].
    + rewrite (decide_True (P := src ∈ src :: i :: ids)) by left.
      case_decide as H2; [done|]. by rewrite lookup_insert_eq.
    + rewrite lookup_insert_ne by done.
      case_decide as H2.
      * rewrite decide_True; [done|]. by right.
      * rewrite decide_False.
        -- rewrite lookup_insert_ne; [done|]. intros ->. apply H2. left.
        -- intros [?|?]%elem_of_cons; done.
Qed.

Lemma omap_single {A B} `{EqDecision A} (f : A → option B) x e : ∀ l,
  NoDup l → x ∈ l → f x = Some e →
  (∀ y, y ∈ l → y ≠ x → f y = None) →
  omap f l = [e].
Proof.
  intros l. induction l as [|a l IH]; intros Hnd Hx Hfx Hothers.
  - by apply elem_of_nil in Hx.
  - apply NoDup_cons in Hnd as [Ha Hnd]. simpl.
    destruct (decide (a = x)) as [->|Hne].
    + rewrite Hfx. f_equal.
      assert (Hn : ∀ y, y ∈ l → f y = None).
      { intros y Hy. apply Hothers; [by right|]. intros ->. done. }
      clear -Hn. induction l as [|b l IH]; [done|]. simpl.
      rewrite (Hn b) by left. apply IH. intros y Hy. apply Hn. by right.
    + rewrite (Hothers a) by (done || left). apply IH; [done| |done|].
      * apply elem_of_cons in Hx as [?|?]; [congruence|done].
      * intros y Hy. apply Hothers. by right.
Qed.

(** X13.  A resource bound to a handle, moved from handle to handle along a
    chain of move constructions, and then all the handles destroyed in any
    order: the scenario runs to its end and the cleanup routine is called
    exactly once, on that resource, whatever a move leaves in the cleanup
    routine of its source. *)
Theorem moved_resource_cleaned_once (moved_from : deleter → deleter)
    st0 this ids r d order :
  NoDup (this :: ids) →
  (∀ i, i ∈ this :: ids → handles st0 !! i = None) →
  order ≡ₚ this :: ids →
  ∃ st1 st2 st3,
    ctor this (Some r) d st0 = Some st1 ∧
    move_chain moved_from this ids st1 = Some st2 ∧
    to_bool (List.last ids this) st2 = Some true ∧
    dtors order st2 = Some st3 ∧
    trace st3 = trace st0 ++ [EvCleanup d (Some r)] ∧
    handles st3 = handles st0.
Proof.
  intros Hnd Hfresh Hperm.
  assert (Hf0 : handles st0 !! this = None) by (apply Hfresh; left).
  unfold ctor, fresh_object. rewrite Hf0. simpl. eexists.
  destruct (move_chain_spec moved_from (Some r) d ids this
              (mkState (<[this := mkUniquePtr (Some r) d]> (handles st0)) (trace st0)))
    as (st2 & E2 & Htr2 & Hh2); [done|by simpl; rewrite lookup_insert_eq| |].
  { intros i Hi. simpl. apply NoDup_cons in Hnd as [Hthis _].
    rewrite lookup_insert_ne by (intros ->; done). apply Hfresh. by right. }
  simpl in *. set (final := List.last ids this) in *.
  assert (Hfin : final ∈ this :: ids) by apply last_elem.
  assert (Hlive : ∀ i, i ∈ order → is_Some (handles st2 !! i)).
  { intros i Hi. rewrite Hperm in Hi. rewrite Hh2.
    case_decide; [by eexists|]. rewrite decide_True by done. by eexists. }
  destruct (dtors_spec_gen (handles st2) order st2) as (st3 & E3 & Htr3 & Hh3).
  { by rewrite Hperm. }
  { intros i Hi. split; [by apply Hlive|done]. }
  exists st2, st3. split; [done|]. split; [done|]. split.
  { unfold to_bool. rewrite Hh2, decide_True by done. done. }
  split; [done|]. split.
  - rewrite Htr3, Htr2. f_equal.
    apply (omap_single _ final); [by rewrite Hperm|by rewrite Hperm| |].
    + rewrite Hh2, decide_True by done. done.
    + intros y Hy Hne. rewrite Hperm in Hy. rewrite Hh2.
      rewrite decide_False, decide_True by done. done.
  - apply map_eq. intros k. rewrite Hh3, Hh2.
    case_decide as H1.
    + rewrite Hperm in H1. symmetry. by apply Hfresh.
    + rewrite Hperm in H1. rewrite decide_False, decide_False by (done || congruence).
      rewrite lookup_insert_ne; [done|]. intros ->. apply H1. left.
Qed.

Lemma moved_resource_cleaned_once_witness :
  ∃ st1 st2 st3,
    ctor 1 (Some 7%positive) defaultDeleter init = Some st1 ∧
    move_chain (λ _, customDeleter 0) 1 [2; 3]%nat st1 = Some st2 ∧
    to_bool (List.last [2; 3]%nat 1%nat) st2 = Some true ∧
    dtors [3; 1; 2]%nat st2 = Some st3 ∧
    trace st3 = trace init ++ [EvCleanup defaultDeleter (Some 7%positive)] ∧
    handles st3 = handles init.
Proof.
  apply (moved_resource_cleaned_once (λ _, customDeleter 0) init 1 [2; 3]%nat
           7%positive defaultDeleter [3; 1; 2]%nat).
  - apply NoDup_cons. split; [|apply NoDup_cons; split; [|apply NoDup_singleton]].
    + intros [H|H]%elem_of_cons; [discriminate H|].
      apply list_elem_of_singleton in H. discriminate H.
    + intros H%list_elem_of_singleton. discriminate H.
  - intros i _. apply lookup_empty.
  - apply (Permutation_cons_append [1; 2]%nat 3%nat).
Defined.

(** ** One owner for each resource, one cleanup at most *)

Lemma cleaned_app tr evs : cleaned (tr ++ evs) = cleaned tr ++ cleaned evs.
Proof. unfold cleaned. apply omap_app. Qed.

Lemma cleaned_cleanup_of h :
  cleaned (option_list (cleanup_of h)) = option_list (ptr_ h).
Proof. unfold cleanup_of. by destruct (ptr_ h). Qed.

(** Storing [h'] in the handle [this], after the cleanups [evs]. *)
Lemma sound_set hs tr this h' evs :
  sound (mkState hs tr) →
  (∀ r, ptr_ h' = Some r →
        (∀ j hj, j ≠ this → hs !! j = Some hj → ptr_ hj ≠ Some r) ∧
        r ∉ cleaned tr ++ cleaned evs) →
  (∀ r0, r0 ∈ cleaned evs → ∃ h, hs !! this = Some h ∧ ptr_ h = Some r0) →
  NoDup (cleaned evs) →
  sound (mkState (<[this := h']> hs) (tr ++ evs)).
Proof.
  intros (Hex & Hnd & Hheld) Hnew Hevs Hndevs. split; [|split]; simpl in *.
  - intros i j hi hj r. simpl.
    destruct (decide (i = this)) as [->|Hi], (decide (j = this)) as [->|Hj];
      rewrite ?lookup_insert_eq, ?lookup_insert_ne by done;
      intros Hi' Hj' Hri Hrj; simplify_eq; try done.
    + destruct (Hnew r Hri) as [Hno _]. by destruct (Hno j hj).
    + destruct (Hnew r Hrj) as [Hno _]. by destruct (Hno i hi).
    + by apply (Hex i j hi hj r).
  - rewrite cleaned_app. apply NoDup_app. split; [done|]. split; [|done].
    intros r Hr Hr'. destruct (Hevs r Hr') as (h & Hh & Hrh).
    apply (Hheld r); [|done]. by exists this, h.
  - intros r (k & hk & Hk & Hrk). simpl in Hk. rewrite cleaned_app.
    destruct (decide (k = this)) as [->|Hne].
    + rewrite lookup_insert_eq in Hk. simplify_eq. by apply (Hnew r).
    + rewrite lookup_insert_ne in Hk by done.
      intros [Hin|Hin]%elem_of_app.
      * apply (Hheld r); [|done]. by exists k, hk.
      * destruct (Hevs r Hin) as (h & Hh & Hrh).
        apply Hne. by apply (Hex k this hk h r).
Qed.

Lemma sound_set_quiet hs tr this h' :
  sound (mkState hs tr) →
  (∀ r, ptr_ h' = Some r →
        (∀ j hj, j ≠ this → hs !! j = Some hj → ptr_ hj ≠ Some r) ∧
        r ∉ cleaned tr) →
  sound (mkState (<[this := h']> hs) tr).
Proof.
  intros Hs Hnew.
  replace (mkState (<[this := h']> hs) tr)
    with (mkState (<[this := h']> hs) (tr ++ [])) by by rewrite app_nil_r.
  apply sound_set; [done| | |apply NoDup_nil_2].
  - intros r Hr. simpl. rewrite app_nil_r. by apply Hnew.
  - intros r0 Hr0. by apply elem_of_nil in Hr0.
Qed.

Lemma sound_delete hs tr this :
  sound (mkState hs tr) → sound (mkState (delete this hs) tr).
Proof.
  intros (Hex & Hnd & Hheld). split; [|split]; simpl in *; [|done|].
  - intros i j hi hj r. simpl.
    intros [_ Hi]%lookup_delete_Some [_ Hj]%lookup_delete_Some.
    by apply (Hex i j hi hj r).
  - intros r (k & hk & Hk & Hrk). simpl in Hk.
    apply lookup_delete_Some in Hk as [_ Hk].
    apply Hheld. by exists k, hk.
Qed.

Lemma sound_held_clean hs tr k hk r :
  sound (mkState hs tr) → hs !! k = Some hk → ptr_ hk = Some r →
  r ∉ cleaned tr.
Proof. intros (_ & _ & Hheld) Hk Hr. apply Hheld. by exists k, hk. Qed.

Lemma sound_reset this p st st' :
  sound st →
  (∀ r, p = Some r → ¬ held r st ∧ r ∉ cleaned (trace st)) →
  reset this p st = Some st' →
  sound st'.
Proof.
  intros Hs Hnew. unfold reset.
  destruct (handles st !! this) as [h|] eqn:Eh; [|done]. simpl. intros [= <-].
  destruct st as [hs tr]. simpl in *.
  replace (match ptr_ h with
           | Some _ => tr ++ [EvCleanup (deleter_ h) (ptr_ h)]
           | None => tr
           end) with (tr ++ option_list (cleanup_of h)).
  2:{ unfold cleanup_of. destruct (ptr_ h); simpl; [done|by rewrite app_nil_r]. }
  apply sound_set; [done| | |].
  - intros r Hr. simpl in Hr. destruct (Hnew r Hr) as [Hnh Hnc]. split.
    + intros j hj _ Hj Hrj. apply Hnh. by exists j, hj.
    + rewrite cleaned_cleanup_of. intros [Hin|Hin]%elem_of_app; [done|].
      destruct (ptr_ h) as [r0|] eqn:Er0; simpl in Hin;
        [|by apply elem_of_nil in Hin].
      apply list_elem_of_singleton in Hin as ->. apply Hnh. by exists this, h.
  - intros r0. rewrite cleaned_cleanup_of. intros Hin. exists h. split; [done|].
    destruct (ptr_ h) as [r1|]; simpl in Hin; [|by apply elem_of_nil in Hin].
    by apply list_elem_of_singleton in Hin as ->.
  - rewrite cleaned_cleanup_of. destruct (ptr_ h); simpl;
      [apply NoDup_singleton|apply NoDup_nil_2].
Qed.

Lemma sound_swap this other st st' :
  sound st → swap this other st = Some st' → sound st'.
Proof.
  intros Hs. unfold swap.
  destruct (handles st !! this) as [a|] eqn:Ea; [|done]. simpl.
  destruct (handles st !! other) as [b|] eqn:Eb; [|done]. simpl.
  intros [= <-]. rewrite !UniquePtr_eta'. destruct st as [hs tr]. simpl in *.
  destruct (decide (this = other)) as [->|Hne].
  { simplify_eq. by rewrite insert_insert_eq, insert_id. }
  pose proof Hs as (Hex & _ & _). simpl in Hex.
  replace (<[other := a]> (<[this := b]> hs))
    with (<[this := b]> (<[other := a]> (<[this := mkUniquePtr None (deleter_ a)]> hs))).
  2:{ rewrite (insert_insert_ne _ this other) by done.
      by rewrite insert_insert_eq. }
  apply sound_set_quiet; [apply sound_set_quiet; [apply sound_set_quiet|]|].
  - done.
  - by intros r Hr.
  - intros r Hr. split; [|exact (sound_held_clean hs tr this a r Hs Ea Hr)].
    intros j hj Hj Hhj Hrj.
    destruct (decide (j = this)) as [->|Hjt].
    + rewrite lookup_insert_eq in Hhj. by simplify_eq.
    + rewrite lookup_insert_ne in Hhj by done.
      apply Hjt. by apply (Hex j this hj a r).
  - intros r Hr. split; [|exact (sound_held_clean hs tr other b r Hs Eb Hr)].
    intros j hj Hj Hhj Hrj.
    destruct (decide (j = other)) as [->|Hjo].
    + rewrite lookup_insert_eq in Hhj. simplify_eq.
      apply Hne. by apply (Hex this other hj b r).
    + rewrite !lookup_insert_ne in Hhj by done.
      apply Hjo. by apply (Hex j other hj b r).
Qed.

(** X14.  Every operation keeps ownership sound, provided a pointer handed
    to a constructor or to [reset] is not held by a handle already and has
    not been cleaned up: afterwards still no resource is held by two
    handles, no resource has been cleaned up twice, and no handle holds a
    resource that has been cleaned up. *)
Theorem ops_keep_ownership_sound (moved_from : deleter → deleter) o st st' :
  sound st → binds_new o st → step moved_from o st = Some st' → sound st'.
Proof.
  intros Hs Hnew Hstep.
  destruct o as [this ptr d|this other|this other|this other|this|this p|this];
    simpl in Hstep.
  - unfold ctor, fresh_object in Hstep.
    destruct (handles st !! this) eqn:Ef; simplify_eq/=.
    destruct st as [hs tr]. apply sound_set_quiet; [done|].
    intros r Hr. simpl in *. subst ptr. destruct Hnew as [Hnh Hnc].
    split; [|done]. intros j hj _ Hj Hrj. apply Hnh. by exists j, hj.
  - unfold ctor_move, fresh_object in Hstep.
    destruct (handles st !! this) eqn:Ef; simplify_eq/=.
    destruct (handles st !! other) as [o|] eqn:Eo; simplify_eq/=.
    assert (Hne : this ≠ other) by congruence.
    rewrite UniquePtr_eta'. rewrite insert_insert_ne by done.
    destruct st as [hs tr]. simpl in *. pose proof Hs as (Hex & _ & _).
    apply sound_set_quiet; [apply sound_set_quiet|]; [done|by intros r Hr|].
    intros r Hr. split; [|exact (sound_held_clean hs tr other o r Hs Eo Hr)].
    intros j hj Hj Hhj Hrj. destruct (decide (j = other)) as [->|Hjo].
    + rewrite lookup_insert_eq in Hhj. by simplify_eq.
    + rewrite lookup_insert_ne in Hhj by done.
      apply Hjo. by apply (Hex j other hj o r).
  - by eapply sound_swap.
  - by eapply sound_swap.
  - unfold release in Hstep.
    destruct (handles st !! this) as [h|] eqn:Eh; simplify_eq/=.
    destruct st as [hs tr]. apply sound_set_quiet; [done|by intros r Hr].
  - eapply sound_reset; [done| |done].
    intros r ->. exact Hnew.
  - unfold dtor in Hstep.
    destruct (reset this None st) as [st1|] eqn:E1; simplify_eq/=.
    apply sound_reset in E1; [|done|by intros r Hr].
    destruct st1 as [hs1 tr1]. by apply sound_delete.
Qed.

Lemma sound_init : sound init.
Proof.
  split; [|split]; simpl.
  - intros i j hi hj r Hi. unfold init in Hi. simpl in Hi.
    by rewrite lookup_empty in Hi.
  - apply NoDup_nil_2.
  - intros r Hr. apply not_elem_of_nil.
Qed.

Lemma ops_keep_ownership_sound_witness :
  ∃ st', step id (OpCtor 1 (Some 7%positive) defaultDeleter) init = Some st' ∧
         sound st'.
Proof.
  eexists. split; [reflexivity|].
  apply (ops_keep_ownership_sound id (OpCtor 1 (Some 7%positive) defaultDeleter) init).
  - exact sound_init.
  - split.
    + intros (i & h & Hi & _). unfold init in Hi. simpl in Hi.
      by rewrite lookup_empty in Hi.
    + apply not_elem_of_nil.
  - reflexivity.
Defined.

End UniqueExtSpec.

(** * The exclusive handle on [TestClass] objects *)

Module UniqueTestSpec.
Import Unique UniqueExt UniqueTest UniqueExtSpec.

Lemma settle_quiet w st' :
  trace st' = trace (uniq w) →
  settle w st' = Some (mkWorld st' (objs w) (count w)).
Proof. intros E. unfold settle. by rewrite E, drop_all. Qed.

Lemma settle_one w st' d r :
  trace st' = trace (uniq w) ++ [EvCleanup d (Some r)] →
  r ∈ objs w → count w ≠ INT_MIN →
  settle w st' = Some (mkWorld st' (objs w ∖ {[r]}) (count w - 1)).
Proof.
  intros E Hr Hn. unfold settle. rewrite E, drop_app_length. simpl.
  unfold delete_TestClass. by rewrite decide_True, decide_False.
Qed.

Lemma held_insert r hs tr this h' :
  held r (mkState (<[this := h']> hs) tr) ↔
  ptr_ h' = Some r ∨ ∃ j hj, j ≠ this ∧ hs !! j = Some hj ∧ ptr_ hj = Some r.
Proof.
  unfold held. simpl. split.
  - intros (k & hk & Hk & Hr). destruct (decide (k = this)) as [->|Hne].
    + rewrite lookup_insert_eq in Hk. simplify_eq. by left.
    + rewrite lookup_insert_ne in Hk by done. right. by exists k, hk.
  - intros [Hr|(j & hj & Hj & Hhj & Hr)].
    + exists this, h'. by rewrite lookup_insert_eq.
    + exists j, hj. by rewrite lookup_insert_ne.
Qed.

Lemma consistent_set hs tr tr' ob n this h' ob' n' :
  consistent (mkWorld (mkState hs tr) ob n) →
  (∀ r, ptr_ h' = Some r →
        ∀ j hj, j ≠ this → hs !! j = Some hj → ptr_ hj ≠ Some r) →
  (∀ r, r ∈ ob' ↔
        ptr_ h' = Some r ∨ ∃ j hj, j ≠ this ∧ hs !! j = Some hj ∧ ptr_ hj = Some r) →
  n' = Z.of_nat (size ob') →
  consistent (mkWorld (mkState (<[this := h']> hs) tr') ob' n').
Proof.
  intros (Hex & Hob & Hn) Hnew Hob' Hn'. split; [|split]; simpl in *; [| |done].
  - intros i j hi hj r. simpl.
    destruct (decide (i = this)) as [->|Hi], (decide (j = this)) as [->|Hj];
      rewrite ?lookup_insert_eq, ?lookup_insert_ne by done;
      intros Hi' Hj' Hri Hrj; simplify_eq; try done.
    + by destruct (Hnew r Hri j hj).
    + by destruct (Hnew r Hrj i hi).
    + by apply (Hex i j hi hj r).
  - intros r. rewrite Hob'. symmetry. apply held_insert.
Qed.

Lemma consistent_delete_null hs tr tr' ob n this h :
  consistent (mkWorld (mkState hs tr) ob n) →
  hs !! this = Some h → ptr_ h = None →
  consistent (mkWorld (mkState (delete this hs) tr') ob n).
Proof.
  intros (Hex & Hob & Hn) Hh Hnull. split; [|split]; simpl in *; [| |done].
  - intros i j hi hj r. simpl.
    intros [_ Hi]%lookup_delete_Some [_ Hj]%lookup_delete_Some.
    by apply (Hex i j hi hj r).
  - intros r. rewrite Hob. unfold held. simpl. split.
    + intros (k & hk & Hk & Hr). exists k, hk. split; [|done].
      apply lookup_delete_Some. split; [|done]. intros ->. congruence.
    + intros (k & hk & [_ Hk]%lookup_delete_Some & Hr). by exists k, hk.
Qed.

Lemma transp_involutive a b k : transp a b (transp a b k) = k.
Proof. unfold transp. repeat case_decide; congruence. Qed.

Lemma swap_lookup a b st st' :
  swap a b st = Some st' →
  trace st' = trace st ∧
  ∀ k, handles st' !! k = handles st !! transp a b k.
Proof.
  unfold swap.
  destruct (handles st !! a) as [ha|] eqn:Ea; [|done]. simpl.
  destruct (handles st !! b) as [hb|] eqn:Eb; [|done]. simpl.
  intros [= <-]. split; [done|]. simpl. intros k.
  rewrite !UniquePtr_eta'. unfold transp.
  destruct (decide (k = b)) as [->|Hkb].
  - rewrite lookup_insert_eq. case_decide; by simplify_eq.
  - rewrite lookup_insert_ne by done.
    destruct (decide (k = a)) as [->|Hka]; [by rewrite lookup_insert_eq|].
    by rewrite lookup_insert_ne.
Qed.

Lemma consistent_swap a b w st' :
  consistent w → swap a b (uniq w) = Some st' →
  consistent (mkWorld st' (objs w) (count w)).
Proof.
  intros (Hex & Hob & Hn) [Htr Hlk]%swap_lookup.
  split; [|split]; simpl; [| |done].
  - intros i j hi hj r. rewrite !Hlk. intros Hi Hj Hri Hrj.
    pose proof (Hex _ _ hi hj r Hi Hj Hri Hrj) as E.
    by rewrite <-(transp_involutive a b i), E, transp_involutive.
  - intros r. rewrite Hob. unfold held. split.
    + intros (k & hk & Hk & Hr). exists (transp a b k), hk.
      by rewrite Hlk, transp_involutive.
    + intros (k & hk & Hk & Hr). exists (transp a b k), hk.
      by rewrite <-Hlk.
Qed.

Lemma settle_same_trace w st1 st2 ob n :
  settle w st1 = Some (mkWorld st1 ob n) → trace st2 = trace st1 →
  settle w st2 = Some (mkWorld st2 ob n).
Proof.
  unfold settle. intros H E. rewrite E.
  destruct (run_deleters _ _ _) as [x|]; [|done]. simpl in *. congruence.
Qed.

Lemma size_with_elem (ob : gset positive) r :
  r ∈ ob → size ob = S (size (ob ∖ {[r]})).
Proof.
  intros Hr. rewrite (union_difference_singleton_L r ob Hr) at 1.
  rewrite size_union by set_solver. by rewrite size_singleton.
Qed.

Lemma reset_world this w h :
  consistent w → handles (uniq w) !! this = Some h →
  ∃ st1 ob1 n1,
    reset this None (uniq w) = Some st1 ∧
    settle w st1 = Some (mkWorld st1 ob1 n1) ∧
    consistent (mkWorld st1 ob1 n1) ∧
    handles st1 = <[this := mkUniquePtr None (deleter_ h)]> (handles (uniq w)).
Proof.
  intros Hc Hh. destruct w as [[hs tr] ob n]. simpl in *.
  pose proof Hc as (Hex & Hob & Hn). simpl in *.
  unfold reset. simpl. rewrite Hh. simpl.
  destruct (ptr_ h) as [r0|] eqn:Er.
  - assert (Hin : r0 ∈ ob) by (apply Hob; by exists this, h).
    eexists _, _, _. split; [done|]. split.
    { apply (settle_one _ _ (deleter_ h) r0); simpl; [done|done|].
      unfold INT_MIN. lia. }
    split; [|done]. apply (consistent_set hs tr _ ob n); [done|done| |].
    + intros r. simpl. rewrite elem_of_difference, not_elem_of_singleton. split.
      * intros [Hr Hne]. right. apply Hob in Hr as (k & hk & Hk & Hrk).
        exists k, hk. split; [|done]. intros ->. simpl in *. congruence.
      * intros [?|(j & hj & Hj & Hhj & Hr)]; [done|]. split.
        -- apply Hob. by exists j, hj.
        -- intros ->. apply Hj. by apply (Hex j this hj h r0).
    + simpl. rewrite Hn, (size_with_elem ob r0 Hin). lia.
  - eexists _, _, _. split; [done|]. split; [by apply settle_quiet|].
    split; [|done]. apply (consistent_set hs tr _ ob n); [done|done| |done].
    intros r. simpl. rewrite Hob. split.
    + intros (k & hk & Hk & Hrk). right. exists k, hk. split; [|done].
      intros ->. simpl in *. congruence.
    + intros [?|(j & hj & Hj & Hhj & Hr)]; [done|]. by exists j, hj.
Qed.

Lemma ctor_move_as_swap (mv : deleter → deleter) this other st o :
  handles st !! other = Some o →
  ctor_move mv this other st
  = ctor this None (mv (deleter_ o)) st ≫= swap this other.
Proof.
  intros Ho. unfold ctor_move, ctor, fresh_object.
  destruct (handles st !! this) eqn:Et; simpl; [done|].
  assert (Hne : other ≠ this) by congruence.
  rewrite Ho. simpl. unfold swap. simpl.
  rewrite lookup_insert_eq, lookup_insert_ne, Ho by done. simpl.
  by rewrite insert_insert_eq.
Qed.

Lemma swap_trace a b st st' : swap a b st = Some st' → trace st' = trace st.
Proof. by intros [? _]%swap_lookup. Qed.

(** Each operation that is given what it is owed is defined and keeps the
    world consistent. *)
Lemma wstep_ok o w :
  consistent w → wready o w → ∃ w', wstep o w = Some w' ∧ consistent w'.
Proof.
  intros Hc Hr. pose proof Hc as (Hex & Hob & Hn).
  destruct o as [this|this|this other|this other|this other|this|this];
    simpl in *.
  - destruct Hr as [Hf Hmax]. unfold new_TestClass.
    rewrite decide_False by done. simpl.
    unfold make_unique, ctor, fresh_object. rewrite Hf. simpl.
    rewrite settle_quiet by done. eexists. split; [done|]. simpl.
    destruct w as [[hs tr] ob n]. simpl in *.
    pose proof (is_fresh ob) as Hfresh.
    apply (consistent_set hs tr _ ob n); [done| | |].
    + intros r [= <-] j hj _ Hj Hrj. apply Hfresh, Hob. by exists j, hj.
    + intros r. simpl. rewrite elem_of_union, elem_of_singleton, Hob. split.
      * intros [->|(k & hk & Hk & Hrk)]; [by left|]. right.
        exists k, hk. split; [intros ->; simpl in *; congruence|done].
      * intros [[= ->]|(j & hj & Hj & Hhj & Hr)]; [by left|]. right.
        by exists j, hj.
    + rewrite size_union by set_solver. rewrite size_singleton. lia.
  - unfold ctor, fresh_object. rewrite Hr. simpl.
    rewrite settle_quiet by done. eexists. split; [done|].
    destruct w as [[hs tr] ob n]. simpl in *.
    apply (consistent_set hs tr _ ob n); [done|done| |done].
    intros r. simpl. rewrite Hob. split.
    + intros (k & hk & Hk & Hrk). right. exists k, hk. split; [intros ->; simpl in *; congruence|done].
    + intros [?|(j & hj & Hj & Hhj & Hr')]; [done|]. by exists j, hj.
  - destruct Hr as [Hf [o Ho]].
    rewrite (ctor_move_as_swap default_delete_moved _ _ _ o Ho).
    unfold default_delete_moved, ctor, fresh_object. rewrite Hf. simpl.
    destruct w as [[hs tr] ob n]. simpl in *.
    assert (Hc1 : consistent
                    (mkWorld (mkState (<[this := mkUniquePtr None (deleter_ o)]> hs) tr)
                       ob n)).
    { apply (consistent_set hs tr tr ob n); [done|done| |done].
      intros r. simpl. rewrite Hob. split.
      - intros (k & hk & Hk & Hrk). right. exists k, hk.
        split; [intros ->; simpl in *; congruence|done].
      - intros [?|(j & hj & Hj & Hhj & Hr')]; [done|]. by exists j, hj. }
    destruct (swap this other
                (mkState (<[this := mkUniquePtr None (deleter_ o)]> hs) tr))
      as [st2|] eqn:E2.
    2:{ exfalso. unfold swap in E2. simpl in E2.
        rewrite lookup_insert_eq, lookup_insert_ne, Ho in E2 by congruence.
        done. }
    simpl. rewrite settle_quiet by (by apply (swap_trace _ _ _ _ E2)).
    eexists. split; [done|].
    by apply (consistent_swap this other _ _ Hc1).
  - destruct Hr as [[a Ha] [b Hb]]. unfold assign_move.
    destruct (swap this other (uniq w)) as [st2|] eqn:E2;
      [|by unfold swap in E2; rewrite Ha, Hb in E2].
    simpl. rewrite settle_quiet by (by apply (swap_trace _ _ _ _ E2)).
    eexists. split; [done|]. by apply (consistent_swap this other w st2 Hc E2).
  - destruct Hr as [[a Ha] [b Hb]]. unfold swap_free.
    destruct (swap this other (uniq w)) as [st2|] eqn:E2;
      [|by unfold swap in E2; rewrite Ha, Hb in E2].
    simpl. rewrite settle_quiet by (by apply (swap_trace _ _ _ _ E2)).
    eexists. split; [done|]. by apply (consistent_swap this other w st2 Hc E2).
  - destruct Hr as [h Hh].
    destruct (reset_world this w h Hc Hh) as (st1 & ob1 & n1 & E1 & Es & Hc1 & _).
    rewrite E1. simpl. rewrite Es. by eexists.
  - destruct Hr as [h Hh].
    destruct (reset_world this w h Hc Hh) as (st1 & ob1 & n1 & E1 & Es & Hc1 & Hh1).
    unfold dtor. rewrite E1. simpl.
    rewrite (settle_same_trace w st1 _ ob1 n1 Es) by done.
    eexists. split; [done|]. destruct st1 as [hs1 tr1]. simpl in *.
    apply (consistent_delete_null hs1 tr1 _ ob1 n1 this
             (mkUniquePtr None (deleter_ h))); [done| |done].
    by rewrite Hh1, lookup_insert_eq.
Qed.

(** An operation that is defined was given what it is owed. *)
Lemma wstep_ready o w w' : wstep o w = Some w' → wready o w.
Proof.
  intros H.
  destruct o as [this|this|this other|this other|this other|this|this];
    simpl in *.
  - unfold new_TestClass in H. case_decide; [done|]. simpl in H.
    unfold make_unique, ctor, fresh_object in H.
    by destruct (handles (uniq w) !! this).
  - unfold ctor, fresh_object in H. by destruct (handles (uniq w) !! this).
  - unfold ctor_move, fresh_object in H.
    destruct (handles (uniq w) !! this); [done|]. simpl in H.
    by destruct (handles (uniq w) !! other).
  - unfold assign_move, swap in H.
    destruct (handles (uniq w) !! this); [|done]. simpl in H.
    by destruct (handles (uniq w) !! other).
  - unfold swap_free, swap in H.
    destruct (handles (uniq w) !! this); [|done]. simpl in H.
    by destruct (handles (uniq w) !! other).
  - unfold reset in H. by destruct (handles (uniq w) !! this).
  - unfold dtor, reset in H. by destruct (handles (uniq w) !! this).
Qed.

Lemma consistent_winit : consistent winit.
Proof.
  split; [|split]; simpl.
  - intros i j hi hj r Hi. unfold init in Hi. simpl in Hi.
    by rewrite lookup_empty in Hi.
  - intros r. split; [set_solver|].
    intros (i & h & Hi & _). unfold init in Hi. simpl in Hi.
    by rewrite lookup_empty in Hi.
  - done.
Qed.

Lemma wrun_consistent os : ∀ w w',
  consistent w → wrun os w = Some w' → consistent w'.
Proof.
  induction os as [|o os IH]; intros w w' Hc Hrun; [by simplify_eq/=|].
  simpl in Hrun. destruct (wstep o w) as [w1|] eqn:E1; simplify_eq/=.
  eapply IH; [|done].
  destruct (wstep_ok o w Hc (wstep_ready o w w1 E1)) as (w1' & E1' & Hc1).
  congruence.
Qed.

(** X15.  [TestClass::count] counts the objects that handles own.  After any
    run of constructions from [new TestClass], empty constructions, moves,
    move assignments, swaps, [reset()]s and destructions: the counter is the
    number of live objects, the live objects are exactly the ones that some
    handle holds (none has leaked, none that is held has been deleted), and
    none is held by two handles. *)
Theorem count_is_number_owned os w :
  wrun os winit = Some w →
  count w = Z.of_nat (size (objs w)) ∧
  (∀ r, r ∈ objs w ↔ held r (uniq w)) ∧
  exclusive (uniq w).
Proof.
  intros Hrun.
  destruct (wrun_consistent os winit w consistent_winit Hrun) as (Hex & Hob & Hn).
  done.
Qed.

Lemma count_is_number_owned_witness :
  ∃ w, wrun (take 4 main_block) winit = Some w ∧
    count w = 1 ∧
    count w = Z.of_nat (size (objs w)) ∧
    (∀ r, r ∈ objs w ↔ held r (uniq w)) ∧
    exclusive (uniq w).
Proof.
  eexists. split; [reflexivity|]. split; [reflexivity|].
  apply (count_is_number_owned (take 4 main_block)). reflexivity.
Defined.

(** X16.  No operation deletes an object twice.  In a state reached by such
    a run, an operation that is given live handles (a constructor: storage
    without a live handle, and a counter below [INT_MAX]) is defined: every
    [delete] that it makes is of a live object. *)
Theorem no_double_delete os w o :
  wrun os winit = Some w → wready o w → is_Some (wstep o w).
Proof.
  intros Hrun Hr.
  destruct (wstep_ok o w (wrun_consistent os winit w consistent_winit Hrun) Hr)
    as (w' & E & _).
  by exists w'.
Qed.

Lemma no_double_delete_witness :
  ∃ w, wrun (take 4 main_block) winit = Some w ∧ is_Some (wstep (WReset 3) w).
Proof.
  eexists. split; [reflexivity|].
  apply (no_double_delete (take 4 main_block)); [reflexivity|].
  eexists. reflexivity.
Defined.

End UniqueTestSpec.

(** * The exclusive handle on arrays *)

Module UniqueArraySpec.
Import UniqueArray.

Lemma ArrayPtr_eta h : mkArrayPtr (ptr_ h) (deleter_ h) = h.
Proof. by destruct h. Qed.

Lemma index_set_spec this st h r b i v :
  handles st !! this = Some h → ptr_ h = Some r → blocks st !! r = Some b →
  (i < length b)%nat →
  index_set this i v st
  = Some (mkState (handles st) (<[r := <[i := Some v]> b]> (blocks st)) (trace st)).
Proof.
  intros Hh Hr Hb Hi. unfold index_set. rewrite Hh. simpl. rewrite Hr. simpl.
  rewrite Hb. simpl. by rewrite decide_True.
Qed.

Lemma index_get_spec this st h r b i :
  handles st !! this = Some h → ptr_ h = Some r → blocks st !! r = Some b →
  index_get this i st = mjoin (b !! i).
Proof.
  intros Hh Hr Hb. unfold index_get. rewrite Hh. simpl. rewrite Hr. simpl.
  rewrite Hb. simpl. by destruct (b !! i).
Qed.

(** X17.  Writing through [operator[]] and reading back.  For a handle on a
    block and an index inside it: after [p[i] = v], [p[i]] is [v]; every
    other cell of the block, and what every handle on another block reads,
    is as before; handles and trace are unchanged.  An index outside the
    block is not checked: both the write and the read are undefined. *)
Theorem index_write_read this st h r b i v :
  handles st !! this = Some h →
  ptr_ h = Some r →
  blocks st !! r = Some b →
  ((i < length b)%nat →
   ∃ st',
     index_set this i v st = Some st' ∧
     index_get this i st' = Some v ∧
     (∀ j, j ≠ i → index_get this j st' = index_get this j st) ∧
     (∀ k hk j, handles st !! k = Some hk → ptr_ hk ≠ Some r →
                index_get k j st' = index_get k j st) ∧
     handles st' = handles st ∧ trace st' = trace st) ∧
  ((length b ≤ i)%nat →
   index_set this i v st = None ∧ index_get this i st = None).
Proof.
  intros Hh Hr Hb. split.
  - intros Hi. rewrite (index_set_spec this st h r b i v) by done.
    set (st' := mkState (handles st) (<[r := <[i := Some v]> b]> (blocks st))
                  (trace st)).
    exists st'. split; [done|].
    assert (Hh' : handles st' !! this = Some h) by done.
    assert (Hb' : blocks st' !! r = Some (<[i := Some v]> b))
      by apply lookup_insert_eq.
    split; [|split; [|split; [|done]]].
    + rewrite (index_get_spec this st' h r _ i Hh' Hr Hb').
      by rewrite list_lookup_insert_eq.
    + intros j Hj.
      rewrite (index_get_spec this st' h r _ j Hh' Hr Hb').
      rewrite (index_get_spec this st h r b j Hh Hr Hb).
      by rewrite list_lookup_insert_ne.
    + intros k hk j Hk Hrk. unfold index_get. simpl. rewrite Hk. simpl.
      destruct (ptr_ hk) as [r'|]; [|done]. simpl.
      rewrite lookup_insert_ne; [done|congruence].
  - intros Hi. split.
    + unfold index_set. rewrite Hh. simpl. rewrite Hr. simpl. rewrite Hb. simpl.
      rewrite decide_False; [done|lia].
    + rewrite (index_get_spec this st h r b i Hh Hr Hb).
      by rewrite lookup_ge_None_2.
Qed.

Lemma index_write_read_witness :
  (∃ st',
     index_set 0 1 20 one_array = Some st' ∧
     index_get 0 1 st' = Some 20 ∧
     (∀ j, j ≠ 1%nat → index_get 0 j st' = index_get 0 j one_array) ∧
     (∀ k hk j, handles one_array !! k = Some hk → ptr_ hk ≠ Some 4%positive →
                index_get k j st' = index_get k j one_array) ∧
     handles st' = handles one_array ∧ trace st' = trace one_array) ∧
  (index_set 0 3 20 one_array = None ∧ index_get 0 3 one_array = None).
Proof.
  destruct (index_write_read 0 one_array (mkArrayPtr (Some 4%positive) defaultDeleter)
              4%positive [Some 10; None; Some 30] 1 20 eq_refl eq_refl eq_refl)
    as [H1 _].
  destruct (index_write_read 0 one_array (mkArrayPtr (Some 4%positive) defaultDeleter)
              4%positive [Some 10; None; Some 30] 3 20 eq_refl eq_refl eq_refl)
    as [_ H2].
  split; [apply H1; simpl; lia|apply H2; simpl; lia].
Defined.

(** ** The loops of [main] *)

Lemma fill_from_spec this h r : ∀ k i st b,
  handles st !! this = Some h → ptr_ h = Some r → blocks st !! r = Some b →
  (i + k ≤ length b)%nat →
  ∃ st' b',
    fill_from this i k st = Some st' ∧
    handles st' = handles st ∧ trace st' = trace st ∧
    blocks st' = <[r := b']> (blocks st) ∧
    length b' = length b ∧
    (∀ j, (i ≤ j < i + k)%nat → b' !! j = Some (Some (Z.of_nat j))) ∧
    (∀ j, ¬ (i ≤ j < i + k)%nat → b' !! j = b !! j).
Proof.
  intros k. induction k as [|k IH]; intros i st b Hh Hr Hb Hlen.
  - exists st, b. split; [done|]. split; [done|]. split; [done|].
    split; [by rewrite insert_id|]. split; [done|]. split; [lia|done].
  - simpl. rewrite (index_set_spec this st h r b i) by (done || lia). simpl.
    destruct (IH (S i) (mkState (handles st)
                          (<[r := <[i := Some (Z.of_nat i)]> b]> (blocks st)) (trace st))
                (<[i := Some (Z.of_nat i)]> b))
      as (st' & b' & E & Hhs & Htr & Hbs & Hl & Hin & Hout);
      [done|done|by simpl; rewrite lookup_insert_eq|rewrite length_insert; lia|].
    exists st', b'. split; [done|]. simpl in *. split; [done|]. split; [done|].
    split; [by rewrite Hbs, insert_insert_eq|].
    split; [by rewrite Hl, length_insert|]. split.
    + intros j Hj. destruct (decide (j = i)) as [->|Hne].
      * rewrite Hout by lia. apply list_lookup_insert_eq. lia.
      * apply Hin. lia.
    + intros j Hj. rewrite Hout by lia. apply list_lookup_insert_ne. lia.
Qed.

Lemma check_from_spec this st : ∀ k i,
  (∀ j, (i ≤ j < i + k)%nat → index_get this j st = Some (Z.of_nat j)) →
  check_from this i k st = true.
Proof.
  intros k. induction k as [|k IH]; intros i Hall; [done|]. simpl.
  rewrite bool_decide_eq_true_2 by (apply Hall; lia). simpl.
  apply IH. intros j Hj. apply Hall. lia.
Qed.

(** X18.  The filling loop.  For a handle on a block of at least [n] cells,
    the loop [for (i = 0; i < n; ++i) p[i] = i] runs to its end; afterwards
    [p[i]] is [i] for every [i < n], so every assertion of the checking loop
    holds; the cells from [n] on, the handles and the trace are unchanged.
    On a shorter block the loop runs into an index outside the block. *)
Theorem fill_then_check this st h r b n :
  handles st !! this = Some h →
  ptr_ h = Some r →
  blocks st !! r = Some b →
  ((n ≤ length b)%nat →
   ∃ st',
     fill this n st = Some st' ∧
     (∀ i, (i < n)%nat → index_get this i st' = Some (Z.of_nat i)) ∧
     check this n st' = true ∧
     (∀ i, (n ≤ i)%nat → index_get this i st' = index_get this i st) ∧
     handles st' = handles st ∧ trace st' = trace st) ∧
  ((length b < n)%nat → fill this n st = None).
Proof.
  intros Hh Hr Hb. split.
  - intros Hn.
    destruct (fill_from_spec this h r n 0 st b Hh Hr Hb)
      as (st' & b' & E & Hhs & Htr & Hbs & Hl & Hin & Hout); [lia|].
    exists st'. split; [done|].
    assert (Hh' : handles st' !! this = Some h) by by rewrite Hhs.
    assert (Hb' : blocks st' !! r = Some b') by by rewrite Hbs, lookup_insert_eq.
    assert (Hget : ∀ i, (i < n)%nat → index_get this i st' = Some (Z.of_nat i)).
    { intros i Hi. rewrite (index_get_spec this st' h r b' i Hh' Hr Hb').
      by rewrite Hin by lia. }
    split; [done|]. split.
    { apply check_from_spec. intros j Hj. apply Hget. lia. }
    split; [|done]. intros i Hi.
    rewrite (index_get_spec this st' h r b' i Hh' Hr Hb').
    rewrite (index_get_spec this st h r b i Hh Hr Hb).
    by rewrite Hout by lia.
  - intros Hn. unfold fill.
    destruct (fill_from_spec this h r (length b) 0 st b Hh Hr Hb)
      as (st' & b' & E & Hhs & Htr & Hbs & Hl & _); [lia|].
    replace n with (length b + S (n - S (length b)))%nat by lia.
    assert (Happ : ∀ k1 k2 i s,
               fill_from this i (k1 + k2) s
               = fill_from this i k1 s ≫= fill_from this (i + k1) k2).
    { intros k1. induction k1 as [|k1 IH1]; intros k2 i s; simpl.
      - by rewrite Nat.add_0_r.
      - destruct (index_set this i (Z.of_nat i) s) as [s1|]; simpl; [|done].
        rewrite IH1. by replace (S i + k1)%nat with (i + S k1)%nat by lia. }
    rewrite Happ, E. simpl.
    unfold index_set. rewrite Hhs, Hh. simpl. rewrite Hr. simpl.
    rewrite Hbs, lookup_insert_eq. simpl.
    rewrite decide_False; [done|lia].
Qed.

Lemma fill_then_check_witness :
  (∃ st',
     fill 0 3 one_array = Some st' ∧
     (∀ i, (i < 3)%nat → index_get 0 i st' = Some (Z.of_nat i)) ∧
     check 0 3 st' = true ∧
     (∀ i, (3 ≤ i)%nat → index_get 0 i st' = index_get 0 i one_array) ∧
     handles st' = handles one_array ∧ trace st' = trace one_array) ∧
  fill 0 4 one_array = None.
Proof.
  destruct (fill_then_check 0 one_array (mkArrayPtr (Some 4%positive) defaultDeleter)
              4%positive [Some 10; None; Some 30] 3 eq_refl eq_refl eq_refl)
    as [H1 _].
  destruct (fill_then_check 0 one_array (mkArrayPtr (Some 4%positive) defaultDeleter)
              4%positive [Some 10; None; Some 30] 4 eq_refl eq_refl eq_refl)
    as [_ H2].
  split; [apply H1; simpl; lia|apply H2; simpl; lia].
Defined.

(** ** Swapping and the second block of [main] *)

Lemma swap_spec a b st ha hb :
  handles st !! a = Some ha → handles st !! b = Some hb →
  swap a b st
  = Some (mkState (<[b := ha]> (<[a := hb]> (handles st))) (blocks st) (trace st)).
Proof.
  intros Ha Hb. unfold swap. rewrite Ha, Hb. simpl. by rewrite !ArrayPtr_eta.
Qed.

Lemma swap_lookups a b (hs : gmap nat ArrayPtr) ha hb :
  hs !! a = Some ha → hs !! b = Some hb →
  <[b := ha]> (<[a := hb]> hs) !! a = Some hb ∧
  <[b := ha]> (<[a := hb]> hs) !! b = Some ha.
Proof.
  intros Ha Hb. split; [|by rewrite lookup_insert_eq].
  destruct (decide (b = a)) as [->|Hne].
  - rewrite lookup_insert_eq. congruence.
  - by rewrite lookup_insert_ne, lookup_insert_eq.
Qed.

(** X19.  [swap] exchanges the arrays of two handles: afterwards each handle
    reads, at every index, what the other one read before, and is empty
    exactly if the other one was; no block and no cell changes, and no
    cleanup routine is called. *)
Theorem swap_exchanges_arrays a b st :
  is_Some (handles st !! a) →
  is_Some (handles st !! b) →
  ∃ st',
    swap a b st = Some st' ∧
    (∀ i, index_get a i st' = index_get b i st ∧
          index_get b i st' = index_get a i st) ∧
    to_bool a st' = to_bool b st ∧
    to_bool b st' = to_bool a st ∧
    blocks st' = blocks st ∧
    trace st' = trace st.
Proof.
  intros [ha Ha] [hb Hb]. rewrite (swap_spec a b st ha hb Ha Hb).
  eexists. split; [done|].
  destruct (swap_lookups a b (handles st) ha hb Ha Hb) as [La Lb].
  unfold index_get, to_bool. simpl. rewrite La, Lb, Ha, Hb. done.
Qed.

Lemma swap_exchanges_arrays_witness :
  ∃ st',
    swap 0 1 one_array = Some st' ∧
    (∀ i, index_get 0 i st' = index_get 1 i one_array ∧
          index_get 1 i st' = index_get 0 i one_array) ∧
    to_bool 0 st' = to_bool 1 one_array ∧
    to_bool 1 st' = to_bool 0 one_array ∧
    blocks st' = blocks one_array ∧
    trace st' = trace one_array.
Proof.
  apply swap_exchanges_arrays; eexists; reflexivity.
Defined.

Lemma ctor_spec this p d st :
  handles st !! this = None →
  ctor this p d st
  = Some (mkState (<[this := mkArrayPtr p d]> (handles st)) (blocks st) (trace st)).
Proof. intros Hf. unfold ctor, fresh_object. by rewrite Hf. Qed.

Lemma reset_default_spec this p st r b :
  handles st !! this = Some (mkArrayPtr (Some r) defaultDeleter) →
  blocks st !! r = Some b →
  reset this p st
  = Some (mkState (<[this := mkArrayPtr p defaultDeleter]> (handles st))
            (delete r (blocks st))
            (trace st ++ [EvCleanup defaultDeleter (Some r)])).
Proof.
  intros Hh Hb. unfold reset. rewrite Hh. simpl.
  unfold call_deleter. by rewrite Hb.
Qed.

Lemma reset_empty_spec this p st d :
  handles st !! this = Some (mkArrayPtr None d) →
  reset this p st
  = Some (mkState (<[this := mkArrayPtr p d]> (handles st)) (blocks st) (trace st)).
Proof. intros Hh. unfold reset. by rewrite Hh. Qed.

Lemma new_array_fresh st : blocks st !! fresh (dom (blocks st)) = None.
Proof. apply not_elem_of_dom, is_fresh. Qed.

(** X20.  The array block of [main], for any array size [n] and in any
    state where the two handle objects are not yet alive: the block runs to
    its end, every assertion of its two checking loops holds, each of the
    two arrays is deallocated exactly once, and at the end the handles and
    the blocks are what they were before. *)
Theorem array_block_frees_all p1 p2 n st0 :
  p1 ≠ p2 →
  handles st0 !! p1 = None →
  handles st0 !! p2 = None →
  ∃ st' r1 r2,
    array_block p1 p2 n st0 = Some (true, st') ∧
    handles st' = handles st0 ∧
    blocks st' = blocks st0 ∧
    r1 ≠ r2 ∧
    trace st' = trace st0 ++ [EvCleanup defaultDeleter (Some r1);
                              EvCleanup defaultDeleter (Some r2)].
Proof.
  intros Hne Hf1 Hf2. unfold array_block, new_array.
  set (r1 := fresh (dom (blocks st0))).
  pose proof (new_array_fresh st0) as Hr1. fold r1 in Hr1.
  rewrite ctor_spec by done. cbn [mbind option_bind handles blocks trace].
  destruct (fill_from_spec p1 (mkArrayPtr (Some r1) defaultDeleter) r1 n 0
              (mkState (<[p1 := mkArrayPtr (Some r1) defaultDeleter]> (handles st0))
                 (<[r1 := replicate n None]> (blocks st0)) (trace st0))
              (replicate n None))
    as (sb & b' & E & Hhs & Htr & Hbs & Hl & Hin & _);
    [by apply lookup_insert_eq|done|by apply lookup_insert_eq
    |by rewrite length_replicate|].
  unfold fill. rewrite E. cbn [mbind option_bind].
  destruct sb as [hsb bsb trb]. simpl in Hhs, Htr, Hbs. subst hsb trb bsb.
  rewrite insert_insert_eq. cbn [handles blocks trace].
  assert (Hget1 : ∀ p s,
             handles s !! p = Some (mkArrayPtr (Some r1) defaultDeleter) →
             blocks s !! r1 = Some b' → check p n s = true).
  { intros p s Hp Hb. apply check_from_spec. intros j Hj.
    rewrite (index_get_spec p s _ r1 b' j Hp eq_refl Hb). by rewrite Hin by lia. }
  rewrite (Hget1 p1) by apply lookup_insert_eq.
  set (r2 := fresh (dom (<[r1 := b']> (blocks st0)))).
  assert (Hr2 : <[r1 := b']> (blocks st0) !! r2 = None).
  { apply not_elem_of_dom, is_fresh. }
  assert (Hr12 : r1 ≠ r2).
  { intros E12. rewrite <-E12, lookup_insert_eq in Hr2. done. }
  rewrite ctor_spec by (by simpl; rewrite lookup_insert_ne).
  cbn [mbind option_bind handles blocks trace].
  rewrite (swap_spec p2 p1 _ (mkArrayPtr (Some r2) defaultDeleter)
             (mkArrayPtr (Some r1) defaultDeleter));
    [|by apply lookup_insert_eq
     |by simpl; rewrite lookup_insert_ne, lookup_insert_eq].
  cbn [mbind option_bind handles blocks trace].
  rewrite (Hget1 p2).
  2:{ simpl. by rewrite lookup_insert_ne, lookup_insert_eq. }
  2:{ simpl. by rewrite lookup_insert_ne, lookup_insert_eq. }
  rewrite (reset_default_spec p2 None _ r1 b').
  2:{ simpl. by rewrite lookup_insert_ne, lookup_insert_eq. }
  2:{ simpl. by rewrite lookup_insert_ne, lookup_insert_eq. }
  cbn [mbind option_bind handles blocks trace].
  unfold dtor.
  rewrite (reset_empty_spec p2 None _ defaultDeleter) by apply lookup_insert_eq.
  cbn [mbind option_bind handles blocks trace].
  rewrite (reset_default_spec p1 None _ r2 (replicate n None)).
  2:{ simpl. rewrite lookup_delete_ne by congruence.
      rewrite !insert_insert_eq, lookup_insert_ne by done.
      by rewrite lookup_insert_eq. }
  2:{ simpl. rewrite lookup_delete_ne, lookup_insert_eq by done. done. }
  cbn [mbind option_bind handles blocks trace andb].
  eexists _, r1, r2. split; [done|]. simpl.
  split; [|split; [|split; [done|by rewrite <-app_assoc]]].
  - apply map_eq. intros k.
    destruct (decide (k = p1)) as [->|H1]; [by rewrite lookup_delete_eq|].
    rewrite lookup_delete_ne, lookup_insert_ne by done.
    destruct (decide (k = p2)) as [->|H2]; [by rewrite lookup_delete_eq|].
    rewrite lookup_delete_ne by done. by rewrite !lookup_insert_ne.
  - apply map_eq. intros k.
    destruct (decide (k = r2)) as [->|H2].
    { rewrite lookup_delete_eq. rewrite lookup_insert_ne in Hr2 by done. done. }
    rewrite lookup_delete_ne by done.
    destruct (decide (k = r1)) as [->|H1]; [by rewrite lookup_delete_eq|].
    rewrite lookup_delete_ne by done. by rewrite !lookup_insert_ne.
Qed.

Lemma array_block_frees_all_witness :
  ∃ st' r1 r2,
    array_block 1 2 5 init = Some (true, st') ∧
    handles st' = handles init ∧
    blocks st' = blocks init ∧
    r1 ≠ r2 ∧
    trace st' = trace init ++ [EvCleanup defaultDeleter (Some r1);
                               EvCleanup defaultDeleter (Some r2)].
Proof.
  apply array_block_frees_all; [discriminate|reflexivity|reflexivity].
Defined.

End UniqueArraySpec.

(** * The shared handle on [int] objects *)

Module SharedIntSpec.
Import Shared SharedExt SharedInt SharedSpec SharedExtSpec.

Lemma settle_events w st' evs :
  trace st' = trace (sh w) ++ evs →
  settle w st' = (ob ← run_deleters evs (objs w); Some (mkWorld st' ob)).
Proof. intros E. unfold settle. by rewrite E, drop_app_length. Qed.

Lemma settle_no_events w st' :
  trace st' = trace (sh w) → settle w st' = Some (mkWorld st' (objs w)).
Proof.
  intros E. rewrite (settle_events w st' []); [done|by rewrite app_nil_r].
Qed.

Lemma run_deleters_snoc_new evs c : ∀ ob,
  run_deleters (evs ++ [EvNew c]) ob = run_deleters evs ob.
Proof.
  induction evs as [|e evs IH]; intros ob; [done|]. simpl.
  destruct e as [c'|c'|d [r|]]; simpl; try apply IH.
  destruct (ob !! r); simpl; [apply IH|done].
Qed.

Lemma run_deleters_release t hs ob :
  run_deleters (release_events t hs) ob
  = match freed_by t hs with
    | Some r0 => _ ← ob !! r0; Some (delete r0 ob)
    | None => Some ob
    end.
Proof.
  unfold release_events, freed_by. destruct (count_ t) as [c|]; [|done].
  case_decide; [|done]. simpl. destruct (ptr_ t) as [r0|]; [|done].
  by destruct (ob !! r0).
Qed.

Lemma safe_on_add hs0 cs ob cs' ob' this h' :
  safe_on hs0 cs ob →
  hs0 !! this = None →
  (∀ c, cs' !! c = cell_of (refs c (<[this := h']> hs0))) →
  (∀ j hj c, hs0 !! j = Some hj → count_ h' = Some c → count_ hj = Some c →
             hj = h') →
  (count_ h' = None → ptr_ h' = None) →
  (∀ r, is_Some (ob' !! r) ↔ is_Some (ob !! r) ∨ ptr_ h' = Some r) →
  (∀ j hj r, hs0 !! j = Some hj → ptr_ h' = Some r → ptr_ hj = Some r →
             count_ hj = count_ h') →
  safe_on (<[this := h']> hs0) cs' ob'.
Proof.
  intros (Hcnt & Hcoh & Hp1 & Hp2 & Hp3 & Hp4) Hf Hcnt' Hcoh' Hp1' Hob Hp4'.
  split; [done|]. split; [|split; [|split; [|split]]].
  - intros i j hi hj c.
    destruct (decide (i = this)) as [->|Hi], (decide (j = this)) as [->|Hj];
      rewrite ?lookup_insert_eq, ?lookup_insert_ne by done;
      intros Hi' Hj' Hci Hcj; simplify_eq; try done.
    + symmetry. by apply (Hcoh' j hj c).
    + by apply (Hcoh' i hi c).
    + by apply (Hcoh i j hi hj c).
  - intros k h. destruct (decide (k = this)) as [->|Hk].
    + rewrite lookup_insert_eq. by intros [= <-].
    + rewrite lookup_insert_ne by done. apply Hp1.
  - intros k h r. rewrite Hob. destruct (decide (k = this)) as [->|Hk].
    + rewrite lookup_insert_eq. intros [= <-] Hr. by right.
    + rewrite lookup_insert_ne by done. intros Hk' Hr. left. by apply (Hp2 k h).
  - intros r [Hr|Hr]%Hob.
    + destruct (Hp3 r Hr) as (k & h & Hk & Hrk). exists k, h.
      split; [|done]. rewrite lookup_insert_ne; [done|congruence].
    + exists this, h'. by rewrite lookup_insert_eq.
  - intros i j hi hj r.
    destruct (decide (i = this)) as [->|Hi], (decide (j = this)) as [->|Hj];
      rewrite ?lookup_insert_eq, ?lookup_insert_ne by done;
      intros Hi' Hj' Hri Hrj; simplify_eq; try done.
    + symmetry. by apply (Hp4' j hj r).
    + by apply (Hp4' i hi r).
    + by apply (Hp4 i j hi hj r).
Qed.

Lemma safe_on_values hs hs' cs ob :
  (∀ c, refs c hs' = refs c hs) →
  (∀ k h, hs' !! k = Some h → ∃ k', hs !! k' = Some h) →
  (∀ k h, hs !! k = Some h → ∃ k', hs' !! k' = Some h) →
  safe_on hs cs ob → safe_on hs' cs ob.
Proof.
  intros Hrefs Hsub Hsup (Hcnt & Hcoh & Hp1 & Hp2 & Hp3 & Hp4).
  split; [|split; [|split; [|split; [|split]]]].
  - intros c. by rewrite Hrefs.
  - intros i j hi hj c Hi Hj.
    destruct (Hsub i hi Hi) as [i' Hi'], (Hsub j hj Hj) as [j' Hj'].
    by apply (Hcoh i' j').
  - intros k h Hk. destruct (Hsub k h Hk) as [k' Hk']. by apply (Hp1 k').
  - intros k h r Hk. destruct (Hsub k h Hk) as [k' Hk']. by apply (Hp2 k').
  - intros r Hr. destruct (Hp3 r Hr) as (k & h & Hk & Hrk).
    destruct (Hsup k h Hk) as [k' Hk']. by exists k', h.
  - intros i j hi hj r Hi Hj.
    destruct (Hsub i hi Hi) as [i' Hi'], (Hsub j hj Hj) as [j' Hj'].
    by apply (Hp4 i' j').
Qed.

(** The release of [this], seen from the other handles. *)
Lemma release_world this st ob t :
  safe_on (handles st) (cells st) ob →
  within_int st →
  handles st !! this = Some t →
  ∃ st1,
    release this st = Some st1 ∧
    handles st1 = handles st ∧
    counts_without this st1 ∧
    trace st1 = trace st ++ release_events t (handles st) ∧
    (∀ r0, freed_by t (handles st) = Some r0 → is_Some (ob !! r0)) ∧
    safe_on (delete this (handles st)) (cells st1)
      (objs_after_release t (handles st) ob).
Proof.
  intros Hsafe Hint Ht. pose proof Hsafe as (Hcnt & Hcoh & Hp1 & Hp2 & Hp3 & Hp4).
  destruct (release_counts this st t Hcnt Hint Ht) as (st1 & E1 & Hh1 & Hcw).
  exists st1. split; [done|]. split; [done|]. split; [done|].
  split; [exact (release_trace this st t st1 Hcnt Ht E1)|].
  assert (Hfreed : ∀ r0, freed_by t (handles st) = Some r0 →
            ∃ c, count_ t = Some c ∧ refs c (handles st) = 1%nat ∧ ptr_ t = Some r0).
  { intros r0. unfold freed_by. destruct (count_ t) as [c|]; [|done].
    case_decide; [|done]. intros Hr. by exists c. }
  split.
  { intros r0 Hr0. destruct (Hfreed r0 Hr0) as (c & _ & _ & Hr). by apply (Hp2 this t). }
  assert (Hsole : ∀ r0 k hk, freed_by t (handles st) = Some r0 → k ≠ this →
            handles st !! k = Some hk → ptr_ hk ≠ Some r0).
  { intros r0 k hk Hr0 Hk Hhk Hrk.
    destruct (Hfreed r0 Hr0) as (c & Hc & Hone & Hr).
    assert (Hck : count_ hk = Some c) by by rewrite (Hp4 k this hk t r0).
    assert (Hk' : delete this (handles st) !! k = Some hk)
      by by rewrite lookup_delete_ne.
    pose proof (refs_owner c _ k hk Hk' Hck) as Hpos.
    rewrite (refs_delete c _ this t Ht) in Hone. unfold owns in Hone.
    rewrite decide_True in Hone by done. lia. }
  split; [|split; [|split; [|split; [|split]]]].
  - intros c. rewrite (Hcw c). by rewrite Hh1.
  - intros i j hi hj c [_ Hi]%lookup_delete_Some [_ Hj]%lookup_delete_Some.
    by apply (Hcoh i j).
  - intros k h [_ Hk]%lookup_delete_Some. by apply (Hp1 k).
  - intros k h r [Hne Hk]%lookup_delete_Some Hr. unfold objs_after_release.
    destruct (freed_by t (handles st)) as [r0|] eqn:Ef; [|by apply (Hp2 k h)].
    rewrite lookup_delete_ne; [by apply (Hp2 k h)|].
    intros ->. by apply (Hsole r k h).
  - intros r Hr.
    assert (Hr' : is_Some (ob !! r)).
    { unfold objs_after_release in Hr.
      destruct (freed_by t (handles st)); [|done].
      destruct Hr as [v Hv]. apply lookup_delete_Some in Hv as [_ Hv]. by exists v. }
    destruct (Hp3 r Hr') as (k & h & Hk & Hrk).
    destruct (decide (k = this)) as [->|Hne].
    2:{ exists k, h. by rewrite lookup_delete_ne. }
    simplify_eq. destruct (count_ t) as [c|] eqn:Ec.
    2:{ rewrite (Hp1 this t Ht Ec) in Hrk. done. }
    destruct (decide (refs c (handles st) = 1%nat)) as [Hone|Hmore].
    { exfalso. unfold objs_after_release, freed_by in Hr.
      rewrite Ec, decide_True, Hrk in Hr by done.
      destruct Hr as [v Hv]. by rewrite lookup_delete_eq in Hv. }
    pose proof (refs_owner c _ this t Ht Ec) as Hpos.
    rewrite (refs_delete c _ this t Ht) in Hpos, Hmore. unfold owns in *.
    rewrite decide_True in Hpos, Hmore by done.
    destruct (refs_pos_exists c (delete this (handles st))) as (k' & h' & Hk' & Hc');
      [lia|].
    exists k', h'. split; [done|].
    apply lookup_delete_Some in Hk' as [_ Hk'].
    by rewrite (Hcoh k' this h' t c Hk' Ht Hc' Ec).
  - intros i j hi hj r [_ Hi]%lookup_delete_Some [_ Hj]%lookup_delete_Some.
    by apply (Hp4 i j).
Qed.

Lemma run_deleters_release_ok t hs ob :
  (∀ r0, freed_by t hs = Some r0 → is_Some (ob !! r0)) →
  run_deleters (release_events t hs) ob = Some (objs_after_release t hs ob).
Proof.
  intros Hin. rewrite run_deleters_release. unfold objs_after_release.
  destruct (freed_by t hs) as [r0|]; [|done].
  by destruct (Hin r0 eq_refl) as [v ->].
Qed.

Lemma objs_after_release_sub t hs ob r :
  is_Some (objs_after_release t hs ob !! r) → is_Some (ob !! r).
Proof.
  unfold objs_after_release. destruct (freed_by t hs); [|done].
  intros [v Hv]. apply lookup_delete_Some in Hv as [_ Hv]. by exists v.
Qed.

Lemma objs_after_release_insert t hs ob r v :
  ob !! r = None →
  (∀ r0, freed_by t hs = Some r0 → is_Some (ob !! r0)) →
  objs_after_release t hs (<[r := v]> ob) = <[r := v]> (objs_after_release t hs ob).
Proof.
  intros Hr Hin. unfold objs_after_release.
  destruct (freed_by t hs) as [r0|]; [|done].
  destruct (Hin r0 eq_refl) as [v0 Hv0].
  rewrite delete_insert_ne; [done|congruence].
Qed.

Lemma new_int_fresh (ob : gmap positive Z) : ob !! fresh (dom ob) = None.
Proof. apply not_elem_of_dom, is_fresh. Qed.

Lemma is_Some_insert (ob : gmap positive Z) r v r' :
  is_Some (<[r := v]> ob !! r') ↔ is_Some (ob !! r') ∨ Some r = Some r'.
Proof.
  destruct (decide (r = r')) as [->|Hne].
  - rewrite lookup_insert_eq. split; [by right|by eexists].
  - rewrite lookup_insert_ne by done. split; [by left|].
    intros [?|[= ?]]; done.
Qed.

(** The handle [this] is given a cell of its own after its release. *)
Lemma safe_rebind this st1 hs ob1 ptr d tr' ob' :
  handles st1 = hs →
  counts_without this st1 →
  safe_on (delete this hs) (cells st1) ob1 →
  (∀ r, is_Some (ob' !! r) ↔ is_Some (ob1 !! r) ∨ ptr = Some r) →
  (∀ r, ptr = Some r → ob1 !! r = None) →
  safe (mkWorld (mkState (<[this := mkSharedPtr ptr (Some (new_cell st1)) d]> hs)
                   (<[new_cell st1 := 1]> (cells st1)) tr') ob').
Proof.
  intros Hh1 Hcw Hsafe Hob Hnew. unfold safe. simpl.
  rewrite <-(insert_delete_eq hs).
  pose proof Hsafe as (_ & _ & _ & Hp2 & _).
  assert (Hzero : refs (new_cell st1) (delete this hs) = 0%nat).
  { pose proof (new_cell_fresh st1) as Hf. rewrite (Hcw _), Hh1 in Hf.
    by apply cell_of_None in Hf. }
  eapply safe_on_add; [done|apply lookup_delete_eq| | |done|done|].
  - intros c. rewrite insert_delete_eq, <-Hh1.
    exact (bind_counts this st1 ptr d tr' Hcw c).
  - intros j hj c Hj [= <-] Hcj. exfalso. by apply (refs_none _ _ j hj Hzero).
  - intros j hj r Hj [= ->] Hrj. exfalso.
    destruct (Hp2 j hj r Hj Hrj) as [v Hv]. by rewrite (Hnew r eq_refl) in Hv.
Qed.

(** Each operation that is given live handles, in a safe world whose
    counts are within [int], is defined, and the world is safe again if the
    counts are still within [int]. *)
Lemma shared_wstep_ok o w :
  safe w → within_int (sh w) → wready o w →
  ∃ w', wstep o w = Some w' ∧ (within_int (sh w') → safe w').
Proof.
  intros Hsafe Hint Hr. destruct w as [st ob]. unfold safe in Hsafe. simpl in *.
  pose proof Hsafe as (Hcnt & Hcoh & Hp1 & Hp2 & Hp3 & Hp4).
  destruct o as [this v|this|this other|this other|this v|this|this other|this];
    simpl in *.
  - pose proof (new_int_fresh ob) as Hfr. set (r := fresh (dom ob)) in *.
    unfold make_shared, ctor_bound, fresh_object. rewrite Hr. simpl.
    rewrite (settle_events _ _ [EvNew (new_cell st)]) by done. simpl.
    eexists. split; [done|]. intros _.
    apply (safe_rebind this st (handles st) ob); [done| | | |].
    + by apply counts_without_fresh.
    + by rewrite delete_id.
    + intros r'. apply is_Some_insert.
    + by intros r' [= <-].
  - unfold ctor_empty, fresh_object. rewrite Hr. simpl.
    rewrite settle_no_events by done. eexists. split; [done|]. intros _.
    unfold safe. simpl. eapply safe_on_add; [done|done| | |done| |].
    + intros c. rewrite refs_insert_fresh by done. apply Hcnt.
    + by intros j hj c Hj [=].
    + intros r. split; [by left|by intros [?|?]].
    + by intros j hj r Hj [=].
  - destruct Hr as [Hf [o Ho]]. unfold ctor_copy, fresh_object. rewrite Hf. simpl.
    destruct (acquire_counts this other st o) as (st2 & E2 & Hh2 & Htr2 & Hok2);
      [by apply counts_without_fresh|congruence|done|].
    rewrite E2. simpl. rewrite settle_no_events by done.
    eexists. split; [done|]. intros Hint2. unfold safe. simpl. rewrite Hh2.
    eapply safe_on_add; [done|done| | | | |].
    + intros c. rewrite <-Hh2. by apply Hok2.
    + intros j hj c Hj Hco Hcj. by apply (Hcoh j other hj o c).
    + by apply (Hp1 other o).
    + intros r. split; [by left|]. intros [?|Hro]; [done|]. by apply (Hp2 other o).
    + intros j hj r Hj Hro Hrj. by apply (Hp4 j other hj o r).
  - destruct Hr as [[t Ht] [o Ho]]. unfold assign. rewrite Ht, Ho. simpl.
    case_decide as Hne.
    2:{ simpl. rewrite settle_no_events by done. eexists. by split. }
    destruct (release_world this st ob t Hsafe Hint Ht)
      as (st1 & E1 & Hh1 & Hcw & Htr1 & Hin & Hsafe1).
    rewrite E1. simpl.
    destruct (acquire_counts this other st1 o) as (st2 & E2 & Hh2 & Htr2 & Hok2);
      [done|done|by rewrite Hh1|].
    rewrite E2. simpl.
    rewrite (settle_events _ _ (release_events t (handles st))) by (simpl; congruence).
    simpl. rewrite run_deleters_release_ok by done. simpl.
    eexists. split; [done|]. intros Hint2. unfold safe. simpl.
    rewrite Hh2, Hh1, <-insert_delete_eq.
    pose proof Hsafe1 as (_ & Hcoh1 & Hp11 & Hp21 & _ & Hp41).
    assert (Ho1 : delete this (handles st) !! other = Some o)
      by by rewrite lookup_delete_ne.
    eapply safe_on_add; [done|apply lookup_delete_eq| | | | |].
    + intros c. rewrite insert_delete_eq, <-Hh1, <-Hh2. by apply Hok2.
    + intros j hj c Hj Hco Hcj. by apply (Hcoh1 j other hj o c).
    + by apply (Hp11 other o).
    + intros r. split; [by left|]. intros [?|Hro]; [done|]. by apply (Hp21 other o).
    + intros j hj r Hj Hro Hrj. by apply (Hp41 j other hj o r).
  - destruct Hr as [t Ht].
    pose proof (new_int_fresh ob) as Hfr. set (r := fresh (dom ob)) in *.
    destruct (release_world this st ob t Hsafe Hint Ht)
      as (st1 & E1 & Hh1 & Hcw & Htr1 & Hin & Hsafe1).
    unfold reset. rewrite E1. simpl.
    rewrite (settle_events _ _ (release_events t (handles st) ++ [EvNew (new_cell st1)]))
      by (simpl; rewrite Htr1; by rewrite <-app_assoc).
    simpl. rewrite run_deleters_snoc_new, run_deleters_release_ok.
    2:{ intros r0 Hr0. apply is_Some_insert. left. by apply Hin. }
    simpl. rewrite objs_after_release_insert by done.
    eexists. split; [done|]. intros _. rewrite Hh1.
    apply (safe_rebind this st1 (handles st) (objs_after_release t (handles st) ob));
      [done|done|done| |].
    + intros r'. apply is_Some_insert.
    + intros r' [= <-]. apply eq_None_not_Some. intros Hs.
      apply objs_after_release_sub in Hs. rewrite Hfr in Hs. by destruct Hs.
  - destruct Hr as [t Ht].
    destruct (release_world this st ob t Hsafe Hint Ht)
      as (st1 & E1 & Hh1 & Hcw & Htr1 & Hin & Hsafe1).
    unfold reset0, reset. rewrite E1. simpl.
    rewrite (settle_events _ _ (release_events t (handles st) ++ [EvNew (new_cell st1)]))
      by (simpl; rewrite Htr1; by rewrite <-app_assoc).
    simpl. rewrite run_deleters_snoc_new, run_deleters_release_ok by done.
    simpl. eexists. split; [done|]. intros _. rewrite Hh1.
    apply (safe_rebind this st1 (handles st) (objs_after_release t (handles st) ob));
      [done|done|done| |done].
    intros r'. split; [by left|by intros [?|?]].
  - destruct Hr as [[a Ha] [b Hb]]. unfold swap_free, swap. rewrite Ha, Hb. simpl.
    rewrite settle_no_events by done. eexists. split; [done|]. intros _.
    unfold safe. simpl. rewrite !SharedPtr_eta.
    revert Hsafe. apply safe_on_values.
    + intros c. by apply refs_swap.
    + intros k h. destruct (decide (k = other)) as [->|Hko].
      { rewrite lookup_insert_eq. intros [= <-]. by exists this. }
      rewrite lookup_insert_ne by done.
      destruct (decide (k = this)) as [->|Hkt].
      { rewrite lookup_insert_eq. intros [= <-]. by exists other. }
      rewrite lookup_insert_ne by done. by exists k.
    + intros k h Hk. destruct (decide (k = this)) as [->|Hkt].
      { exists other. rewrite lookup_insert_eq. congruence. }
      destruct (decide (k = other)) as [->|Hko].
      { exists this. simplify_eq.
        by rewrite lookup_insert_ne, lookup_insert_eq. }
      exists k. by rewrite !lookup_insert_ne.
  - destruct Hr as [t Ht].
    destruct (release_world this st ob t Hsafe Hint Ht)
      as (st1 & E1 & Hh1 & Hcw & Htr1 & Hin & Hsafe1).
    unfold dtor. rewrite E1. simpl.
    rewrite (settle_events _ _ (release_events t (handles st))) by done.
    simpl. rewrite run_deleters_release_ok by done. simpl.
    eexists. split; [done|]. intros _. unfold safe. simpl. by rewrite Hh1.
Qed.

(** An operation that is defined was given live handles. *)
Lemma shared_wstep_ready o w w' : wstep o w = Some w' → wready o w.
Proof.
  intros H.
  destruct o as [this v|this|this other|this other|this v|this|this other|this];
    simpl in *.
  - unfold make_shared, ctor_bound, fresh_object in H. simpl in H.
    by destruct (handles (sh w) !! this).
  - unfold ctor_empty, fresh_object in H. by destruct (handles (sh w) !! this).
  - unfold ctor_copy, fresh_object, acquire in H.
    destruct (handles (sh w) !! this); [done|]. simpl in H.
    by destruct (handles (sh w) !! other).
  - unfold assign in H.
    destruct (handles (sh w) !! this); [|done]. simpl in H.
    by destruct (handles (sh w) !! other).
  - unfold reset, release in H. simpl in H.
    by destruct (handles (sh w) !! this).
  - unfold reset0, reset, release in H. by destruct (handles (sh w) !! this).
  - unfold swap_free, swap in H.
    destruct (handles (sh w) !! this); [|done]. simpl in H.
    by destruct (handles (sh w) !! other).
  - unfold dtor, release in H. by destruct (handles (sh w) !! this).
Qed.

Lemma safe_winit : safe winit.
Proof.
  unfold safe, winit. simpl. split; [|split; [|split; [|split; [|split]]]].
  - intros c. by rewrite lookup_empty, refs_empty.
  - intros i j hi hj c Hi. by rewrite lookup_empty in Hi.
  - intros k h Hk. by rewrite lookup_empty in Hk.
  - intros k h r Hk. by rewrite lookup_empty in Hk.
  - intros r [v Hv]. by rewrite lookup_empty in Hv.
  - intros i j hi hj r Hi. by rewrite lookup_empty in Hi.
Qed.

Lemma shared_wrun_safe os : ∀ w k w',
  safe w →
  (∀ j w1, wrun (take j os) w = Some w1 → within_int (sh w1)) →
  wrun (take k os) w = Some w' →
  safe w'.
Proof.
  induction os as [|o os IH]; intros w k w' Hsafe Hint Hrun.
  - rewrite take_nil in Hrun. by simplify_eq/=.
  - destruct k as [|k]; [by simplify_eq/=|]. simpl in Hrun.
    destruct (wstep o w) as [w1|] eqn:E1; simplify_eq/=.
    assert (H0 : within_int (sh w)) by exact (Hint 0%nat w eq_refl).
    assert (H1 : within_int (sh w1)).
    { apply (Hint 1%nat). simpl. by rewrite E1. }
    destruct (shared_wstep_ok o w Hsafe H0 (shared_wstep_ready o w w1 E1)) as (w1' & E1' & Hs1).
    rewrite E1 in E1'. injection E1' as <-.
    apply (IH w1 k w'); [by apply Hs1| |done].
    intros j w2 Hj. apply (Hint (S j)). simpl. by rewrite E1.
Qed.

(** X21.  No dangling pointer and no leak.  Run any sequence of
    [make_shared]/construction from [new int], empty and copy construction,
    copy assignment, [reset(new int)], [reset()], swap and destruction from
    the initial state, and suppose that no cell ever has more than
    [INT_MAX] owners.  Then at every point between operations,
    dereferencing a handle whose boolean conversion is true is defined (the
    object it points to is alive), and every live object is pointed to by
    some live handle. *)
Theorem nonempty_handle_points_to_live_object os k w :
  (∀ j w1, wrun (take j os) winit = Some w1 → within_int (sh w1)) →
  wrun (take k os) winit = Some w →
  (∀ this, to_bool this (sh w) = Some true → is_Some (deref this w)) ∧
  (∀ r, is_Some (objs w !! r) → ∃ this, get this (sh w) = Some (Some r)).
Proof.
  intros Hint Hrun.
  destruct (shared_wrun_safe os winit k w safe_winit Hint Hrun)
    as (_ & _ & _ & Hp2 & Hp3 & _).
  split.
  - intros this. unfold to_bool, deref.
    destruct (handles (sh w) !! this) as [h|] eqn:Eh; [|done]. simpl.
    destruct (ptr_ h) as [r|] eqn:Er; [|done]. intros _. simpl.
    by apply (Hp2 this h r).
  - intros r Hr. destruct (Hp3 r Hr) as (k' & h & Hk & Hrk).
    exists k'. unfold get. rewrite Hk. simpl. by rewrite Hrk.
Qed.

Ltac within_int_of_run Hj :=
  simpl in Hj; rewrite ?take_nil in Hj; vm_compute in Hj; injection Hj as <-;
  apply within_int_size; vm_compute; discriminate.

Lemma main_ops_within_int j w1 :
  wrun (take j main_ops) winit = Some w1 → within_int (sh w1).
Proof.
  intros Hj.
  do 11 (destruct j as [|j]; [within_int_of_run Hj|]).
  within_int_of_run Hj.
Qed.

Lemma nonempty_handle_points_to_live_object_witness :
  ∃ w, wrun (take 7 main_ops) winit = Some w ∧
    deref 1 w = Some 42 ∧ deref 4 w = Some 10 ∧ deref 2 w = Some 5 ∧
    (∀ this, to_bool this (sh w) = Some true → is_Some (deref this w)) ∧
    (∀ r, is_Some (objs w !! r) → ∃ this, get this (sh w) = Some (Some r)).
Proof.
  eexists. split; [vm_compute; reflexivity|]. split; [vm_compute; reflexivity|].
  split; [vm_compute; reflexivity|]. split; [vm_compute; reflexivity|].
  apply (nonempty_handle_points_to_live_object main_ops 7).
  - exact main_ops_within_int.
  - reflexivity.
Defined.

(** X22.  No double [delete], no use of a deallocated cell.  In a state
    reached by such a run, an operation that is given live handles (a
    constructor: storage without a live handle) is defined: every [delete]
    it makes is of a live object, and every counter cell it touches is
    allocated. *)
Theorem shared_ops_delete_live_objects os k w o :
  (∀ j w1, wrun (take j os) winit = Some w1 → within_int (sh w1)) →
  wrun (take k os) winit = Some w →
  wready o w →
  is_Some (wstep o w).
Proof.
  intros Hint Hrun Hr.
  pose proof (shared_wrun_safe os winit k w safe_winit Hint Hrun) as Hsafe.
  destruct (shared_wstep_ok o w Hsafe (Hint k w Hrun) Hr) as (w' & E & _).
  by exists w'.
Qed.

Lemma shared_ops_delete_live_objects_witness :
  ∃ w, wrun (take 7 main_ops) winit = Some w ∧ is_Some (wstep (WDestroy 4) w).
Proof.
  eexists. split; [vm_compute; reflexivity|].
  apply (shared_ops_delete_live_objects main_ops 7).
  - exact main_ops_within_int.
  - vm_compute. reflexivity.
  - eexists. vm_compute. reflexivity.
Defined.

(** ** Copy assignment between different handles *)

Lemma objs_after_release_lookup t hs ob r :
  is_Some (objs_after_release t hs ob !! r) →
  objs_after_release t hs ob !! r = ob !! r.
Proof.
  unfold objs_after_release. destruct (freed_by t hs) as [r0|]; [|done].
  intros [v Hv]. apply lookup_delete_Some in Hv as [Hne _].
  by rewrite lookup_delete_ne.
Qed.

Lemma assign_ops_within_int j w1 :
  wrun (take j assign_ops) winit = Some w1 → within_int (sh w1).
Proof.
  intros Hj.
  do 3 (destruct j as [|j]; [within_int_of_run Hj|]).
  within_int_of_run Hj.
Qed.

(** X10.  Copy assignment [this = other] between two different live handles
    on [int] objects, in a state that a run from the initial state has
    reached without a cell ever having more than [INT_MAX] owners, and with
    every count below [INT_MAX].  The assignment is defined; afterwards [this] has
    the fields of [other], both report the same [use_count()], [*this] is
    what [*other] was, and every counter again holds the number of its
    owners.  The object that [this] pointed to has been deleted exactly when
    [this] was the only owner of its cell, by one call of the cleanup
    routine of [this], followed by the deallocation of that cell; every
    other object is untouched. *)
Theorem assign_shares os k w this other t o :
  (∀ j w1, wrun (take j os) winit = Some w1 → within_int (sh w1)) →
  wrun (take k os) winit = Some w →
  below_int_max (sh w) →
  this ≠ other →
  handles (sh w) !! this = Some t →
  handles (sh w) !! other = Some o →
  ∃ w',
    wstep (WAssign this other) w = Some w' ∧
    handles (sh w') !! this = Some o ∧
    (∀ i, i ≠ this → handles (sh w') !! i = handles (sh w) !! i) ∧
    use_count this (sh w') = use_count other (sh w') ∧
    deref this w' = deref other w ∧
    counts_ok (sh w') ∧
    trace (sh w') = trace (sh w) ++
      match count_ t with
      | Some c => if decide (refs c (handles (sh w)) = 1%nat)
                  then [EvCleanup (deleter_ t) (ptr_ t); EvDelete c] else []
      | None => []
      end ∧
    objs w' =
      match count_ t, ptr_ t with
      | Some c, Some r => if decide (refs c (handles (sh w)) = 1%nat)
                          then delete r (objs w) else objs w
      | _, _ => objs w
      end.
Proof.
  intros Hint Hrun Hb Hne Ht Ho.
  pose proof (shared_wrun_safe os winit k w safe_winit Hint Hrun) as Hsafe.
  destruct w as [st ob]. unfold safe in Hsafe. simpl in *.
  pose proof (below_within st Hb) as Hint0.
  destruct (release_world this st ob t Hsafe Hint0 Ht)
    as (st1 & E1 & Hh1 & Hcw & Htr1 & Hin & Hsafe1).
  destruct (acquire_counts this other st1 o) as (st2 & E2 & Hh2 & Htr2 & Hok2);
    [done|done|by rewrite Hh1|].
  assert (Hstep : step (OpAssign this other) st = Some st2).
  { simpl. unfold assign. rewrite Ht, Ho. simpl.
    rewrite decide_True by done. by rewrite E1. }
  simpl in Hstep. rewrite Hstep. simpl.
  rewrite (settle_events _ _ (release_events t (handles st))) by (simpl; congruence).
  simpl. rewrite run_deleters_release_ok by done. simpl.
  eexists. split; [done|]. unfold deref. simpl. rewrite Hh2, Hh1.
  split; [by rewrite lookup_insert_eq|].
  split; [by intros i Hi; rewrite lookup_insert_ne|].
  split.
  { unfold use_count. rewrite Hh2, Hh1, lookup_insert_eq, lookup_insert_ne, Ho by done.
    done. }
  split.
  { rewrite lookup_insert_eq, Ho. simpl.
    destruct (ptr_ o) as [r|] eqn:Er; [|done]. simpl.
    apply objs_after_release_lookup.
    destruct Hsafe1 as (_ & _ & _ & Hp21 & _).
    apply (Hp21 other o r); [by rewrite lookup_delete_ne|done]. }
  split; [by eapply Hok2, (below_step_within (OpAssign this other) st)|].
  split; [by rewrite Htr2, Htr1|].
  unfold objs_after_release, freed_by.
  destruct (count_ t) as [c|]; [|done].
  destruct (ptr_ t) as [r|]; by case_decide.
Qed.

Lemma assign_shares_witness :
  ∃ w, wrun (take 3 assign_ops) winit = Some w ∧
  ∃ w',
    wstep (WAssign 1 2) w = Some w' ∧
    handles (sh w') !! 1%nat
      = Some (mkSharedPtr (Some 2%positive) (Some 2%positive) defaultDeleter) ∧
    (∀ i, i ≠ 1%nat → handles (sh w') !! i = handles (sh w) !! i) ∧
    use_count 1 (sh w') = use_count 2 (sh w') ∧
    deref 1 w' = deref 2 w ∧
    counts_ok (sh w') ∧
    trace (sh w') = trace (sh w) ++
      (if decide (refs 1 (handles (sh w)) = 1%nat)
       then [EvCleanup defaultDeleter (Some 1%positive); EvDelete 1] else []) ∧
    objs w' =
      if decide (refs 1 (handles (sh w)) = 1%nat)
      then delete 1%positive (objs w) else objs w.
Proof.
  eexists. split; [vm_compute; reflexivity|].
  apply (assign_shares assign_ops 3 _ 1 2
           (mkSharedPtr (Some 1%positive) (Some 1%positive) defaultDeleter)
           (mkSharedPtr (Some 2%positive) (Some 2%positive) defaultDeleter)).
  - exact assign_ops_within_int.
  - vm_compute. reflexivity.
  - apply below_int_max_size. vm_compute. reflexivity.
  - discriminate.
  - vm_compute. reflexivity.
  - vm_compute. reflexivity.
Defined.

End SharedIntSpec.
